(** * The statistical core of the report-analysis system

    A shallow embedding of the two TypeScript classes that hold the numerical
    code of the repository,

    - [CorrelationAnalysis]
      (services/analysis/math/correlationAnalysis.ts), and
    - [AdvancedAnalysis] (the signal toolkit: Runge-Kutta integration and
      phase-space reconstruction),

    followed by the properties of that code which the specification talks
    about.

    A JavaScript [number] is an IEEE 754 binary64 value, and so is Rocq's
    primitive [float]: [+], [-], [*], [/] and [sqrt] round to nearest-even in
    both, comparisons with NaN are false in both.  Every function below
    therefore runs on concrete inputs as the TypeScript does; only
    [Math.exp] and [Math.log], which no standard pins down, are parameters
    (module [Runtime]). *)

From Stdlib Require Import ZArith List Bool Lia QArith Floats Permutation Sorted.
Import ListNotations.

#[local] Set Warnings "-inexact-float".
#[local] Open Scope float_scope.

(** ** The JavaScript run time the code relies on *)

Module Js.

Definition number := float.

(** What a call can raise.  [TypeError] and [RangeError] are raised by the
    ECMAScript run time.  [InvalidInputError] and [SingularMatrixError] are
    the error kinds the specification names (section 7); the sources
    contain no [throw] statement, so nothing below constructs them. *)
Inductive Error : Set :=
| TypeError
| RangeError
| InvalidInputError
| SingularMatrixError.

(** The completion of a call: a value, or an exception (for an [async]
    method, the rejection of its promise). *)
Inductive completion (A : Type) : Type :=
| Normal (a : A)
| Throw (e : Error).
Arguments Normal {A} a.
Arguments Throw {A} e.

Definition bind {A B} (c : completion A) (k : A -> completion B) : completion B :=
  match c with
  | Normal a => k a
  | Throw e => Throw e
  end.

(** [array[i]] read into an arithmetic expression: an index past the end
    reads [undefined], which every arithmetic operator and [Math.abs]
    coerce to NaN. *)
Definition get (l : list number) (i : nat) : number := nth i l nan.

(** [array[i] = v].  Inside the array the slot is replaced; past its end
    JavaScript extends the array, leaving holes, which read [undefined];
    [hole] is what this embedding stores for one. *)
Fixpoint set {A} (hole : A) (l : list A) (i : nat) (v : A) : list A :=
  match l, i with
  | _ :: l', O => v :: l'
  | a :: l', S i' => a :: set hole l' i' v
  | [], O => [v]
  | [], S i' => hole :: set hole [] i' v
  end.

(** An integer as a number, exact below 2^53: [array.length], a loop
    counter. *)
Definition of_Z (z : Z) : number :=
  match z with
  | Z0 => 0
  | Zpos _ => of_uint63 (Uint63.of_Z z)
  | Zneg p => - of_uint63 (Uint63.of_Z (Zpos p))
  end.

Definition of_nat (n : nat) : number := of_Z (Z.of_nat n).

(** The mathematical integer a number holds, if it holds one. *)
Definition integer_value (x : number) : option Z :=
  match Prim2SF x with
  | S754_zero _ => Some 0%Z
  | S754_finite s m e =>
      let v := if (0 <=? e)%Z then Some (Z.shiftl (Zpos m) e)
               else if (Zpos m mod 2 ^ (- e) =? 0)%Z
                    then Some (Z.shiftr (Zpos m) (- e)) else None in
      option_map (fun a => if s then (- a)%Z else a) v
  | _ => None
  end.

(** [Math.ceil]: NaN, the infinities, the zeros and integers are returned
    as they are; a negative fraction above -1 gives -0. *)
Definition Math_ceil (x : number) : number :=
  match Prim2SF x with
  | S754_finite s m e =>
      if (0 <=? e)%Z then x
      else
        let d := (2 ^ (- e))%Z in
        if s then
          let q := (Zpos m / d)%Z in
          if (q =? 0)%Z then (-0) else - of_Z q
        else of_Z (- ((- Zpos m) / d))%Z
  | _ => x
  end.

End Js.

Import Js.

Notation "x <- c ;; k" := (Js.bind c (fun x => k))
  (at level 61, c at next level, right associativity).

(** ** Linear algebra: [matrixInverse] *)

Module LinearAlgebra.

Definition matrix := list (list number).

Definition row (a : matrix) (j : nat) : list number := nth j a [].
Definition set_row (a : matrix) (j : nat) (r : list number) : matrix :=
  Js.set [] a j r.

(** [Array(n).fill(0).map((_, j) => i === j ? 1 : 0)] *)
Definition identity_row (n i : nat) : list number :=
  map (fun j => if Nat.eqb i j then 1 else 0) (seq 0 n).

(** [matrix.map((row, i) => [...row, ...identity_row])] *)
Definition augment (m : matrix) : matrix :=
  let n := length m in
  map (fun ir => snd ir ++ identity_row n (fst ir)) (combine (seq 0 n) m).

(** The inner loop of lines 300-305: the row, from [i] down, whose entry in
    column [i] is largest in magnitude (the first such row on a tie). *)
Definition find_max_row (a : matrix) (n i : nat) : nat :=
  fold_left
    (fun maxRow j =>
       if abs (get (row a maxRow) i) <? abs (get (row a j) i) then j else maxRow)
    (seq (i + 1) (n - (i + 1))) i.

(** Line 307: the two rows change places. *)
Definition swap_rows (a : matrix) (i maxRow : nat) : matrix :=
  let ri := row a i in
  let rm := row a maxRow in
  set_row (set_row a i rm) maxRow ri.

(** Lines 309-312: [pivot] is read once, then the row is divided by it from
    column [i] on, whatever its value. *)
Definition divide_row (r : list number) (n i : nat) (pivot : number) : list number :=
  fold_left (fun r j => Js.set nan r j (get r j / pivot)) (seq i (2 * n - i)) r.

(** Lines 316-319: [factor] is read once, then [factor] times the pivot row
    is subtracted from column [i] on. *)
Definition subtract_row (rj ri : list number) (n i : nat) (factor : number) : list number :=
  fold_left (fun r k => Js.set nan r k (get r k - factor * get ri k)) (seq i (2 * n - i)) rj.

(** Lines 314-321: every other row is reduced against row [i]. *)
Definition eliminate (a : matrix) (n i : nat) : matrix :=
  fold_left
    (fun a j =>
       if Nat.eqb i j then a
       else
         let factor := get (row a j) i in
         set_row a j (subtract_row (row a j) (row a i) n i factor))
    (seq 0 n) a.

(** One pass of the outer loop, lines 299-322. *)
Definition gauss_step (n : nat) (a : matrix) (i : nat) : matrix :=
  let maxRow := find_max_row a n i in
  let a := swap_rows a i maxRow in
  let pivot := get (row a i) i in
  let a := set_row a i (divide_row (row a i) n i pivot) in
  eliminate a n i.

Definition matrixInverse (m : matrix) : completion matrix :=
  let n := length m in
  let augmented := fold_left (gauss_step n) (seq 0 n) (augment m) in
  Normal (map (skipn n) augmented).

End LinearAlgebra.

(** ** The platform functions the sources call but do not define *)

Module Runtime.

(** Line 252 of correlationAnalysis.ts declares [aa] with [const] and line
    259 assigns to it.  Run as ECMAScript 2015 or later, that assignment
    raises TypeError; compiled by tsc for an ES5 target, [const] is emitted
    as [var] and the assignment goes through.  The build is not part of the
    sources, so the embedding takes it as a parameter. *)
Inductive ConstBinding : Set :=
| ConstIsImmutable    (* ECMAScript 2015+: TypeError on assignment *)
| ConstIsVar.         (* downlevelled to [var]: the assignment stores *)

(** [Math.exp] and [Math.log] are implementation-approximated (ECMA-262,
    21.3.2): the standard fixes their values only at NaN, the zeros, the
    infinities and (for [log]) 1.  They are parameters of the embedding.
    So is [Array_sort_inconsistent], the array [Array.prototype.sort] leaves
    when its comparator is not consistent: "the sort order is
    implementation-defined" (ECMA-262, 23.1.3.30). *)
Record t : Type := {
  Math_exp : number -> number;
  Math_log : number -> number;
  const_binding : ConstBinding;
  Array_sort_inconsistent : list number -> list number
}.

(** An assignment [v = e] to a [const] variable, [e] already evaluated. *)
Definition assign_const (rt : t) {A} (e : A) : completion A :=
  match const_binding rt with
  | ConstIsImmutable => Throw TypeError
  | ConstIsVar => Normal e
  end.

(** One concrete run time, to run examples on: argument reduction and a
    truncated series for each function, exact at the values the standard
    fixes; an array that cannot be sorted consistently is left as it
    is. *)
Definition ln2 : number := 0x1.62e42fefa39efp-1.

Definition exp_series (r : number) : number :=
  fold_right (fun k acc => 1 + r / k * acc) 1
    [1; 2; 3; 4; 5; 6; 7; 8; 9; 10; 11; 12; 13; 14; 15; 16].

Definition reference_exp (x : number) : number :=
  if negb (x =? x) then nan
  else if 710 <? x then infinity
  else if x <? -746 then 0
  else
    match integer_value (- Math_ceil (- (x / ln2 + 0.5))) with
    | Some k => Z.ldexp (exp_series (x - Js.of_Z k * ln2)) k
    | None => nan
    end.

Definition log_series (s : number) : number :=
  let s2 := s * s in
  2 * s * fold_right (fun k acc => 1 / k + s2 * acc) 0
            [1; 3; 5; 7; 9; 11; 13; 15; 17; 19; 21; 23; 25].

Definition reference_log (x : number) : number :=
  if negb (x =? x) then nan
  else if x <? 0 then nan
  else if x =? 0 then neg_infinity
  else if x =? infinity then infinity
  else
    let (m, e) := Z.frexp x in
    let (m, e) := if m <? 0x1.6a09e667f3bcdp-1 then (2 * m, (e - 1)%Z) else (m, e) in
    Js.of_Z e * ln2 + log_series ((m - 1) / (m + 1)).

Definition reference (c : ConstBinding) : t :=
  {| Math_exp := reference_exp; Math_log := reference_log; const_binding := c;
     Array_sort_inconsistent := fun values => values |}.

End Runtime.

(** ** [class CorrelationAnalysis] *)

Module CorrelationAnalysis.

Import Runtime.

(** [{ coefficient: number; pValue: number; significant: boolean }] *)
Record CorrelationResult : Set := {
  coefficient : number;
  pValue : number;
  significant : bool
}.

(** *** Helpers without platform calls *)

(** [x.reduce((a, b) => a + b)]: no initial value, so TypeError on an
    empty array. *)
Definition reduce_sum (l : list number) : completion number :=
  match l with
  | [] => Throw TypeError
  | a :: l' => Normal (fold_left PrimFloat.add l' a)
  end.

(** The loop of lines 22-28: [numerator], [xDenominator], [yDenominator]. *)
Definition pearson_sums (x y : list number) (xMean yMean : number)
  : number * number * number :=
  fold_left
    (fun '(numerator, xDenominator, yDenominator) i =>
       let xDiff := get x i - xMean in
       let yDiff := get y i - yMean in
       (numerator + xDiff * yDiff,
        xDenominator + xDiff * xDiff,
        yDenominator + yDiff * yDiff))
    (seq 0 (length x)) (0, 0, 0).

(** Lines 14-30: the coefficient [r], divided out with no test on the
    denominator. *)
Definition pearson_r (x y : list number) : completion number :=
  let n := of_nat (length x) in
  sx <- reduce_sum x ;;
  let xMean := sx / n in
  sy <- reduce_sum y ;;
  let yMean := sy / n in
  let '(numerator, xDenominator, yDenominator) := pearson_sums x y xMean yMean in
  Normal (numerator / sqrt (xDenominator * yDenominator)).

(** Line 31, and line 109 with [n - 3]: [r * Math.sqrt(df / (1 - r * r))]. *)
Definition tStatistic (r df : number) : number :=
  r * sqrt (df / (1 - r * r)).

(** [values.slice().sort((a, b) => a - b)].  With no NaN among the values
    the comparator [a - b] is consistent, and ECMAScript fixes the result:
    the values in ascending order, those that compare equal (0 and -0) in
    their original order ([Array.prototype.sort] is stable).  That is the
    list insertion from the left builds, [ascending]: [v] goes in front of
    the first element it is smaller than ([v - a < 0]).  With a NaN among
    the values every difference with it is NaN, which the sort takes for 0:
    NaN compares equal to all values, the comparator is not consistent as
    soon as two of them differ, and the order is the implementation's,
    [Array_sort_inconsistent]. *)
Fixpoint insert (v : number) (sorted : list number) : list number :=
  match sorted with
  | [] => [v]
  | a :: rest => if v - a <? 0 then v :: sorted else a :: insert v rest
  end.

Definition ascending (values : list number) : list number :=
  fold_left (fun sorted v => insert v sorted) values [].

Definition sort (rt : Runtime.t) (values : list number) : list number :=
  if forallb (fun v => v =? v) values then ascending values
  else Array_sort_inconsistent rt values.

(** [sorted.indexOf(v)]: the first index whose element is [===] to [v],
    or -1. *)
Fixpoint indexOf (sorted : list number) (v : number) : Z :=
  match sorted with
  | [] => (-1)%Z
  | a :: rest =>
      if a =? v then 0%Z
      else let k := indexOf rest v in if (k <? 0)%Z then (-1)%Z else (k + 1)%Z
  end.

(** Lines 162-165.  [rank_positions] are the ranks as integers,
    [calculateRanks] the same as numbers. *)
Definition rank_positions (rt : Runtime.t) (values : list number) : list Z :=
  let sorted := sort rt values in
  map (fun v => (indexOf sorted v + 1)%Z) values.

Definition calculateRanks (rt : Runtime.t) (values : list number) : list number :=
  map of_Z (rank_positions rt values).

(** The two counters of [calculateKendallTau], lines 67-77.  They only
    ever grow by one, so they are integers; as numbers they are exact
    below 2^53, which [n (n - 1) / 2] pairs stay under for every array of
    fewer than 2^26 elements. *)
Definition kendall_pair (x y : list number) (i j : nat) (cd : Z * Z) : Z * Z :=
  let xDiff := get x j - get x i in
  let yDiff := get y j - get y i in
  if 0 <? xDiff * yDiff then (fst cd + 1, snd cd)%Z
  else if xDiff * yDiff <? 0 then (fst cd, snd cd + 1)%Z
  else cd.

Definition kendall_counts (x y : list number) : Z * Z :=
  let n := length x in
  fold_left
    (fun cd i => fold_left (fun cd j => kendall_pair x y i j cd)
                           (seq (i + 1) (n - (i + 1))) cd)
    (seq 0 (n - 1)) (0, 0)%Z.

(** Line 79 in exact arithmetic: the rational whose nearest number the
    source stores in [tau]. *)
Definition tau_exact (x y : list number) : Q :=
  let n := Z.of_nat (length x) in
  let '(concordant, discordant) := kendall_counts x y in
  (inject_Z (concordant - discordant) / (inject_Z (n * (n - 1)) / 2))%Q.

(** Lines 105-106. *)
Definition partial_coefficient (rxy rxz ryz : number) : number :=
  (rxy - rxz * ryz) / sqrt ((1 - rxz * rxz) * (1 - ryz * ryz)).

(** *** The continued fraction and what is built on it *)

Definition maxIterations : nat := 200.
Definition epsilon : number := 1e-8.

(** [if (Math.abs(v) < epsilon) v = epsilon] *)
Definition floor_at_epsilon (v : number) : number :=
  if abs v <? epsilon then epsilon else v.

(** The variables the loop of [betaCF] updates. *)
Record cf_state : Set := { cf_c : number; cf_d : number; cf_h : number }.

Section WithRuntime.

Variable rt : Runtime.t.

(** One pass of the loop body, lines 251-267; the boolean is the test of
    the [break] on line 267. *)
Definition betaCF_iteration (x a b : number) (m : number) (st : cf_state)
  : completion (cf_state * bool) :=
  let qab := a + b in
  let qap := a + 1 in
  let qam := a - 1 in
  let '{| cf_c := c; cf_d := d; cf_h := h |} := st in
  let m2 := 2 * m in
  let aa := m * (b - m) * x / ((qam + m2) * (a + m2)) in
  let d := 1 + aa * d in
  let d := floor_at_epsilon d in
  let c := 1 + aa / c in
  let c := floor_at_epsilon c in
  let d := 1 / d in
  let h := h * (d * c) in
  aa <- assign_const rt (- (a + m) * (qab + m) * x / ((a + m2) * (qap + m2))) ;;
  let d := 1 + aa * d in
  let d := floor_at_epsilon d in
  let c := 1 + aa / c in
  let c := floor_at_epsilon c in
  let d := 1 / d in
  let del := d * c in
  let h := h * del in
  Normal ({| cf_c := c; cf_d := d; cf_h := h |}, abs (del - 1) <? epsilon).

(** [for (let m = 1; m <= maxIterations; m++) { ... }] with [budget]
    passes left.  The loop ends by the [break] or by using up its
    passes; the boolean tells which ([true]: by the [break]). *)
Fixpoint betaCF_loop (x a b : number) (budget m : nat) (st : cf_state)
  : completion (cf_state * bool) :=
  match budget with
  | O => Normal (st, false)
  | S budget' =>
      r <- betaCF_iteration x a b (of_nat m) st ;;
      if snd r then Normal (fst r, true)
      else betaCF_loop x a b budget' (S m) (fst r)
  end.

(** Lines 243-248. *)
Definition betaCF_init (x a b : number) : cf_state :=
  let d := 1 - (a + b) * x / (a + 1) in
  let d := floor_at_epsilon d in
  let d := 1 / d in
  {| cf_c := 1; cf_d := d; cf_h := d |}.

(** Line 270, [return h], whichever way the loop ended. *)
Definition betaCF (x a b : number) : completion number :=
  r <- betaCF_loop x a b maxIterations 1 (betaCF_init x a b) ;;
  Normal (cf_h (fst r)).

Definition gammaLn (x : number) : number :=
  let c := [76.18009172947146; -86.50532032941677; 24.01409824083091;
            -1.231739572450155; 0.1208650973866179e-2; -0.5395239384953e-5] in
  let tmp := x + 5.5 in
  let tmp := tmp - (x + 0.5) * Math_log rt tmp in
  let '(ser, _) :=
    fold_left (fun '(ser, y) cj => let y := y + 1 in (ser + cj / y, y))
              c (1.000000000190015, x) in
  - tmp + Math_log rt (2.5066282746310005 * ser / x).

Definition incompleteBeta (x a b : number) : completion number :=
  if x =? 0 then Normal 0
  else if x =? 1 then Normal 1
  else
    let lnBeta := gammaLn (a + b) - gammaLn a - gammaLn b in
    let bt := Math_exp rt (Math_log rt x * a + Math_log rt (1 - x) * b - lnBeta) in
    if x <? (a + 1) / (a + b + 2) then
      cf <- betaCF x a b ;;
      Normal (bt * cf / a)
    else
      cf <- betaCF (1 - x) b a ;;
      Normal (1 - bt * cf / b).

Definition calculateTDistributionPValue (t df : number) : completion number :=
  let x := df / (df + t * t) in
  ib <- incompleteBeta x (df / 2) 0.5 ;;
  Normal (1 - ib).

Definition calculateFDistributionPValue (F df1 df2 : number) : completion number :=
  let x := df2 / (df2 + df1 * F) in
  incompleteBeta x (df2 / 2) (df1 / 2).

Definition erf (x : number) : number :=
  let t := 1 / (1 + 0.5 * abs x) in
  let tau := t * Math_exp rt (
    - x * x - 1.26551223 +
    1.00002368 * t +
    0.37409196 * t * t +
    0.09678418 * t * t * t -
    0.18628806 * t * t * t * t +
    0.27886807 * t * t * t * t * t -
    1.13520398 * t * t * t * t * t * t +
    1.48851587 * t * t * t * t * t * t * t -
    0.82215223 * t * t * t * t * t * t * t * t +
    0.17087277 * t * t * t * t * t * t * t * t * t) in
  if 0 <=? x then 1 - tau else tau - 1.

Definition normalCDF (x : number) : number :=
  0.5 * (1 + erf (x / sqrt 2)).

(** *** The public methods *)

Definition calculatePearsonCorrelation (x y : list number)
  : completion CorrelationResult :=
  let n := of_nat (length x) in
  r <- pearson_r x y ;;
  let tStat := tStatistic r (n - 2) in
  pValue <- calculateTDistributionPValue tStat (n - 2) ;;
  Normal {| coefficient := r; pValue := pValue; significant := pValue <? 0.05 |}.

Definition calculateSpearmanCorrelation (x y : list number)
  : completion CorrelationResult :=
  let xRanks := calculateRanks rt x in
  let yRanks := calculateRanks rt y in
  calculatePearsonCorrelation xRanks yRanks.

Definition calculateKendallTau (x y : list number) : completion CorrelationResult :=
  let n := of_nat (length x) in
  let '(concordant, discordant) := kendall_counts x y in
  let tau := (of_Z concordant - of_Z discordant) / (n * (n - 1) / 2) in
  let var0 := (4 * n + 10) / (9 * n * (n - 1)) in
  let z := tau / sqrt var0 in
  let pValue := 2 * (1 - normalCDF (abs z)) in
  Normal {| coefficient := tau; pValue := pValue; significant := pValue <? 0.05 |}.

Definition calculatePartialCorrelation (x y z : list number)
  : completion CorrelationResult :=
  cxy <- calculatePearsonCorrelation x y ;;
  cxz <- calculatePearsonCorrelation x z ;;
  cyz <- calculatePearsonCorrelation y z ;;
  let coefficient := partial_coefficient (coefficient cxy) (coefficient cxz) (coefficient cyz) in
  let n := of_nat (length x) in
  let tStat := tStatistic coefficient (n - 3) in
  pValue <- calculateTDistributionPValue tStat (n - 3) ;;
  Normal {| coefficient := coefficient; pValue := pValue; significant := pValue <? 0.05 |}.

End WithRuntime.

End CorrelationAnalysis.

(** ** [class AdvancedAnalysis] *)

Module AdvancedAnalysis.

(** [const out = []; for (let i = 0; i < n; i++) out.push(body(i))] *)
Definition for_push {A} (n : nat) (body : nat -> A) : list A :=
  fold_left (fun out i => out ++ [body i]) (seq 0 n) [].

(** [timeSeries[k]] pushed as it is: [None] is [undefined], what an index
    outside the array (or a negative one) reads. *)
Definition element (timeSeries : list number) (k : Z) : option number :=
  if (k <? 0)%Z then None else nth_error timeSeries (Z.to_nat k).

(** Lines 147-164.  [dimension] and [delay] are integers; a loop whose
    bound is zero or negative does not run. *)
Definition reconstructPhaseSpace (timeSeries : list number) (dimension delay : Z)
  : completion (list (list (option number))) :=
  let N := (Z.of_nat (length timeSeries) - (dimension - 1) * delay)%Z in
  Normal
    (for_push (Z.to_nat N) (fun i =>
       for_push (Z.to_nat dimension) (fun d =>
         element timeSeries (Z.of_nat i + Z.of_nat d * delay)))).

(** [new Array(len)]: RangeError unless [len] is an integer in
    [0, 2^32 - 1]; the slots are holes, stored as NaN (each is written
    before it is read). *)
Definition new_Array (len : Z) : completion (list number) :=
  if ((0 <=? len) && (len <? 2 ^ 32))%Z then Normal (repeat nan (Z.to_nat len))
  else Throw RangeError.

(** Lines 133-141, one pass. *)
Definition rk4_step (f : number -> number -> number) (h : number)
  (ty : list number * list number) (i : nat) : list number * list number :=
  let '(t, y) := ty in
  let k1 := h * f (get t i) (get y i) in
  let k2 := h * f (get t i + h / 2) (get y i + k1 / 2) in
  let k3 := h * f (get t i + h / 2) (get y i + k2 / 2) in
  let k4 := h * f (get t i + h) (get y i + k3) in
  (Js.set nan t (i + 1) (get t i + h),
   Js.set nan y (i + 1) (get y i + (k1 + 2 * k2 + 2 * k3 + k4) / 6)).

(** Lines 119-144.  [n] is NaN, an infinity or an integer; in the first
    two cases [n + 1] is no array length, in the third [n + 1] is exact
    while it can be a length at all, so the length is taken from the
    integer [n] holds. *)
Definition rungeKutta4 (f : number -> number -> number) (y0 t0 tn h : number)
  : completion (list number * list number) :=
  let n := Math_ceil ((tn - t0) / h) in
  match integer_value n with
  | None => Throw RangeError
  | Some N =>
      t <- new_Array (N + 1) ;;
      y <- new_Array (N + 1) ;;
      let t := Js.set nan t 0 t0 in
      let y := Js.set nan y 0 y0 in
      Normal (fold_left (rk4_step f h) (seq 0 (Z.to_nat N)) (t, y))
  end.

End AdvancedAnalysis.

(** ** What the specification asks for, where the code does otherwise *)

Module Specified.

Import CorrelationAnalysis.

(** Average rank for ties, in the words of the specification (4.3, 9):
    sort, then give every value the mean of the rank positions (counted
    from 1) that the values equal to it occupy. *)
Definition occupied_positions (sorted : list number) (v : number) : list Z :=
  map (fun kv => Z.of_nat (fst kv) + 1)%Z
      (filter (fun kv => snd kv =? v) (combine (seq 0 (length sorted)) sorted)).

Definition average_rank (sorted : list number) (v : number) : number :=
  let ps := occupied_positions sorted v in
  of_Z (fold_left Z.add ps 0%Z) / of_nat (length ps).

Definition averageRanks (values : list number) : list number :=
  let sorted := ascending values in
  map (average_rank sorted) values.

End Specified.

(** ** The rest of [class CorrelationAnalysis]: the correlation matrix *)

Module MultipleCorrelation.

Import Runtime LinearAlgebra CorrelationAnalysis.

(** A loop whose body can raise: the first exception ends it. *)
Fixpoint for_each {A B} (body : B -> A -> completion B) (l : list A) (b : B)
  : completion B :=
  match l with
  | [] => Normal b
  | a :: l' => b' <- body b a ;; for_each body l' b'
  end.

(** [Array(n).fill(0).map(() => Array(n).fill(0))] *)
Definition zeros (n : nat) : matrix := map (fun _ => repeat 0 n) (seq 0 n).

(** [matrix[i][j] = v] *)
Definition store (m : matrix) (i j : nat) (v : number) : matrix :=
  Js.set [] m i (Js.set nan (row m i) j v).

(** [list.reduce((acc, v, i) => f(acc, v, i), init)] *)
Definition reduce_indexed (f : number -> number -> nat -> number)
  (l : list number) (init : number) : number :=
  fold_left (fun acc iv => f acc (snd iv) (fst iv))
            (combine (seq 0 (length l)) l) init.

(** The same with a callback that can raise. *)
Definition reduce_indexed_raising (f : number -> number -> nat -> completion number)
  (l : list number) (init : number) : completion number :=
  for_each (fun acc iv => f acc (snd iv) (fst iv))
           (combine (seq 0 (length l)) l) init.

(** [rows[i].method(...)]: a row that is not there is [undefined], and
    calling a method on it raises TypeError. *)
Definition method_receiver (r : option (list number)) : completion (list number) :=
  match r with
  | Some r => Normal r
  | None => Throw TypeError
  end.

Section WithRuntime.

Variable rt : Runtime.t.

(** Lines 281-285: [matrix[i][j] = matrix[j][i] = correlation.coefficient],
    the right-hand assignment first.  Both rows exist: the matrix is
    [zeros n] and [i], [j] are below [n]. *)
Definition correlation_cell (variables : list (list number)) (i : nat)
  (m : matrix) (j : nat) : completion matrix :=
  correlation <- calculatePearsonCorrelation rt (nth i variables []) (nth j variables []) ;;
  let c := coefficient correlation in
  Normal (store (store m j i c) i j c).

(** Lines 273-290. *)
Definition createCorrelationMatrix (variables : list (list number))
  : completion matrix :=
  let n := length variables in
  for_each (fun m i => for_each (correlation_cell variables i) (seq i (n - i)) m)
           (seq 0 n) (zeros n).

(** Lines 120-159.  [Ryy] is read and not used.  [correlationMatrix[0]]
    and [RxxInv[i]] are rows that a method is called on ([slice], [reduce]):
    a missing row would be a TypeError. *)
Definition calculateMultipleCorrelation (dependent : list number)
  (independents : list (list number)) : completion CorrelationResult :=
  let n := of_nat (length dependent) in
  let p := of_nat (length independents) in
  correlationMatrix <- createCorrelationMatrix (dependent :: independents) ;;
  row0 <- method_receiver (nth_error correlationMatrix 0) ;;
  let Ryx := skipn 1 row0 in
  let Rxx := map (skipn 1) (skipn 1 correlationMatrix) in
  RxxInv <- matrixInverse Rxx ;;
  sum <- reduce_indexed_raising
           (fun sum ryx i =>
              rowi <- method_receiver (nth_error RxxInv i) ;;
              Normal (sum + ryx * reduce_indexed
                                    (fun sum2 rxx j => sum2 + rxx * get Ryx j)
                                    rowi 0))
           Ryx 0 ;;
  let R := sqrt sum in
  let F := (R * R / p) / ((1 - R * R) / (n - p - 1)) in
  pValue <- calculateFDistributionPValue rt F p (n - p - 1) ;;
  Normal {| coefficient := R; pValue := pValue; significant := pValue <? 0.05 |}.

End WithRuntime.

End MultipleCorrelation.

(** ** The rest of [class AdvancedAnalysis]: the signal toolkit *)

Module SignalToolkit.

Import Runtime.

(** [knownPoints: { x: number; y: number }[]] *)
Definition point : Set := (number * number)%type.
Definition px (knownPoints : list point) (i : nat) : number :=
  fst (nth i knownPoints (nan, nan)).
Definition py (knownPoints : list point) (i : nat) : number :=
  snd (nth i knownPoints (nan, nan)).

(** Lines 30-37: the i-th basis term, the factor of every other point
    multiplied in, whatever its denominator. *)
Definition lagrange_term (knownPoints : list point) (targetX : number) (i : nat)
  : number :=
  fold_left
    (fun term j =>
       if Nat.eqb i j then term
       else term * ((targetX - px knownPoints j)
                    / (px knownPoints i - px knownPoints j)))
    (seq 0 (length knownPoints)) (py knownPoints i).

(** Lines 23-43. *)
Definition lagrangeInterpolation (knownPoints : list point) (targetX : number)
  : number :=
  fold_left (fun result i => result + lagrange_term knownPoints targetX i)
            (seq 0 (length knownPoints)) 0.

(** [Math.PI] *)
Definition Math_PI : number := 3.141592653589793.

(** [Math.max(...values)]: -Infinity for no argument, NaN as soon as one
    argument is NaN, and +0 above -0. *)
Definition max2 (m a : number) : number :=
  if negb (m =? m) || negb (a =? a) then nan
  else if m <? a then a
  else if a <? m then m
  else if 1 / m <? 0 then a else m.

Definition Math_max (values : list number) : number :=
  fold_left max2 values neg_infinity.

(** Lines 110-116.  A spread call takes as many arguments as the engine
    allows, [max_arguments], and raises RangeError beyond. *)
Definition findDominantFrequencies (max_arguments : nat)
  (frequencies amplitudes : list number) : completion (list number) :=
  if (max_arguments <? length amplitudes)%nat then Throw RangeError
  else
    let threshold := Math_max amplitudes * 0.1 in
    Normal (map snd
              (filter (fun ifr => threshold <? get amplitudes (fst ifr))
                      (combine (seq 0 (length frequencies)) frequencies))).

Section WithRuntime.

Variable rt : Runtime.t.

(** [Math.cos], a parameter like [Math.exp] and [Math.log]. *)
Variable Math_cos : number -> number.

(** Lines 58-64: the two sums of one frequency point. *)
Definition laplace_sums (timeSeries : list number) (si dt : number)
  : number * number :=
  fold_left
    (fun '(real, imag) t =>
       (real + get timeSeries t * Math_exp rt (- si * of_nat t * dt) * dt,
        imag + get timeSeries t * Math_exp rt (- si * of_nat t * dt) * dt))
    (seq 0 (length timeSeries)) (0, 0).

(** Lines 46-70.  [s[i]] and [F[i]] are stored at the end of the arrays,
    which extends them by one. *)
Definition laplaceTransform (timeSeries : list number) (samplingRate : number)
  : list number * list number :=
  let N := length timeSeries in
  let dt := 1 / samplingRate in
  fold_left
    (fun '(s, F) i =>
       let s := Js.set nan s i (of_nat i * (2 * Math_PI / (of_nat N * dt))) in
       let '(real, imag) := laplace_sums timeSeries (get s i) dt in
       (s, Js.set nan F i (sqrt (real * real + imag * imag))))
    (seq 0 N) ([], []).

(** Lines 103-107. *)
Definition morletWavelet (x : number) : number :=
  let sigma := 1 in
  Math_exp rt (- x * x / (2 * sigma * sigma)) * Math_cos (5 * x).

(** Lines 81-94: the coefficients of one scale. *)
Definition wavelet_row (signal : list number) (scale : number) : list number :=
  let N := length signal in
  fold_left
    (fun waveletCoeffs t =>
       let sum :=
         fold_left
           (fun sum tau =>
              sum + get signal tau * morletWavelet ((of_nat tau - of_nat t) / scale))
           (seq 0 N) 0 in
       Js.set nan waveletCoeffs t (sum / sqrt scale))
    (seq 0 N) (repeat 0 N).

(** Lines 73-100. *)
Definition waveletTransform (signal scales : list number) : list (list number) :=
  fold_left (fun coefficients scale => coefficients ++ [wavelet_row signal scale])
            scales [].

End WithRuntime.

End SignalToolkit.

(** ** Notions the statements below are written with *)

Module Notions.

Import LinearAlgebra CorrelationAnalysis.

(** The augmented system of [matrixInverse]: [n] rows of [2 n] entries. *)
Definition shape (n : nat) (a : matrix) : Prop :=
  length a = n /\ Forall (fun r => length r = (2 * n)%nat) a.

(** A call that raises nothing but the run time's TypeError. *)
Definition only_TypeError {A} (c : completion A) : Prop :=
  match c with
  | Normal _ => True
  | Throw e => e = TypeError
  end.

(** A number that is neither NaN nor an infinity. *)
Definition is_finite (v : number) : bool :=
  match Prim2SF v with
  | S754_zero _ | S754_finite _ _ _ => true
  | _ => false
  end.

(** The sign an operation gives its result, when the result is a number. *)
Definition has_sign (s : bool) (f : spec_float) : Prop :=
  match f with
  | S754_zero s' | S754_infinity s' | S754_finite s' _ _ => s' = s
  | S754_nan => False
  end.

(** The pairs [(i, j)], [i < j < n], in the order the two loops of
    [calculateKendallTau] visit them. *)
Definition pairs (n : nat) : list (nat * nat) :=
  flat_map (fun i => map (pair i) (seq (i + 1) (n - (i + 1)))) (seq 0 (n - 1)).

(** [(x[j] - x[i]) * (y[j] - y[i])] *)
Definition pair_product (x y : list number) (ij : nat * nat) : number :=
  (get x (snd ij) - get x (fst ij)) * (get y (snd ij) - get y (fst ij)).

Definition concordant (x y : list number) (ij : nat * nat) : bool :=
  0 <? pair_product x y ij.

Definition discordant (x y : list number) (ij : nat * nat) : bool :=
  pair_product x y ij <? 0.

Definition count {A} (p : A -> bool) (l : list A) : Z :=
  Z.of_nat (length (filter p l)).

End Notions.

(** Notions for the correlation matrix. *)
Module MatrixNotions.

Import LinearAlgebra.

(** An [n] x [n] array of arrays. *)
Definition square (n : nat) (m : matrix) : Prop :=
  length m = n /\ Forall (fun r => length r = n) m.

(** The cells [(i, j)], [i <= j < n], in the order the two loops of
    [createCorrelationMatrix] visit them. *)
Definition upper_cells (n : nat) : list (nat * nat) :=
  flat_map (fun i => map (pair i) (seq i (n - i))) (seq 0 n).

End MatrixNotions.

(** Notions for the sign of a number. *)
Module NumberNotions.

(** The same number, the sign of a zero apart: what [<] and [>] cannot
    tell apart. *)
Definition same_number (X Y : spec_float) : Prop :=
  X = Y \/ exists s s', X = S754_zero s /\ Y = S754_zero s'.

(** The largest mantissa a shifted record can stand for: one more when
    bits have been shifted out. *)
Definition upper (mrs : shr_record) : Z :=
  (shr_m mrs + (if shr_r mrs || shr_s mrs then 1 else 0))%Z.

(** The place of a number in the order of the numbers, as an integer: the
    exponent first, then the mantissa, both zeros at 0 and the infinities
    beyond every finite number.  (NaN has no place; it is given 0.) *)
Definition key (X : spec_float) : Z :=
  match X with
  | S754_zero _ | S754_nan => 0%Z
  | S754_infinity s => if s then (- 2 ^ 64)%Z else (2 ^ 64)%Z
  | S754_finite s m e =>
      let v := ((e + 1075) * 2 ^ 53 + Zpos m)%Z in
      if s then (- v)%Z else v
  end.

Definition number_key (v : number) : Z := key (Prim2SF v).

(** The number an integer [w], 0 < w < 2^53, is stored as: 53 digits of
    mantissa. *)
Definition integer_float (s : bool) (w : Z) : spec_float :=
  S754_finite s (Z.to_pos (w * 2 ^ (53 - Zdigits2 w))) (Zdigits2 w - 53).

Definition signed_integer_float (z : Z) : spec_float :=
  match z with
  | Z0 => S754_zero false
  | Zpos _ => integer_float false z
  | Zneg p => integer_float true (Zpos p)
  end.

End NumberNotions.

(** * Properties *)

Import Runtime LinearAlgebra CorrelationAnalysis AdvancedAnalysis Notions.
Import NumberNotions.

(** ** Arrays *)

Section ArrayFacts.

Context {A : Type} (hole : A).

Lemma set_length (l : list A) (i : nat) (v : A) :
  (i < length l)%nat -> length (Js.set hole l i v) = length l.
Proof.
  revert i; induction l as [|a l IH]; intros [|i] Hi; simpl in *; try lia.
  rewrite IH; lia.
Qed.

Lemma set_nth_same (l : list A) (i : nat) (v d : A) :
  (i < length l)%nat -> nth i (Js.set hole l i v) d = v.
Proof.
  revert i; induction l as [|a l IH]; intros [|i] Hi; simpl in *; try lia; auto.
  apply IH; lia.
Qed.

Lemma set_nth_other (l : list A) (i j : nat) (v d : A) :
  (i < length l)%nat -> j <> i -> nth j (Js.set hole l i v) d = nth j l d.
Proof.
  revert i j; induction l as [|a l IH]; intros [|i] [|j] Hi Hne;
    simpl in *; try lia; auto.
  apply IH; lia.
Qed.

Lemma set_Forall (P : A -> Prop) (l : list A) (i : nat) (v : A) :
  (i < length l)%nat -> P v -> Forall P l -> Forall P (Js.set hole l i v).
Proof.
  revert i; induction l as [|a l IH]; intros [|i] Hi Hv Hl; simpl in *; try lia;
    inversion Hl; subst; constructor; auto.
  apply IH; auto; lia.
Qed.

Lemma Forall_nth_in (P : A -> Prop) (l : list A) (i : nat) (d : A) :
  Forall P l -> (i < length l)%nat -> P (nth i l d).
Proof.
  intros Hl Hi. rewrite Forall_forall in Hl. apply Hl, nth_In, Hi.
Qed.

(** A loop that only stores inside the array leaves its length alone. *)
Lemma fold_set_length (g : list A -> nat -> A) (js : list nat) (l : list A) :
  Forall (fun j => (j < length l)%nat) js ->
  length (fold_left (fun r j => Js.set hole r j (g r j)) js l) = length l.
Proof.
  revert l; induction js as [|j js IH]; intros l Hjs; simpl; auto.
  inversion Hjs; subst.
  rewrite IH; rewrite set_length; auto.
Qed.

End ArrayFacts.

Lemma seq_bound (a len : nat) :
  Forall (fun j => (j < a + len)%nat) (seq a len).
Proof.
  apply Forall_forall; intros j Hj; apply in_seq in Hj; lia.
Qed.

(** ** Numbers: what the comparisons of the code rest on *)

Module NumberFacts.

Lemma SFeqb_finite_inv s1 m1 e1 s2 m2 e2 :
  SFeqb (S754_finite s1 m1 e1) (S754_finite s2 m2 e2) = true ->
  s1 = s2 /\ m1 = m2 /\ e1 = e2.
Proof.
  unfold SFeqb, SFcompare.
  destruct s1, s2; try discriminate;
    destruct (Z.compare_spec e1 e2) as [He|He|He]; try discriminate;
    fold (Pos.compare m1 m2);
    destruct (Pos.compare_spec m1 m2) as [Hm|Hm|Hm]; try discriminate;
    intros _; subst; auto.
Qed.

Lemma SF64sub_diag s m e :
  SF64sub (S754_finite s m e) (S754_finite s m e) = S754_zero false.
Proof.
  unfold SF64sub, SFsub. cbv zeta. rewrite Z.sub_diag. reflexivity.
Qed.


(** A product cannot be both above and below zero. *)
Lemma ltb_zero_antisym (p : number) : (0 <? p) = true -> (p <? 0) = false.
Proof.
  rewrite !ltb_spec. change (Prim2SF 0) with (S754_zero false).
  destruct (Prim2SF p) as [s|s| |s m e]; try destruct s;
    unfold SFltb, SFcompare; simpl; congruence.
Qed.

(** [===] on numbers: what is equal to [v] is equal to all that [v] is
    equal to. *)
Lemma eqb_congr (a v w : number) : (v =? w) = true -> (a =? v) = (a =? w).
Proof.
  rewrite !eqb_spec.
  destruct (Prim2SF v) as [sv| sv | |sv mv ev], (Prim2SF w) as [sw|sw| |sw mw ew];
    intros H;
    try solve [ discriminate H | destruct sv; discriminate H
              | destruct sw; discriminate H ].
  - destruct (Prim2SF a) as [s|s| |s m e]; reflexivity.
  - destruct sv, sw; try discriminate H; reflexivity.
  - apply SFeqb_finite_inv in H as (-> & -> & ->). reflexivity.
Qed.

(** A positive number over zero is +Infinity: no exception, no NaN. *)
Lemma div_positive_by_zero (df : number) : (0 <? df) = true -> df / 0 = infinity.
Proof.
  intros H. apply Prim2SF_inj. rewrite div_spec. rewrite ltb_spec in H.
  change (Prim2SF 0) with (S754_zero false) in *.
  change (Prim2SF infinity) with (S754_infinity false).
  destruct (Prim2SF df) as [s|s| |s m e]; try destruct s;
    try discriminate H; reflexivity.
Qed.

Lemma div_finite_by_infinity (df : number) :
  (0 <? df) = true -> (df <? infinity) = true -> df / (df + infinity) = 0.
Proof.
  intros H0 Hf. apply Prim2SF_inj. rewrite div_spec, add_spec.
  rewrite ltb_spec in H0, Hf.
  change (Prim2SF 0) with (S754_zero false) in *.
  change (Prim2SF infinity) with (S754_infinity false) in *.
  destruct (Prim2SF df) as [s|s| |s m e]; try destruct s;
    try discriminate H0; try discriminate Hf; reflexivity.
Qed.

(** Rounding keeps the sign it is given and never makes a NaN. *)
Lemma iter_pos_invariant {A} (P : A -> Prop) (f : A -> A) :
  (forall a, P a -> P (f a)) -> forall n a, P a -> P (iter_pos f n a).
Proof.
  intros Hf. induction n as [n IH|n IH|]; intros a Ha; simpl; auto.
Qed.

Lemma shr_1_nonneg mrs : (0 <= shr_m mrs)%Z -> (0 <= shr_m (shr_1 mrs))%Z.
Proof.
  destruct mrs as [m r s]; simpl.
  destruct m as [|[p|p|]|[p|p|]]; simpl; lia.
Qed.

Lemma shr_fexp_nonneg m e l :
  (0 <= m)%Z -> (0 <= shr_m (fst (shr_fexp prec emax m e l)))%Z.
Proof.
  intros Hm. unfold shr_fexp, shr.
  assert (H0 : (0 <= shr_m (shr_record_of_loc m l))%Z)
    by (destruct l as [|[]]; simpl; exact Hm).
  destruct (_ - e)%Z; simpl; auto.
  apply (iter_pos_invariant (fun r => (0 <= shr_m r)%Z)); auto using shr_1_nonneg.
Qed.

Lemma round_nearest_even_nonneg m l :
  (0 <= m)%Z -> (0 <= round_nearest_even m l)%Z.
Proof.
  intros Hm. destruct l as [|[]]; simpl; try lia. destruct (Z.even m); lia.
Qed.

Lemma binary_round_aux_sign sx mx ex lx :
  (0 <= mx)%Z -> has_sign sx (binary_round_aux prec emax sx mx ex lx).
Proof.
  intros Hm. unfold binary_round_aux.
  pose proof (shr_fexp_nonneg mx ex lx Hm) as H1.
  destruct (shr_fexp prec emax mx ex lx) as [mrs' e']. simpl in H1.
  pose proof (shr_fexp_nonneg _ e' loc_Exact
                (round_nearest_even_nonneg _ (loc_of_shr_record mrs') H1)) as H2.
  destruct (shr_fexp prec emax _ e' loc_Exact) as [mrs'' e'']. simpl in H2.
  destruct (shr_m mrs'') as [|p|p]; [reflexivity| |exfalso; lia].
  destruct (Z.leb _ _); reflexivity.
Qed.

Lemma binary_normalize_not_nan m e :
  binary_normalize prec emax m e false <> S754_nan.
Proof.
  destruct m as [|p|p]; simpl; try discriminate; unfold binary_round;
    destruct (shl_align _ _ _) as [mz ez].
  - pose proof (binary_round_aux_sign false (Zpos mz) ez loc_Exact ltac:(lia)) as H.
    intros E; rewrite E in H; exact H.
  - pose proof (binary_round_aux_sign true (Zpos mz) ez loc_Exact ltac:(lia)) as H.
    intros E; rewrite E in H; exact H.
Qed.

Lemma SFsub_lt_not_nan A B :
  SFltb A B = true -> SF64sub B A <> S754_nan.
Proof.
  unfold SFltb, SF64sub, SFsub.
  destruct A as [sa|sa| |sa ma ea], B as [sb|sb| |sb mb eb]; simpl;
    try discriminate; try (destruct sa, sb; simpl; discriminate).
  intros _. apply binary_normalize_not_nan.
Qed.

Lemma SFmul_self_sign D : D <> S754_nan -> has_sign false (SF64mul D D).
Proof.
  intros HD. unfold SF64mul, SFmul. destruct D as [s|s| |s m e]; simpl;
    try (destruct s; reflexivity); try congruence.
  replace (xorb s s) with false by (destruct s; reflexivity).
  apply binary_round_aux_sign. lia.
Qed.

(** For [a < b] the difference [b - a] is a number, and its product with
    itself is positive unless it is a zero, which is to say unless it
    underflows. *)
Lemma increasing_square_positive (a b : number) :
  (a <? b) = true -> ((b - a) * (b - a) =? 0) = false ->
  (0 <? (b - a) * (b - a)) = true.
Proof.
  rewrite eqb_spec, !ltb_spec, !mul_spec, !sub_spec.
  change (Prim2SF 0) with (S754_zero false).
  intros Hlt Hnz.
  pose proof (SFmul_self_sign _ (SFsub_lt_not_nan _ _ Hlt)) as Hs.
  destruct (SF64mul _ _) as [s|s| |s m e]; simpl in Hs; subst; try contradiction;
    try reflexivity; discriminate.
Qed.

End NumberFacts.

(** ** Numbers: rounding, digit by digit *)

Module RoundingFacts.

#[local] Open Scope Z_scope.

Lemma digits2_pos_bounds (p : positive) :
  2 ^ (Zpos (digits2_pos p) - 1) <= Zpos p < 2 ^ Zpos (digits2_pos p).
Proof.
  induction p as [p IH|p IH|]; cbn [digits2_pos]; rewrite ?Pos2Z.inj_succ.
  - replace (Z.succ (Zpos (digits2_pos p)) - 1) with (Z.succ (Zpos (digits2_pos p) - 1)) by lia.
    rewrite !Z.pow_succ_r by lia. lia.
  - replace (Z.succ (Zpos (digits2_pos p)) - 1) with (Z.succ (Zpos (digits2_pos p) - 1)) by lia.
    rewrite !Z.pow_succ_r by lia. lia.
  - simpl. lia.
Qed.

Lemma Zdigits2_bounds (m : Z) :
  0 < m -> 2 ^ (Zdigits2 m - 1) <= m < 2 ^ Zdigits2 m.
Proof.
  destruct m as [|p|p]; try lia. intros _. apply digits2_pos_bounds.
Qed.

Lemma Zdigits2_pos (m : Z) : 0 < m -> 0 < Zdigits2 m.
Proof. destruct m; simpl; lia. Qed.

Lemma Zdigits2_unique (m d : Z) :
  0 < m -> 2 ^ (d - 1) <= m < 2 ^ d -> Zdigits2 m = d.
Proof.
  intros Hm [Hl Hu]. pose proof (Zdigits2_bounds m Hm) as [Hl' Hu'].
  pose proof (Zdigits2_pos m Hm) as Hd.
  assert (0 < d).
  { destruct (Z.lt_ge_cases 0 d) as [|Hd0]; auto. exfalso.
    destruct (Z.eq_dec d 0) as [->|]; [simpl in Hu; lia|].
    rewrite Z.pow_neg_r in Hu by lia. lia. }
  destruct (Z.lt_trichotomy (Zdigits2 m) d) as [Hlt|[Heq|Hgt]]; auto.
  - assert (2 ^ Zdigits2 m <= 2 ^ (d - 1)) by (apply Z.pow_le_mono_r; lia). lia.
  - assert (2 ^ d <= 2 ^ (Zdigits2 m - 1)) by (apply Z.pow_le_mono_r; lia). lia.
Qed.

Lemma Zdigits2_le (m j : Z) : 0 <= j -> 0 <= m < 2 ^ j -> Zdigits2 m <= j.
Proof.
  intros Hj [H0 Hm]. destruct (Z.eq_dec m 0) as [->|Hne]; [simpl; lia|].
  pose proof (Zdigits2_bounds m ltac:(lia)) as [Hl _].
  destruct (Z.le_gt_cases (Zdigits2 m) j); auto.
  assert (2 ^ j <= 2 ^ (Zdigits2 m - 1)) by (apply Z.pow_le_mono_r; lia). lia.
Qed.

Lemma Zdigits2_shift (m j : Z) :
  0 < m -> 0 <= j -> Zdigits2 (m * 2 ^ j) = Zdigits2 m + j.
Proof.
  intros Hm Hj. pose proof (Zdigits2_bounds m Hm) as [Hl Hu].
  pose proof (Zdigits2_pos m Hm).
  apply Zdigits2_unique; [nia|].
  replace (Zdigits2 m + j - 1) with ((Zdigits2 m - 1) + j) by lia.
  rewrite !Z.pow_add_r by lia. nia.
Qed.

Lemma Zdigits2_mono (a b : Z) : 0 < a <= b -> Zdigits2 a <= Zdigits2 b.
Proof.
  intros [Ha Hab]. pose proof (Zdigits2_bounds a Ha) as [Hl _].
  pose proof (Zdigits2_bounds b ltac:(lia)) as [_ Hu].
  destruct (Z.le_gt_cases (Zdigits2 a) (Zdigits2 b)); auto.
  assert (2 ^ Zdigits2 b <= 2 ^ (Zdigits2 a - 1)) by (apply Z.pow_le_mono_r; lia). lia.
Qed.

(** [iter_pos] is iteration. *)
Lemma iter_pos_nat {A} (f : A -> A) (p : positive) (x : A) :
  iter_pos f p x = Nat.iter (Pos.to_nat p) f x.
Proof.
  revert x; induction p as [p IH|p IH|]; intros x; cbn [iter_pos].
  - rewrite !IH.
    replace (Pos.to_nat p~1) with (Pos.to_nat p + Pos.to_nat p + 1)%nat by lia.
    rewrite !Nat.iter_add. reflexivity.
  - rewrite !IH.
    replace (Pos.to_nat p~0) with (Pos.to_nat p + Pos.to_nat p)%nat by lia.
    rewrite !Nat.iter_add. reflexivity.
  - reflexivity.
Qed.

Lemma shr_nat (mrs : shr_record) (e n : Z) :
  shr mrs e n = if 0 <? n then (Nat.iter (Z.to_nat n) shr_1 mrs, e + n) else (mrs, e).
Proof.
  unfold shr. destruct n as [|p|p]; try reflexivity.
  rewrite iter_pos_nat. reflexivity.
Qed.

(** [shr_1] halves the mantissa. *)
Lemma shr_1_div2 (mrs : shr_record) :
  0 <= shr_m mrs -> shr_m (shr_1 mrs) = shr_m mrs / 2.
Proof.
  destruct mrs as [m r s]. cbn [shr_m shr_1].
  destruct m as [|[p|p|]|p]; intros H; try lia; cbn [shr_m].
  - reflexivity.
  - apply Z.div_unique with 1; lia.
  - apply Z.div_unique with 0; lia.
  - reflexivity.
Qed.

Lemma shr_iter_div (n : nat) (mrs : shr_record) :
  0 <= shr_m mrs ->
  0 <= shr_m (Nat.iter n shr_1 mrs)
  /\ shr_m (Nat.iter n shr_1 mrs) = shr_m mrs / 2 ^ Z.of_nat n.
Proof.
  intros H. induction n as [|n [IH0 IH]].
  - simpl. rewrite Z.div_1_r. auto.
  - rewrite Nat.iter_succ, shr_1_div2 by exact IH0. rewrite IH.
    rewrite Nat2Z.inj_succ, Z.pow_succ_r by lia.
    rewrite Z.div_div by lia. rewrite (Z.mul_comm 2). split; [|reflexivity].
    apply Z.div_pos; [exact H|]. apply Z.mul_pos_pos; [|lia]. apply Z.pow_pos_nonneg; lia.
Qed.

(** Shifting out zeros loses nothing. *)
Lemma shr_iter_exact (n : nat) (m : Z) :
  0 <= m ->
  Nat.iter n shr_1 {| shr_m := m * 2 ^ Z.of_nat n; shr_r := false; shr_s := false |}
  = {| shr_m := m; shr_r := false; shr_s := false |}.
Proof.
  intros Hm. induction n as [|n IH].
  - simpl. now rewrite Z.mul_1_r.
  - rewrite Nat.iter_succ_r. rewrite <- IH. f_equal.
    rewrite Nat2Z.inj_succ, Z.pow_succ_r by lia.
    replace (m * (2 * 2 ^ Z.of_nat n)) with (2 * (m * 2 ^ Z.of_nat n)) by lia.
    assert (0 <= m * 2 ^ Z.of_nat n) by (apply Z.mul_nonneg_nonneg; [lia|apply Z.pow_nonneg; lia]).
    destruct (m * 2 ^ Z.of_nat n) as [|p|p]; try lia; reflexivity.
Qed.


(** *** An upper bound carried through the rounding *)

Lemma shr_1_upper (t k e : Z) (mrs : shr_record) :
  0 <= t -> e + 1 <= k -> 0 <= shr_m mrs -> upper mrs <= t * 2 ^ (k - e) ->
  0 <= shr_m (shr_1 mrs) /\ upper (shr_1 mrs) <= t * 2 ^ (k - (e + 1)).
Proof.
  intros Ht Hk Hm Hu.
  replace (k - e) with (Z.succ (k - (e + 1))) in Hu by lia.
  rewrite Z.pow_succ_r in Hu by lia.
  assert (0 <= 2 ^ (k - (e + 1))) by (apply Z.pow_nonneg; lia).
  set (G := t * 2 ^ (k - (e + 1))) in *.
  assert (HG : upper mrs <= 2 * G) by (unfold G; lia). clear Hu.
  destruct mrs as [m r s]. unfold upper in *. cbn [shr_m shr_r shr_s shr_1] in *.
  destruct m as [|[p|p|]|p]; try lia; destruct r, s; cbn [shr_m shr_r shr_s orb] in *; lia.
Qed.

Lemma shr_iter_upper (t k : Z) (n : nat) :
  forall (e : Z) (mrs : shr_record),
    0 <= t -> e + Z.of_nat n <= k -> 0 <= shr_m mrs -> upper mrs <= t * 2 ^ (k - e) ->
    0 <= shr_m (Nat.iter n shr_1 mrs)
    /\ upper (Nat.iter n shr_1 mrs) <= t * 2 ^ (k - (e + Z.of_nat n)).
Proof.
  induction n as [|n IH]; intros e mrs Ht Hk Hm Hu.
  - simpl. rewrite Z.add_0_r. auto.
  - rewrite Nat.iter_succ.
    destruct (IH e mrs Ht ltac:(lia) Hm Hu) as [H0 H1].
    replace (e + Z.of_nat (S n)) with (e + Z.of_nat n + 1) by lia.
    apply shr_1_upper; auto; lia.
Qed.

Lemma shr_record_of_loc_m (m : Z) (l : location) : shr_m (shr_record_of_loc m l) = m.
Proof. destruct l as [|[]]; reflexivity. Qed.

Lemma shr_fexp_upper (t k m e : Z) (l : location) :
  0 <= t < 2 ^ prec -> emin <= k -> e <= k -> 0 <= m ->
  upper (shr_record_of_loc m l) <= t * 2 ^ (k - e) ->
  0 <= shr_m (fst (shr_fexp prec emax m e l))
  /\ upper (fst (shr_fexp prec emax m e l))
     <= t * 2 ^ (k - snd (shr_fexp prec emax m e l))
  /\ snd (shr_fexp prec emax m e l) <= k.
Proof.
  intros Ht Hk He Hm Hu. unfold shr_fexp. rewrite shr_nat.
  destruct (0 <? fexp prec emax (Zdigits2 m + e) - e) eqn:En; cbn [fst snd].
  - apply Z.ltb_lt in En.
    assert (Hn : e + (fexp prec emax (Zdigits2 m + e) - e) <= k).
    { assert (Hd : Zdigits2 m <= prec + (k - e)).
      { apply Zdigits2_le; [unfold prec; lia|]. split; [exact Hm|].
        assert (m <= upper (shr_record_of_loc m l))
          by (unfold upper; rewrite shr_record_of_loc_m;
              destruct (_ || _); lia).
        rewrite Z.pow_add_r by (unfold prec; lia).
        assert (0 < 2 ^ (k - e)) by (apply Z.pow_pos_nonneg; lia). nia. }
      unfold fexp. lia. }
    destruct (shr_iter_upper t k (Z.to_nat (fexp prec emax (Zdigits2 m + e) - e))
                e (shr_record_of_loc m l)) as [H0 H1];
      rewrite ?Z2Nat.id by lia; try lia.
    + now rewrite shr_record_of_loc_m.
    + rewrite Z2Nat.id in H1 by lia. auto.
  - rewrite shr_record_of_loc_m. auto.
Qed.

Lemma round_nearest_even_upper (mrs : shr_record) :
  0 <= shr_m mrs ->
  shr_m mrs <= round_nearest_even (shr_m mrs) (loc_of_shr_record mrs) <= upper mrs.
Proof.
  destruct mrs as [m r s]. unfold upper. cbn [shr_m shr_r shr_s].
  destruct r, s; cbn [loc_of_shr_record round_nearest_even orb]; try lia.
  destruct (Z.even m); lia.
Qed.

(** What is rounded is at most [t 2^k], a number of the format: so is the
    result. *)
Lemma binary_round_aux_upper (s : bool) (mx ex : Z) (lx : location) (t k : Z) :
  0 <= t < 2 ^ prec -> emin <= k <= emax - prec -> ex <= k -> 0 <= mx ->
  upper (shr_record_of_loc mx lx) <= t * 2 ^ (k - ex) ->
  binary_round_aux prec emax s mx ex lx = S754_zero s
  \/ exists m e, binary_round_aux prec emax s mx ex lx = S754_finite s m e
                 /\ e <= k /\ Zpos m <= t * 2 ^ (k - e).
Proof.
  intros Ht Hk He Hm Hu. unfold binary_round_aux.
  destruct (shr_fexp_upper t k mx ex lx Ht (proj1 Hk) He Hm Hu) as (H0 & H1 & H2).
  destruct (shr_fexp prec emax mx ex lx) as [mrs' e']. cbn [fst snd] in *.
  pose proof (round_nearest_even_upper mrs' H0) as [Hr0 Hr1].
  destruct (shr_fexp_upper t k
              (round_nearest_even (shr_m mrs') (loc_of_shr_record mrs')) e' loc_Exact
              Ht (proj1 Hk) H2 ltac:(lia)) as (H3 & H4 & H5).
  { unfold upper. cbn [shr_record_of_loc shr_m shr_r shr_s orb]. lia. }
  destruct (shr_fexp prec emax _ e' loc_Exact) as [mrs'' e'']. cbn [fst snd] in *.
  assert (Hm3 : shr_m mrs'' <= upper mrs'')
    by (unfold upper; destruct (_ || _); lia).
  destruct (shr_m mrs'') as [|p|p]; [left; reflexivity| |lia].
  right. exists p, e''.
  destruct (Z.leb_spec e'' (emax - prec)); [|lia].
  split; [reflexivity|]. split; [exact H5|lia].
Qed.

(** *** Rounding a number of the format *)

Lemma binary_round_aux_canonical (s : bool) (m : positive) (e : Z) :
  fexp prec emax (Zdigits2 (Zpos m) + e) = e -> e <= emax - prec ->
  binary_round_aux prec emax s (Zpos m) e loc_Exact = S754_finite s m e.
Proof.
  intros Hc He. unfold binary_round_aux, shr_fexp. rewrite Hc, Z.sub_diag.
  cbn [shr shr_record_of_loc shr_m loc_of_shr_record round_nearest_even].
  rewrite Hc, Z.sub_diag. cbn [shr shr_m].
  destruct (Z.leb_spec e (emax - prec)); [reflexivity|lia].
Qed.

Lemma binary_round_aux_exact_shift (s : bool) (m : positive) (e j : Z) :
  fexp prec emax (Zdigits2 (Zpos m) + e) = e -> e <= emax - prec -> 0 <= j ->
  binary_round_aux prec emax s (Zpos m * 2 ^ j) (e - j) loc_Exact = S754_finite s m e.
Proof.
  intros Hc He Hj.
  destruct (Z.eq_dec j 0) as [->|Hj0].
  - rewrite Z.mul_1_r, Z.sub_0_r. now apply binary_round_aux_canonical.
  - unfold binary_round_aux, shr_fexp.
    rewrite Zdigits2_shift by lia.
    replace (Zdigits2 (Zpos m) + j + (e - j)) with (Zdigits2 (Zpos m) + e) by lia.
    rewrite Hc. replace (e - (e - j)) with j by lia.
    rewrite shr_nat. destruct (Z.ltb_spec 0 j); [|lia].
    cbn [shr_record_of_loc].
    pose proof (shr_iter_exact (Z.to_nat j) (Zpos m) ltac:(lia)) as Hx.
    rewrite Z2Nat.id in Hx by lia. rewrite Hx.
    cbn [shr_m loc_of_shr_record round_nearest_even].
    replace (e - j + j) with e by lia. rewrite Hc, Z.sub_diag. cbn [shr shr_m].
    destruct (Z.leb_spec e (emax - prec)); [reflexivity|lia].
Qed.

(** *** Rounding never loses a number that is not zero *)

Lemma shr_fexp_positive (m e : Z) (l : location) :
  0 < m -> emin <= e ->
  0 < shr_m (fst (shr_fexp prec emax m e l))
  /\ emin <= snd (shr_fexp prec emax m e l).
Proof.
  intros Hm He. unfold shr_fexp. rewrite shr_nat.
  destruct (0 <? fexp prec emax (Zdigits2 m + e) - e) eqn:En; cbn [fst snd].
  - apply Z.ltb_lt in En.
    set (n := fexp prec emax (Zdigits2 m + e) - e) in *.
    destruct (shr_iter_div (Z.to_nat n) (shr_record_of_loc m l)) as [_ ->];
      rewrite shr_record_of_loc_m; [lia|].
    rewrite Z2Nat.id by lia.
    pose proof (Zdigits2_bounds m Hm) as [Hl _].
    pose proof (Zdigits2_pos m Hm).
    assert (Hn : n <= Zdigits2 m - 1) by (unfold n, fexp, prec in *; lia).
    assert (2 ^ n <= 2 ^ (Zdigits2 m - 1)) by (apply Z.pow_le_mono_r; lia).
    assert (0 < 2 ^ n) by (apply Z.pow_pos_nonneg; lia).
    split; [apply Z.div_str_pos; lia|]. unfold n, fexp. lia.
  - rewrite shr_record_of_loc_m. auto.
Qed.

Lemma binary_round_aux_positive (s : bool) (mx ex : Z) (lx : location) :
  0 < mx -> emin <= ex ->
  binary_round_aux prec emax s mx ex lx = S754_infinity s
  \/ exists m e, binary_round_aux prec emax s mx ex lx = S754_finite s m e.
Proof.
  intros Hm He. unfold binary_round_aux.
  destruct (shr_fexp_positive mx ex lx Hm He) as [H0 H1].
  destruct (shr_fexp prec emax mx ex lx) as [mrs' e']. cbn [fst snd] in *.
  pose proof (round_nearest_even_upper mrs' ltac:(lia)) as [Hr0 _].
  destruct (shr_fexp_positive
              (round_nearest_even (shr_m mrs') (loc_of_shr_record mrs')) e' loc_Exact
              ltac:(lia) H1) as [H2 H3].
  destruct (shr_fexp prec emax _ e' loc_Exact) as [mrs'' e'']. cbn [fst snd] in *.
  destruct (shr_m mrs'') as [|p|p]; try lia.
  destruct (_ <=? _); [right; eexists _, _; reflexivity|left; reflexivity].
Qed.

Lemma iter_xO (m d : positive) : Zpos (Pos.iter xO m d) = Zpos m * 2 ^ Zpos d.
Proof.
  revert m. induction d as [|d IH] using Pos.peano_ind; intros m.
  - simpl. lia.
  - rewrite Pos.iter_succ, Pos2Z.inj_xO, IH, Pos2Z.inj_succ, Z.pow_succ_r by lia. lia.
Qed.

(** [shl_align] leaves the number as it is, with the smaller exponent. *)
Lemma shl_align_spec (m : positive) (e e' : Z) :
  Zpos (fst (shl_align m e e')) = Zpos m * 2 ^ (e - snd (shl_align m e e'))
  /\ snd (shl_align m e e') = Z.min e e'.
Proof.
  unfold shl_align. destruct (e' - e) as [|p|p] eqn:E; cbn [fst snd].
  - replace (e - e) with 0 by lia. simpl. lia.
  - replace (e - e) with 0 by lia. simpl. lia.
  - rewrite iter_xO. split; [f_equal; f_equal; lia|lia].
Qed.

Lemma binary_round_positive (s : bool) (m : positive) (e : Z) :
  emin <= e ->
  binary_round prec emax s m e = S754_infinity s
  \/ exists m' e', binary_round prec emax s m e = S754_finite s m' e'.
Proof.
  intros He. unfold binary_round.
  pose proof (shl_align_spec m e (fexp prec emax (Zpos (digits2_pos m) + e))) as [_ H].
  destruct (shl_align m e _) as [mz ez]. cbn [snd] in H.
  apply binary_round_aux_positive; [lia|]. unfold fexp in H. lia.
Qed.

End RoundingFacts.

(** ** Numbers: their order *)

Module OrderFacts.

Import RoundingFacts.

Ltac same_compare :=
  match goal with
  | |- (?x ?= ?y)%Z = (?u ?= ?w)%Z =>
      destruct (Z.compare_spec x y), (Z.compare_spec u w);
      try reflexivity; exfalso; lia
  end.

#[local] Open Scope Z_scope.

Lemma valid_finite (s : bool) (m : positive) (e : Z) :
  valid_binary (S754_finite s m e) = true ->
  fexp prec emax (Zdigits2 (Zpos m) + e) = e /\ emin <= e <= emax - prec
  /\ Zpos m < 2 ^ 53 /\ (emin < e -> 2 ^ 52 <= Zpos m).
Proof.
  unfold valid_binary, bounded, canonical_mantissa. intros H.
  apply andb_true_iff in H as [Hc He]. apply Z.eqb_eq in Hc. apply Z.leb_le in He.
  cbn [Zdigits2]. split; [exact Hc|].
  pose proof (digits2_pos_bounds m) as [Hl Hu].
  assert (Hd : Zpos (digits2_pos m) <= 53) by (unfold fexp, prec in Hc; lia).
  assert (Hm : Zpos m < 2 ^ 53).
  { assert (2 ^ Zpos (digits2_pos m) <= 2 ^ 53) by (apply Z.pow_le_mono_r; lia). lia. }
  split; [unfold fexp in Hc; lia|]. split; [exact Hm|].
  intros Hn. assert (Zpos (digits2_pos m) = 53) by (unfold fexp, prec, SpecFloat.emin in *; lia).
  replace 52 with (Zpos (digits2_pos m) - 1) by lia. exact Hl.
Qed.

Lemma key_finite_bounds (s : bool) (m : positive) (e : Z) :
  valid_binary (S754_finite s m e) = true ->
  0 < (e + 1075) * 2 ^ 53 + Zpos m < 2 ^ 64.
Proof.
  intros H. destruct (valid_finite s m e H) as (_ & He & Hm & _).
  unfold SpecFloat.emin, emax, prec in He.
  change (2 ^ 53) with 9007199254740992 in *.
  change (2 ^ 64) with 18446744073709551616. lia.
Qed.

(** The comparison of two numbers is the comparison of their keys. *)
Lemma key_compare (A B : spec_float) :
  valid_binary A = true -> valid_binary B = true ->
  A <> S754_nan -> B <> S754_nan ->
  SFcompare A B = Some (key A ?= key B).
Proof.
  intros HA HB HnA HnB.
  destruct A as [sa|sa| |sa ma ea], B as [sb|sb| |sb mb eb]; try congruence;
    try (pose proof (key_finite_bounds _ _ _ HA) as Ka);
    try (pose proof (key_finite_bounds _ _ _ HB) as Kb);
    cbn [SFcompare key]; cbv zeta;
    change (2 ^ 64) with 18446744073709551616 in *;
    try (destruct sa); try (destruct sb); f_equal; symmetry;
    try (apply Z.compare_lt_iff; lia); try (apply Z.compare_gt_iff; lia);
    try reflexivity.
  - destruct (valid_finite _ _ _ HA) as (_ & _ & Hma & _).
    destruct (valid_finite _ _ _ HB) as (_ & _ & Hmb & _).
    change (2 ^ 53) with 9007199254740992 in *.
    destruct (Z.compare_spec ea eb) as [->|Hlt|Hgt].
    + fold (Pos.compare ma mb). rewrite Pos.compare_antisym.
      destruct (Pos.compare_spec mb ma) as [->|H|H]; cbn [CompOpp].
      * apply Z.compare_eq_iff; lia.
      * apply Z.compare_lt_iff; lia.
      * apply Z.compare_gt_iff; lia.
    + apply Z.compare_gt_iff; lia.
    + apply Z.compare_lt_iff; lia.
  - destruct (valid_finite _ _ _ HA) as (_ & _ & Hma & _).
    destruct (valid_finite _ _ _ HB) as (_ & _ & Hmb & _).
    change (2 ^ 53) with 9007199254740992 in *.
    destruct (Z.compare_spec ea eb) as [->|Hlt|Hgt].
    + fold (Pos.compare ma mb).
      destruct (Pos.compare_spec ma mb) as [->|H|H].
      * apply Z.compare_eq_iff; lia.
      * apply Z.compare_lt_iff; lia.
      * apply Z.compare_gt_iff; lia.
    + apply Z.compare_lt_iff; lia.
    + apply Z.compare_gt_iff; lia.
Qed.


Lemma not_nan_spec (v : number) : (v =? v)%float = true -> Prim2SF v <> S754_nan.
Proof.
  rewrite eqb_spec. intros H E. rewrite E in H. discriminate H.
Qed.

Lemma ltb_key (v a : number) :
  (v =? v)%float = true -> (a =? a)%float = true ->
  (v <? a)%float = (number_key v <? number_key a).
Proof.
  intros Hv Ha. rewrite ltb_spec. unfold SFltb, number_key.
  rewrite (key_compare _ _ (Prim2SF_valid v) (Prim2SF_valid a)
             (not_nan_spec v Hv) (not_nan_spec a Ha)).
  unfold Z.ltb. destruct (_ ?= _); reflexivity.
Qed.

Lemma eqb_key (v a : number) :
  (v =? v)%float = true -> (a =? a)%float = true ->
  (v =? a)%float = (number_key v =? number_key a).
Proof.
  intros Hv Ha. rewrite eqb_spec. unfold SFeqb, number_key.
  rewrite (key_compare _ _ (Prim2SF_valid v) (Prim2SF_valid a)
             (not_nan_spec v Hv) (not_nan_spec a Ha)).
  destruct (key _ ?= key _) eqn:E; symmetry.
  - apply Z.compare_eq_iff in E. now apply Z.eqb_eq.
  - apply Z.eqb_neq. intros Heq. rewrite Heq, Z.compare_refl in E. discriminate E.
  - apply Z.eqb_neq. intros Heq. rewrite Heq, Z.compare_refl in E. discriminate E.
Qed.

(** The sign of the aligned difference is the order of the two numbers. *)
Lemma aligned_difference_sign (sa : bool) (ma : positive) (ea : Z)
  (sb : bool) (mb : positive) (eb : Z) :
  valid_binary (S754_finite sa ma ea) = true ->
  valid_binary (S754_finite sb mb eb) = true ->
  (cond_Zopp sa (Zpos (fst (shl_align ma ea (Z.min ea eb))))
   - cond_Zopp sb (Zpos (fst (shl_align mb eb (Z.min ea eb)))) ?= 0)
  = (key (S754_finite sa ma ea) ?= key (S754_finite sb mb eb)).
Proof.
  intros HA HB.
  destruct (valid_finite _ _ _ HA) as (_ & Hea & Hma & Hna).
  destruct (valid_finite _ _ _ HB) as (_ & Heb & Hmb & Hnb).
  pose proof (shl_align_spec ma ea (Z.min ea eb)) as [Ea Ea'].
  pose proof (shl_align_spec mb eb (Z.min ea eb)) as [Eb Eb'].
  rewrite Ea' in Ea. rewrite Eb' in Eb. rewrite Ea, Eb. clear Ea Eb Ea' Eb'.
  cbn [key]. cbv zeta.
  change (2 ^ 53) with 9007199254740992 in *.
  change (2 ^ 52) with 4503599627370496 in *.
  unfold SpecFloat.emin, emax, prec in Hea, Heb, Hna, Hnb.
  destruct (Z.lt_trichotomy ea eb) as [Hlt|[->|Hgt]].
  - replace (Z.min ea (Z.min ea eb)) with ea by lia.
    replace (Z.min eb (Z.min ea eb)) with ea by lia.
    rewrite Z.sub_diag, Z.mul_1_r.
    assert (HX : 2 <= 2 ^ (eb - ea)).
    { change 2 with (2 ^ 1) at 1. apply Z.pow_le_mono_r; lia. }
    specialize (Hnb ltac:(lia)).
    set (X := 2 ^ (eb - ea)) in *.
    assert (Zpos ma < Zpos mb * X) by nia.
    generalize dependent (Zpos mb * X). intros P HP.
    destruct sa, sb; cbn [cond_Zopp]; same_compare.
  - replace (Z.min eb (Z.min eb eb)) with eb by lia.
    rewrite Z.sub_diag, !Z.mul_1_r.
    destruct sa, sb; cbn [cond_Zopp]; same_compare.
  - replace (Z.min ea (Z.min ea eb)) with eb by lia.
    replace (Z.min eb (Z.min ea eb)) with eb by lia.
    rewrite Z.sub_diag, Z.mul_1_r.
    assert (HX : 2 <= 2 ^ (ea - eb)).
    { change 2 with (2 ^ 1) at 1. apply Z.pow_le_mono_r; lia. }
    specialize (Hna ltac:(lia)).
    set (X := 2 ^ (ea - eb)) in *.
    assert (Zpos mb < Zpos ma * X) by nia.
    generalize dependent (Zpos ma * X). intros P HP.
    destruct sa, sb; cbn [cond_Zopp]; same_compare.
Qed.

Lemma binary_normalize_sign (D e : Z) :
  emin <= e ->
  SFltb (binary_normalize prec emax D e false) (S754_zero false) = (D <? 0).
Proof.
  intros He. destruct D as [|p|p]; cbn [binary_normalize].
  - reflexivity.
  - destruct (binary_round_positive false p e He) as [->|(m' & e' & ->)]; reflexivity.
  - destruct (binary_round_positive true p e He) as [->|(m' & e' & ->)]; reflexivity.
Qed.

(** The comparator [(a, b) => a - b] of the sort is below zero exactly when
    [a < b]: the difference of two numbers is never rounded to a zero. *)
Lemma comparator_key (v a : number) :
  (v =? v)%float = true -> (a =? a)%float = true ->
  (v - a <? 0)%float = (number_key v <? number_key a).
Proof.
  intros Hv Ha. rewrite ltb_spec, sub_spec. unfold number_key.
  change (Prim2SF 0) with (S754_zero false).
  pose proof (Prim2SF_valid v) as Vv. pose proof (Prim2SF_valid a) as Va.
  pose proof (not_nan_spec v Hv) as Nv. pose proof (not_nan_spec a Ha) as Na.
  destruct (Prim2SF v) as [sv|sv| |sv mv ev], (Prim2SF a) as [sa|sa| |sa ma ea];
    try congruence;
    try (pose proof (key_finite_bounds _ _ _ Vv) as Kv);
    try (pose proof (key_finite_bounds _ _ _ Va) as Ka);
    unfold SF64sub, SFsub.
  9: { rewrite binary_normalize_sign
          by (destruct (valid_finite _ _ _ Vv) as (_ & ? & _);
              destruct (valid_finite _ _ _ Va) as (_ & ? & _); lia).
        unfold Z.ltb. rewrite <- (aligned_difference_sign _ _ _ _ _ _ Vv Va).
        reflexivity. }
  all: cbn [key]; cbv zeta; change (2 ^ 64) with 18446744073709551616 in *;
    try destruct sv; try destruct sa; cbn [SFltb SFcompare negb];
    symmetry; try (apply Z.ltb_lt; lia); try (apply Z.ltb_ge; lia).
Qed.

End OrderFacts.

(** ** Numbers: the integers among them *)

Module IntegerFacts.

Import RoundingFacts OrderFacts.

#[local] Open Scope Z_scope.

Lemma integer_digits (w : Z) : 0 < w < 2 ^ 53 -> 1 <= Zdigits2 w <= 53.
Proof.
  intros [H0 H1]. pose proof (Zdigits2_pos w H0).
  pose proof (Zdigits2_le w 53 ltac:(lia) ltac:(lia)). lia.
Qed.

Lemma integer_mantissa (w : Z) :
  0 < w < 2 ^ 53 ->
  Zpos (Z.to_pos (w * 2 ^ (53 - Zdigits2 w))) = w * 2 ^ (53 - Zdigits2 w)
  /\ Zdigits2 (Zpos (Z.to_pos (w * 2 ^ (53 - Zdigits2 w)))) = 53
  /\ 2 ^ 52 <= w * 2 ^ (53 - Zdigits2 w) < 2 ^ 53.
Proof.
  intros Hw. pose proof (integer_digits w Hw) as Hd.
  assert (Hp : 0 < w * 2 ^ (53 - Zdigits2 w)).
  { apply Z.mul_pos_pos; [lia|]. apply Z.pow_pos_nonneg; lia. }
  rewrite Z2Pos.id by exact Hp. split; [reflexivity|].
  assert (E : Zdigits2 (w * 2 ^ (53 - Zdigits2 w)) = 53)
    by (rewrite Zdigits2_shift by lia; lia).
  split; [exact E|].
  pose proof (Zdigits2_bounds _ Hp) as Hb. rewrite E in Hb. exact Hb.
Qed.

Lemma integer_float_canonical (w : Z) :
  0 < w < 2 ^ 53 ->
  fexp prec emax
    (Zdigits2 (Zpos (Z.to_pos (w * 2 ^ (53 - Zdigits2 w)))) + (Zdigits2 w - 53))
  = Zdigits2 w - 53
  /\ Zdigits2 w - 53 <= emax - prec.
Proof.
  intros Hw. destruct (integer_mantissa w Hw) as (_ & -> & _).
  pose proof (integer_digits w Hw). unfold fexp, SpecFloat.emin, emax, prec. lia.
Qed.

(** An integer with zeros after it rounds to itself. *)
Lemma round_integer (s : bool) (w j : Z) :
  0 < w < 2 ^ 53 -> 53 <= Zdigits2 w + j ->
  binary_round_aux prec emax s (w * 2 ^ j) (- j) loc_Exact = integer_float s w.
Proof.
  intros Hw Hj. pose proof (integer_digits w Hw) as Hd.
  destruct (integer_mantissa w Hw) as (Em & _ & _).
  destruct (integer_float_canonical w Hw) as [Hc He].
  unfold integer_float.
  rewrite <- (binary_round_aux_exact_shift s _ _ (j - (53 - Zdigits2 w)) Hc He)
    by lia.
  rewrite Em. f_equal; [|lia].
  rewrite <- Z.mul_assoc, <- Z.pow_add_r by lia. f_equal. f_equal. lia.
Qed.

Lemma binary_round_integer (s : bool) (p : positive) (w j : Z) :
  0 < w < 2 ^ 53 -> 0 <= j -> Zpos p = w * 2 ^ j ->
  binary_round prec emax s p (- j) = integer_float s w.
Proof.
  intros Hw Hj Hp. pose proof (integer_digits w Hw) as Hd. unfold binary_round.
  pose proof (shl_align_spec p (- j) (fexp prec emax (Zpos (digits2_pos p) + - j)))
    as [Hm He].
  destruct (shl_align p (- j) _) as [mz ez]. cbn [fst snd] in *.
  assert (Edig : Zpos (digits2_pos p) = Zdigits2 w + j)
    by (change (Zpos (digits2_pos p)) with (Zdigits2 (Zpos p));
        rewrite Hp; apply Zdigits2_shift; lia).
  rewrite Edig in He.
  assert (Ez : ez = Z.min (- j) (Zdigits2 w - 53))
    by (rewrite He; unfold fexp, SpecFloat.emin, emax, prec; lia).
  rewrite Hm, Hp, <- Z.mul_assoc, <- Z.pow_add_r by lia.
  replace ez with (- (- ez)) at 2 by lia.
  replace (j + (- j - ez)) with (- ez) by lia.
  apply round_integer; [exact Hw|lia].
Qed.

Lemma of_Z_integer (z : Z) :
  0 <= z < 2 ^ 53 -> Prim2SF (of_Z z) = signed_integer_float z.
Proof.
  intros Hz. destruct z as [|p|p]; [reflexivity| |lia].
  cbn [of_Z signed_integer_float]. rewrite of_uint63_spec, Uint63.of_Z_spec.
  rewrite Z.mod_small
    by (split; [lia|]; change Uint63.wB with (2 ^ 63);
        assert (2 ^ 53 < 2 ^ 63) by (apply Z.pow_lt_mono_r; lia); lia).
  cbn [binary_normalize].
  apply (binary_round_integer false p (Zpos p) 0); [lia|lia|]. simpl. lia.
Qed.


Lemma integer_float_aligned (s : bool) (w e : Z) :
  0 < w < 2 ^ 53 -> e <= Zdigits2 w - 53 ->
  Zpos (fst (shl_align (Z.to_pos (w * 2 ^ (53 - Zdigits2 w))) (Zdigits2 w - 53) e))
  = w * 2 ^ (- e).
Proof.
  intros Hw He. pose proof (integer_digits w Hw) as Hd.
  destruct (integer_mantissa w Hw) as (Em & _ & _).
  pose proof (shl_align_spec (Z.to_pos (w * 2 ^ (53 - Zdigits2 w)))
                (Zdigits2 w - 53) e) as [H1 H2].
  rewrite H1, H2, Em, <- Z.mul_assoc, <- Z.pow_add_r by lia.
  f_equal. f_equal. lia.
Qed.

(** The difference of two integers is exact. *)
Lemma sub_integer (c d : Z) :
  0 <= c < 2 ^ 53 -> 0 <= d < 2 ^ 53 ->
  Prim2SF (of_Z c - of_Z d) = signed_integer_float (c - d).
Proof.
  intros Hc Hd. rewrite sub_spec, !of_Z_integer by assumption.
  destruct c as [|c|c]; [| |lia]; (destruct d as [|d|d]; [| |lia]).
  - reflexivity.
  - reflexivity.
  - reflexivity.
  - assert (Hc' : 0 < Zpos c < 2 ^ 53) by lia.
    assert (Hd' : 0 < Zpos d < 2 ^ 53) by lia.
    clear Hc Hd. rename Hc' into Hc. rename Hd' into Hd.
    cbn [signed_integer_float]. unfold integer_float at 1 2, SF64sub, SFsub.
    pose proof (integer_digits _ Hc) as Dc. pose proof (integer_digits _ Hd) as Dd.
    set (ez := Z.min (Zdigits2 (Zpos c) - 53) (Zdigits2 (Zpos d) - 53)).
    rewrite (integer_float_aligned false (Zpos c) ez Hc) by (unfold ez; lia).
    rewrite (integer_float_aligned false (Zpos d) ez Hd) by (unfold ez; lia).
    cbn [cond_Zopp].
    rewrite <- Z.mul_sub_distr_r.
    assert (H2 : 0 < 2 ^ (- ez)) by (apply Z.pow_pos_nonneg; unfold ez; lia).
    destruct (Zpos c - Zpos d) as [|p|p] eqn:E.
    + reflexivity.
    + assert (Hp : 0 < Zpos p * 2 ^ (- ez)) by lia.
      destruct (Zpos p * 2 ^ (- ez)) as [|q|q] eqn:Eq; try lia.
      cbn [binary_normalize signed_integer_float].
      replace ez with (- (- ez)) by lia.
      apply binary_round_integer with (w := Zpos p); [lia|unfold ez; lia|lia].
    + assert (Hp : Zneg p * 2 ^ (- ez) < 0) by lia.
      destruct (Zneg p * 2 ^ (- ez)) as [|q|q] eqn:Eq; try lia.
      cbn [binary_normalize signed_integer_float].
      replace ez with (- (- ez)) by lia.
      apply binary_round_integer with (w := Zpos p); [lia|unfold ez; lia|lia].
Qed.

Lemma Zdigits2_mul (a b : Z) :
  0 < a -> 0 < b -> Zdigits2 a + Zdigits2 b - 1 <= Zdigits2 (a * b).
Proof.
  intros Ha Hb.
  pose proof (Zdigits2_bounds a Ha) as [La _].
  pose proof (Zdigits2_bounds b Hb) as [Lb _].
  pose proof (Zdigits2_pos a Ha). pose proof (Zdigits2_pos b Hb).
  pose proof (Zdigits2_bounds (a * b) ltac:(nia)) as [_ Uab].
  destruct (Z.le_gt_cases (Zdigits2 a + Zdigits2 b - 1) (Zdigits2 (a * b))); auto.
  assert (2 ^ Zdigits2 (a * b) <= 2 ^ ((Zdigits2 a - 1) + (Zdigits2 b - 1)))
    by (apply Z.pow_le_mono_r; lia).
  rewrite Z.pow_add_r in * by lia.
  assert (0 < 2 ^ (Zdigits2 a - 1)) by (apply Z.pow_pos_nonneg; lia).
  assert (0 < 2 ^ (Zdigits2 b - 1)) by (apply Z.pow_pos_nonneg; lia).
  nia.
Qed.

(** The product of two integers is exact while it is below 2^53. *)
Lemma mul_integer (sa sb : bool) (a b : Z) :
  0 < a -> 0 < b -> a * b < 2 ^ 53 ->
  SF64mul (integer_float sa a) (integer_float sb b)
  = integer_float (xorb sa sb) (a * b).
Proof.
  intros Ha Hb Hab.
  assert (Ha' : 0 < a < 2 ^ 53) by nia. assert (Hb' : 0 < b < 2 ^ 53) by nia.
  pose proof (integer_digits _ Ha') as Da. pose proof (integer_digits _ Hb') as Db.
  destruct (integer_mantissa _ Ha') as (Ea & _ & _).
  destruct (integer_mantissa _ Hb') as (Eb & _ & _).
  pose proof (Zdigits2_mul a b Ha Hb) as Dab.
  unfold integer_float at 1 2, SF64mul, SFmul.
  rewrite Pos2Z.inj_mul, Ea, Eb.
  replace (a * 2 ^ (53 - Zdigits2 a) * (b * 2 ^ (53 - Zdigits2 b)))
    with (a * b * 2 ^ (106 - Zdigits2 a - Zdigits2 b)).
  2:{ replace (106 - Zdigits2 a - Zdigits2 b)
        with ((53 - Zdigits2 a) + (53 - Zdigits2 b)) by lia.
      rewrite Z.pow_add_r by lia. ring. }
  replace (Zdigits2 a - 53 + (Zdigits2 b - 53))
    with (- (106 - Zdigits2 a - Zdigits2 b)) by lia.
  apply round_integer; [nia|lia].
Qed.

Lemma new_location_exact (n : Z) : new_location n 0 = loc_Exact.
Proof.
  unfold new_location, new_location_even, new_location_odd.
  destruct (Z.even n); reflexivity.
Qed.

Lemma new_location_upper (n q r : Z) :
  upper (shr_record_of_loc q (new_location n r)) <= q + (if r =? 0 then 0 else 1).
Proof.
  unfold upper. destruct (Z.eqb_spec r 0) as [->|Hr].
  - rewrite new_location_exact. cbn. lia.
  - destruct (new_location n r) as [|[]]; cbn; lia.
Qed.

(** The quotient of two integers before its rounding. *)
Lemma div_integer_core (sa sp : bool) (a p : Z) :
  0 < a < 2 ^ 53 -> 0 < p < 2 ^ 53 ->
  SF64div (integer_float sa a) (integer_float sp p)
  = binary_round_aux prec emax (xorb sa sp)
      (a * 2 ^ (53 - Zdigits2 a) * 2 ^ 53 / (p * 2 ^ (53 - Zdigits2 p)))
      (Zdigits2 a - Zdigits2 p - 53)
      (new_location (p * 2 ^ (53 - Zdigits2 p))
         ((a * 2 ^ (53 - Zdigits2 a) * 2 ^ 53) mod (p * 2 ^ (53 - Zdigits2 p)))).
Proof.
  intros Ha Hp.
  pose proof (integer_digits _ Ha) as Da. pose proof (integer_digits _ Hp) as Dp.
  destruct (integer_mantissa _ Ha) as (Ea & Ea' & _).
  destruct (integer_mantissa _ Hp) as (Ep & Ep' & _).
  unfold integer_float, SF64div, SFdiv, SFdiv_core_binary.
  rewrite Ea', Ep'.
  replace (53 + (Zdigits2 a - 53) - (53 + (Zdigits2 p - 53)))
    with (Zdigits2 a - Zdigits2 p) by lia.
  replace (Zdigits2 a - 53 - (Zdigits2 p - 53)) with (Zdigits2 a - Zdigits2 p) by lia.
  replace (Z.min (fexp prec emax (Zdigits2 a - Zdigits2 p)) (Zdigits2 a - Zdigits2 p))
    with (Zdigits2 a - Zdigits2 p - 53)
    by (unfold fexp, SpecFloat.emin, emax, prec; lia).
  replace (Zdigits2 a - Zdigits2 p - (Zdigits2 a - Zdigits2 p - 53)) with 53 by lia.
  rewrite Z.shiftl_mul_pow2 by lia. rewrite Ea, Ep.
  unfold Z.div, Z.modulo.
  destruct (Z.div_eucl _ _) as [q r]. reflexivity.
Qed.


Lemma quotient_upper (N M T : Z) :
  0 < M -> 0 <= N -> N <= M * T ->
  0 <= N / M /\ N / M + (if N mod M =? 0 then 0 else 1) <= T.
Proof.
  intros HM HN HT.
  pose proof (Z.div_mod N M ltac:(lia)) as E.
  pose proof (Z.mod_pos_bound N M HM) as Hr.
  assert (Hq : 0 <= N / M) by (apply Z.div_pos; lia).
  split; [exact Hq|].
  destruct (Z.eqb_spec (N mod M) 0) as [E0|E0]; nia.
Qed.

(** What the division of [a] by [p] is given to round, against [a <= p]
    and against [a < p]. *)
Lemma div_integer_scaled (a p : Z) :
  0 < a <= p -> p < 2 ^ 53 ->
  Zdigits2 a <= Zdigits2 p
  /\ 0 < p * 2 ^ (53 - Zdigits2 p)
  /\ 0 <= a * 2 ^ (53 - Zdigits2 a) * 2 ^ 53
  /\ a * 2 ^ (53 - Zdigits2 a) * 2 ^ 53
     <= p * 2 ^ (53 - Zdigits2 p) * (2 ^ 52 * 2 ^ (1 + Zdigits2 p - Zdigits2 a))
  /\ (a < p ->
      a * 2 ^ (53 - Zdigits2 a) * 2 ^ 53
      <= p * 2 ^ (53 - Zdigits2 p) * ((2 ^ 53 - 1) * 2 ^ (Zdigits2 p - Zdigits2 a))).
Proof.
  intros Ha Hp.
  pose proof (Zdigits2_mono a p ltac:(lia)) as Hd.
  pose proof (integer_digits a ltac:(lia)) as Da.
  pose proof (integer_digits p ltac:(lia)) as Dp.
  split; [exact Hd|].
  replace (53 - Zdigits2 a) with ((53 - Zdigits2 p) + (Zdigits2 p - Zdigits2 a)) by lia.
  replace (1 + Zdigits2 p - Zdigits2 a) with (1 + (Zdigits2 p - Zdigits2 a)) by lia.
  rewrite !Z.pow_add_r by lia.
  assert (HX : 0 < 2 ^ (53 - Zdigits2 p)) by (apply Z.pow_pos_nonneg; lia).
  assert (HE : 0 < 2 ^ (Zdigits2 p - Zdigits2 a)) by (apply Z.pow_pos_nonneg; lia).
  set (X := 2 ^ (53 - Zdigits2 p)) in *. set (E := 2 ^ (Zdigits2 p - Zdigits2 a)) in *.
  change (2 ^ 53) with 9007199254740992 in *.
  change (2 ^ 52) with 4503599627370496. change (2 ^ 1) with 2.
  assert (0 < X * E) by nia.
  split; [nia|]. split; [nia|]. split.
  - replace (a * (X * E) * 9007199254740992) with (a * 9007199254740992 * (X * E)) by ring.
    replace (p * X * (4503599627370496 * (2 * E)))
      with (p * 9007199254740992 * (X * E)) by ring.
    apply Z.mul_le_mono_nonneg_r; lia.
  - intros Hlt.
    replace (a * (X * E) * 9007199254740992) with (a * 9007199254740992 * (X * E)) by ring.
    replace (p * X * ((9007199254740992 - 1) * E))
      with (p * (9007199254740992 - 1) * (X * E)) by ring.
    apply Z.mul_le_mono_nonneg_r; lia.
Qed.

(** A quotient of integers [a <= p] is at most 1 after its rounding ... *)
Lemma div_integer_le_one (sa sp : bool) (a p : Z) :
  0 < a <= p -> p < 2 ^ 53 ->
  SF64div (integer_float sa a) (integer_float sp p) = S754_zero (xorb sa sp)
  \/ exists m e,
       SF64div (integer_float sa a) (integer_float sp p)
       = S754_finite (xorb sa sp) m e
       /\ e <= -52 /\ Zpos m <= 2 ^ 52 * 2 ^ (-52 - e).
Proof.
  intros Ha Hp.
  destruct (div_integer_scaled a p Ha Hp) as (Hd & HM & HN & Hle & _).
  destruct (quotient_upper _ _ _ HM HN Hle) as [Hq Hu].
  rewrite div_integer_core by lia.
  apply binary_round_aux_upper.
  - unfold prec. change (2 ^ 52) with 4503599627370496.
    change (2 ^ 53) with 9007199254740992. lia.
  - unfold SpecFloat.emin, emax, prec. lia.
  - lia.
  - exact Hq.
  - etransitivity; [apply new_location_upper|].
    replace (-52 - (Zdigits2 a - Zdigits2 p - 53)) with (1 + Zdigits2 p - Zdigits2 a)
      by lia.
    exact Hu.
Qed.

(** ... and strictly below 1 when [a < p]: at most the number before 1. *)
Lemma div_integer_lt_one (sa sp : bool) (a p : Z) :
  0 < a < p -> p < 2 ^ 53 ->
  SF64div (integer_float sa a) (integer_float sp p) = S754_zero (xorb sa sp)
  \/ exists m e,
       SF64div (integer_float sa a) (integer_float sp p)
       = S754_finite (xorb sa sp) m e
       /\ e <= -53.
Proof.
  intros Ha Hp.
  destruct (div_integer_scaled a p ltac:(lia) Hp) as (Hd & HM & HN & _ & Hlt).
  destruct (quotient_upper _ _ _ HM HN (Hlt ltac:(lia))) as [Hq Hu].
  rewrite div_integer_core by lia.
  destruct (binary_round_aux_upper (xorb sa sp)
              (a * 2 ^ (53 - Zdigits2 a) * 2 ^ 53 / (p * 2 ^ (53 - Zdigits2 p)))
              (Zdigits2 a - Zdigits2 p - 53)
              (new_location (p * 2 ^ (53 - Zdigits2 p))
                 ((a * 2 ^ (53 - Zdigits2 a) * 2 ^ 53) mod (p * 2 ^ (53 - Zdigits2 p))))
              (2 ^ 53 - 1) (-53))
    as [H|(m & e & H & He & _)].
  - unfold prec. change (2 ^ 53) with 9007199254740992. lia.
  - unfold SpecFloat.emin, emax, prec. lia.
  - lia.
  - exact Hq.
  - etransitivity; [apply new_location_upper|].
    replace (-53 - (Zdigits2 a - Zdigits2 p - 53)) with (Zdigits2 p - Zdigits2 a) by lia.
    exact Hu.
  - left; exact H.
  - right; exists m, e; auto.
Qed.

(** An integer over itself is 1. *)
Lemma div_integer_self (sa sp : bool) (p : Z) :
  0 < p < 2 ^ 53 ->
  SF64div (integer_float sa p) (integer_float sp p)
  = S754_finite (xorb sa sp) 4503599627370496 (-52).
Proof.
  intros Hp. rewrite div_integer_core by lia.
  destruct (integer_mantissa p Hp) as (_ & _ & Hm).
  set (M := p * 2 ^ (53 - Zdigits2 p)) in *.
  rewrite (Z.mul_comm M), Z.div_mul, Z_mod_mult by lia.
  rewrite new_location_exact.
  replace (Zdigits2 p - Zdigits2 p - 53) with (-52 - 1) by lia.
  change (2 ^ 53) with (Zpos 4503599627370496 * 2 ^ 1).
  apply binary_round_aux_exact_shift; [reflexivity| |lia].
  unfold emax, prec; lia.
Qed.

End IntegerFacts.

(** ** [matrixInverse]: shape of the result *)

Module InverseFacts.

Lemma identity_row_length n i : length (identity_row n i) = n.
Proof. unfold identity_row. now rewrite length_map, length_seq. Qed.

Lemma augment_shape (m : matrix) (n : nat) :
  length m = n -> Forall (fun r => length r = n) m -> shape n (augment m).
Proof.
  intros Hn Hrows; unfold shape, augment; rewrite Hn; split.
  - rewrite length_map, length_combine, length_seq; lia.
  - apply Forall_forall; intros r Hr.
    apply in_map_iff in Hr as [[i r0] [<- Hin]]; simpl.
    rewrite length_app, identity_row_length.
    apply in_combine_r in Hin. rewrite Forall_forall in Hrows.
    rewrite (Hrows _ Hin); lia.
Qed.

Lemma row_length (n : nat) (a : matrix) (j : nat) :
  shape n a -> (j < n)%nat -> length (row a j) = (2 * n)%nat.
Proof.
  intros [Hl Hr] Hj; unfold row.
  apply (Forall_nth_in (fun r => length r = (2 * n)%nat)); auto; lia.
Qed.

Lemma set_row_shape (n : nat) (a : matrix) (j : nat) (r : list number) :
  shape n a -> (j < n)%nat -> length r = (2 * n)%nat -> shape n (set_row a j r).
Proof.
  intros [Hl Hr] Hj Hlen; unfold shape, set_row; split.
  - rewrite set_length; lia.
  - apply set_Forall; auto; lia.
Qed.

Lemma find_max_row_bound (a : matrix) (n i : nat) :
  (i < n)%nat -> (find_max_row a n i < n)%nat.
Proof.
  intros Hi; unfold find_max_row.
  assert (H : forall js k, (k < n)%nat -> Forall (fun j => (j < n)%nat) js ->
    (fold_left (fun maxRow j =>
       if (abs (get (row a maxRow) i) <? abs (get (row a j) i))%float
       then j else maxRow)
       js k < n)%nat).
  { induction js as [|j js IH]; intros k Hk Hjs; simpl; auto.
    inversion Hjs; subst. apply IH; auto.
    destruct (_ <? _); auto. }
  apply H; auto.
  apply Forall_forall; intros j Hj; apply in_seq in Hj; lia.
Qed.

Lemma divide_row_length (r : list number) (n i : nat) (pivot : number) :
  length r = (2 * n)%nat -> length (divide_row r n i pivot) = (2 * n)%nat.
Proof.
  intros Hr; unfold divide_row.
  rewrite (fold_set_length (A := number) nan (fun r j => get r j / pivot)); auto.
  apply Forall_forall; intros j Hj; apply in_seq in Hj; lia.
Qed.

Lemma subtract_row_length (rj ri : list number) (n i : nat) (factor : number) :
  length rj = (2 * n)%nat -> length (subtract_row rj ri n i factor) = (2 * n)%nat.
Proof.
  intros Hr; unfold subtract_row.
  rewrite (fold_set_length (A := number) nan (fun r k => get r k - factor * get ri k)); auto.
  apply Forall_forall; intros j Hj; apply in_seq in Hj; lia.
Qed.

Lemma eliminate_shape (n : nat) (a : matrix) (i : nat) :
  shape n a -> shape n (eliminate a n i).
Proof.
  unfold eliminate.
  assert (H : forall js b, shape n b -> Forall (fun j => (j < n)%nat) js ->
    shape n (fold_left (fun a j =>
       if Nat.eqb i j then a
       else set_row a j (subtract_row (row a j) (row a i) n i (get (row a j) i)))
       js b)).
  { induction js as [|j js IH]; intros b Hb Hjs; simpl; auto.
    inversion Hjs; subst. apply IH; auto.
    destruct (Nat.eqb i j); auto.
    apply set_row_shape; auto.
    apply subtract_row_length, row_length with (n := n); auto. }
  intros Ha; apply H; auto. apply (seq_bound 0 n).
Qed.

Lemma gauss_step_shape (n : nat) (a : matrix) (i : nat) :
  shape n a -> (i < n)%nat -> shape n (gauss_step n a i).
Proof.
  intros Ha Hi; unfold gauss_step.
  pose proof (find_max_row_bound a n i Hi) as Hm.
  assert (Hs : shape n (swap_rows a i (find_max_row a n i))).
  { unfold swap_rows. apply set_row_shape; [apply set_row_shape| |]; auto;
      apply row_length with (n := n); auto. }
  apply eliminate_shape, set_row_shape; auto.
  apply divide_row_length, row_length with (n := n); auto.
Qed.

Lemma gauss_shape (n : nat) (steps : list nat) (a : matrix) :
  shape n a -> Forall (fun i => (i < n)%nat) steps ->
  shape n (fold_left (gauss_step n) steps a).
Proof.
  revert a; induction steps as [|i steps IH]; intros a Ha Hs; simpl; auto.
  inversion Hs; subst. apply IH; auto. apply gauss_step_shape; auto.
Qed.

End InverseFacts.

(** ** [matrixInverse]: no pivot test, no failure *)

Lemma matrixInverse_square (m : matrix) (n : nat) :
  length m = n -> Forall (fun r => length r = n) m ->
  exists inv, matrixInverse m = Normal inv /\
              length inv = n /\ Forall (fun r => length r = n) inv.
Proof.
  intros Hn Hrows. unfold matrixInverse. rewrite Hn.
  destruct (InverseFacts.gauss_shape n (seq 0 n) (augment m)) as [Hl Hr].
  - now apply InverseFacts.augment_shape.
  - apply (seq_bound 0 n).
  - eexists; split; [reflexivity|]; split.
    + now rewrite length_map.
    + apply Forall_forall; intros r Hin.
      apply in_map_iff in Hin as [r0 [<- Hin]].
      rewrite Forall_forall in Hr. rewrite length_skipn, (Hr _ Hin); lia.
Qed.

(** C1, as the code has it.  [matrixInverse] has no tolerance test and no
    failure path: for every n x n matrix, whatever its pivots, it returns an
    n x n matrix.  The pivot is divided by as it is: a 1 x 1 matrix [[p]]
    is answered with [[1 / p]] for every p (2^-60, far below 1e-12, gives
    2^60), and on the singular [[1,2],[2,4]] the second pivot is 0 and
    every entry of the result is infinite. *)
Theorem matrixInverse_never_singular_error :
  (forall (m : matrix) (n : nat),
      length m = n -> Forall (fun r => length r = n) m ->
      exists inv, matrixInverse m = Normal inv /\
                  length inv = n /\ Forall (fun r => length r = n) inv)
  /\ (forall p : number, matrixInverse [[p]] = Normal [[1 / p]])
  /\ matrixInverse [[0x1p-60]] = Normal [[0x1p60]]
  /\ matrixInverse [[1; 2]; [2; 4]]
     = Normal [[neg_infinity; infinity]; [infinity; neg_infinity]].
Proof.
  split; [exact matrixInverse_square|].
  split; [intros p; reflexivity|].
  split; vm_compute; reflexivity.
Qed.

Lemma matrixInverse_never_singular_error_witness :
  exists inv, matrixInverse [[2; 0]; [0; 2]] = Normal inv /\
              length inv = 2%nat /\ Forall (fun r => length r = 2%nat) inv.
Proof.
  apply (proj1 matrixInverse_never_singular_error [[2; 0]; [0; 2]] 2%nat).
  - reflexivity.
  - repeat constructor.
Defined.

(** C1 as stated fails: the singular matrix of the specification is inverted
    "successfully", into infinities. *)
Lemma matrixInverse_singular_returns_infinities :
  matrixInverse [[1; 2]; [2; 4]]
  = Normal [[neg_infinity; infinity]; [infinity; neg_infinity]]
  /\ matrixInverse [[1; 2]; [2; 4]] <> Throw SingularMatrixError
  /\ forallb (forallb is_finite) [[neg_infinity; infinity]; [infinity; neg_infinity]] = false.
Proof.
  split; [vm_compute; reflexivity|]. split; [|vm_compute; reflexivity].
  vm_compute. discriminate.
Qed.

(** ** No boundary condition is tested *)

(** C4, as the code has it.  None of the three boundary conditions is
    tested: [matrixInverse] raises for no matrix at all and divides by a zero
    pivot ([[0]] gives [[Infinity]]); the Pearson coefficient of a
    zero-variance input is 0/0 = NaN; with [rxz = 1] the partial coefficient
    is divided by [sqrt (0 * ...)]. *)
Theorem boundary_conditions_unchecked :
  (forall m : matrix, exists inv, matrixInverse m = Normal inv)
  /\ matrixInverse [[0]] = Normal [[infinity]]
  /\ pearson_r [1; 1; 1] [1; 2; 3] = Normal nan
  /\ (forall rxy ryz : number,
        partial_coefficient rxy 1 ryz = (rxy - 1 * ryz) / sqrt (0 * (1 - ryz * ryz)))
  /\ partial_coefficient 0.25 1 0.5 = neg_infinity.
Proof.
  split; [intros m; eexists; reflexivity|].
  repeat split; try (vm_compute; reflexivity).
Qed.

(** C4 as stated fails: a core operation returns NaN, silently. *)
Lemma matrixInverse_zero_matrix_returns_nan :
  matrixInverse [[0; 0]; [0; 0]] = Normal [[nan; nan]; [nan; nan]]
  /\ forallb (forallb is_finite) [[nan; nan]; [nan; nan]] = false.
Proof.
  split; vm_compute; reflexivity.
Qed.

(** ** Exceptions: only the run time's *)

Lemma only_TypeError_bind {A B} (c : completion A) (k : A -> completion B) :
  only_TypeError c -> (forall a, only_TypeError (k a)) -> only_TypeError (Js.bind c k).
Proof.
  destruct c as [a|e]; simpl; auto.
Qed.

Lemma betaCF_iteration_only_TypeError rt x a b m st :
  only_TypeError (betaCF_iteration rt x a b m st).
Proof.
  unfold betaCF_iteration, assign_const. destruct st as [c d h].
  destruct (const_binding rt); simpl; auto.
Qed.

Lemma betaCF_loop_only_TypeError rt x a b budget :
  forall m st, only_TypeError (betaCF_loop rt x a b budget m st).
Proof.
  induction budget as [|budget IH]; intros m st; simpl; auto.
  apply only_TypeError_bind; [apply betaCF_iteration_only_TypeError|].
  intros [st' brk]; simpl. destruct brk; simpl; auto.
Qed.

Lemma betaCF_only_TypeError rt x a b : only_TypeError (betaCF rt x a b).
Proof.
  unfold betaCF. apply only_TypeError_bind; [apply betaCF_loop_only_TypeError|].
  intros r; exact I.
Qed.

Lemma incompleteBeta_only_TypeError rt x a b : only_TypeError (incompleteBeta rt x a b).
Proof.
  unfold incompleteBeta.
  destruct (x =? 0); [exact I|]. destruct (x =? 1); [exact I|].
  destruct (x <? _); (apply only_TypeError_bind; [apply betaCF_only_TypeError|]);
    intros cf; exact I.
Qed.

Lemma tDistribution_only_TypeError rt t df :
  only_TypeError (calculateTDistributionPValue rt t df).
Proof.
  unfold calculateTDistributionPValue.
  apply only_TypeError_bind; [apply incompleteBeta_only_TypeError|].
  intros ib; exact I.
Qed.

Lemma reduce_sum_only_TypeError l : only_TypeError (reduce_sum l).
Proof. destruct l; simpl; auto. Qed.

Lemma pearson_r_only_TypeError x y : only_TypeError (pearson_r x y).
Proof.
  unfold pearson_r.
  apply only_TypeError_bind; [apply reduce_sum_only_TypeError|]; intros sx.
  apply only_TypeError_bind; [apply reduce_sum_only_TypeError|]; intros sy.
  destruct (pearson_sums _ _ _ _) as [[nu xd] yd]; exact I.
Qed.

Lemma pearson_only_TypeError rt x y :
  only_TypeError (calculatePearsonCorrelation rt x y).
Proof.
  unfold calculatePearsonCorrelation.
  apply only_TypeError_bind; [apply pearson_r_only_TypeError|]; intros r.
  apply only_TypeError_bind; [apply tDistribution_only_TypeError|]; intros p.
  exact I.
Qed.

Lemma pearson_r_nonempty (x y : list number) :
  x <> [] -> y <> [] -> exists r, pearson_r x y = Normal r.
Proof.
  intros Hx Hy. unfold pearson_r.
  destruct x as [|x0 x]; [congruence|]. destruct y as [|y0 y]; [congruence|].
  cbn [reduce_sum Js.bind].
  destruct (pearson_sums _ _ _ _) as [[nu xd] yd]. eexists; reflexivity.
Qed.

(** C5, as the code has it.  [calculatePearsonCorrelation] tests neither the
    sample size nor the variances and never fails with InvalidInputError:
    whatever it raises is a TypeError of the run time, and the coefficient
    is computed for every pair of non-empty inputs, of any length and any
    variance. *)
Theorem pearson_never_invalid_input_error :
  (forall rt x y e, calculatePearsonCorrelation rt x y = Throw e -> e = TypeError)
  /\ (forall x y : list number, x <> [] -> y <> [] -> exists r, pearson_r x y = Normal r).
Proof.
  split; [|exact pearson_r_nonempty].
  intros rt x y e H. pose proof (pearson_only_TypeError rt x y) as Ho.
  rewrite H in Ho. exact Ho.
Qed.

Lemma pearson_never_invalid_input_error_witness :
  exists r, pearson_r [1; 2] [3; 5] = Normal r.
Proof.
  apply (proj2 pearson_never_invalid_input_error [1; 2] [3; 5]); discriminate.
Defined.

(** The answer to a zero-variance [x] = [0.1,0.1,0.1] (its mean rounds to
    0.10000000000000002, so the deviations are not 0) does not depend on
    the run time either. *)
Lemma pearson_zero_variance_any_runtime (rt : Runtime.t) :
  calculatePearsonCorrelation rt [0.1; 0.1; 0.1] [1; 2; 3]
  = Normal {| coefficient := 0; pValue := 0; significant := true |}.
Proof.
  vm_compute; reflexivity.
Qed.

(** C5 as stated fails.  A zero-variance [x] against a non-constant [y]
    is given a result (r = 0, and "significant"); so is a sample of two
    where assigning to [aa] is allowed, and where it is not the failure is a
    TypeError. *)
Lemma pearson_answers_outside_preconditions :
  calculatePearsonCorrelation (reference ConstIsImmutable) [0.1; 0.1; 0.1] [1; 2; 3]
  = Normal {| coefficient := 0; pValue := 0; significant := true |}
  /\ calculatePearsonCorrelation (reference ConstIsVar) [1; 2] [3; 5]
     = Normal {| coefficient := 1; pValue := nan; significant := false |}
  /\ calculatePearsonCorrelation (reference ConstIsImmutable) [1; 2] [3; 5]
     = Throw TypeError.
Proof.
  repeat split; vm_compute; reflexivity.
Qed.

(** ** The continued fraction: a bare number, no flag *)

Lemma betaCF_iteration_var rt x a b m st :
  const_binding rt = ConstIsVar ->
  exists r, betaCF_iteration rt x a b m st = Normal r.
Proof.
  intros Hc. unfold betaCF_iteration, assign_const. destruct st as [c d h].
  rewrite Hc. cbn [Js.bind]. eexists; reflexivity.
Qed.

Lemma betaCF_loop_var rt x a b budget :
  const_binding rt = ConstIsVar ->
  forall m st, exists st' brk, betaCF_loop rt x a b budget m st = Normal (st', brk).
Proof.
  intros Hc. induction budget as [|budget IH]; intros m st; simpl.
  - eexists _, _; reflexivity.
  - destruct (betaCF_iteration_var rt x a b (of_nat m) st Hc) as [[st1 brk1] ->].
    cbn [Js.bind snd fst]. destruct brk1.
    + eexists _, _; reflexivity.
    + apply IH.
Qed.

(** The loop consults the run time for the assignment to [aa] only. *)
Lemma betaCF_loop_binding rt rt' x a b budget :
  const_binding rt = const_binding rt' ->
  forall m st, betaCF_loop rt x a b budget m st = betaCF_loop rt' x a b budget m st.
Proof.
  intros Hc. induction budget as [|budget IH]; intros m st; [reflexivity|].
  cbn [betaCF_loop].
  assert (Hi : betaCF_iteration rt x a b (of_nat m) st
               = betaCF_iteration rt' x a b (of_nat m) st)
    by (unfold betaCF_iteration, assign_const; now rewrite Hc).
  rewrite Hi. destruct (betaCF_iteration rt' x a b (of_nat m) st) as [[st1 brk]|e];
    [|reflexivity].
  cbn [Js.bind snd fst]. destruct brk; [reflexivity|apply IH].
Qed.

Lemma betaCF_loop_fixed rt :
  const_binding rt = ConstIsVar ->
  exists st,
    betaCF_loop rt 0.5 1000000 1000000 200 1 (betaCF_init 0.5 1000000 1000000)
    = Normal (st, false)
    /\ cf_h st = 1773.5630881520221.
Proof.
  intros Hc.
  rewrite (betaCF_loop_binding rt (reference ConstIsVar)) by exact Hc.
  eexists. split; vm_compute; reflexivity.
Qed.

(** Where the assignment to [aa] raises, it raises in the first pass. *)
Lemma betaCF_immutable rt x a b :
  const_binding rt = ConstIsImmutable ->
  betaCF rt x a b = Throw TypeError.
Proof.
  intros Hc. unfold betaCF, maxIterations.
  cbn [betaCF_loop]. unfold betaCF_iteration, assign_const.
  destruct (betaCF_init x a b) as [c d h]. rewrite Hc. reflexivity.
Qed.

(** C6, as the code has it.  What [betaCF] does depends on what the
    assignment to the [const] variable [aa] (line 259) does.  Where it is
    allowed, [betaCF] makes at most [maxIterations] = 200 passes and returns
    the current [h], a bare number: how the loop ended is dropped, there is
    no convergence flag, and the call always returns; with x = 0.5,
    a = b = 10^6 the 200 passes are used up without the [break] and
    1773.56... is returned like any other value.  Where [const] is
    immutable, every call raises TypeError in its first pass.  In both
    cases the code has no exception of its own, for non-convergence or
    anything else: TypeError is all a call can raise. *)
Theorem betaCF_returns_bare_estimate :
  (forall rt x a b, const_binding rt = ConstIsVar ->
     exists st brk,
       betaCF_loop rt x a b 200 1 (betaCF_init x a b) = Normal (st, brk)
       /\ betaCF rt x a b = Normal (cf_h st))
  /\ (forall rt x a b, const_binding rt = ConstIsImmutable ->
        betaCF rt x a b = Throw TypeError)
  /\ (forall rt x a b e, betaCF rt x a b = Throw e -> e = TypeError)
  /\ (forall rt, const_binding rt = ConstIsVar ->
        exists st,
          betaCF_loop rt 0.5 1000000 1000000 200 1
            (betaCF_init 0.5 1000000 1000000) = Normal (st, false)
          /\ betaCF rt 0.5 1000000 1000000 = Normal (cf_h st)
          /\ cf_h st = 1773.5630881520221).
Proof.
  split; [|split; [|split]].
  - intros rt x a b Hc.
    destruct (betaCF_loop_var rt x a b 200 Hc 1%nat (betaCF_init x a b)) as [st [brk H]].
    exists st, brk; split; [exact H|].
    unfold betaCF, maxIterations. rewrite H. reflexivity.
  - exact betaCF_immutable.
  - intros rt x a b e H. pose proof (betaCF_only_TypeError rt x a b) as Ho.
    rewrite H in Ho. exact Ho.
  - intros rt Hc.
    destruct (betaCF_loop_fixed rt Hc) as [st [Hl Hh]].
    exists st. split; [exact Hl|]. split; [|exact Hh].
    unfold betaCF, maxIterations. rewrite Hl. reflexivity.
Qed.

Lemma betaCF_returns_bare_estimate_witness :
  (exists st brk,
     betaCF_loop (reference ConstIsVar) 0.5 1 1 200 1 (betaCF_init 0.5 1 1) = Normal (st, brk)
     /\ betaCF (reference ConstIsVar) 0.5 1 1 = Normal (cf_h st))
  /\ betaCF (reference ConstIsImmutable) 0.5 1 1 = Throw TypeError.
Proof.
  split.
  - apply (proj1 betaCF_returns_bare_estimate (reference ConstIsVar) 0.5 1 1).
    reflexivity.
  - apply (proj1 (proj2 betaCF_returns_bare_estimate) (reference ConstIsImmutable) 0.5 1 1).
    reflexivity.
Defined.

(** C6 as stated fails: the budget is used up, and what comes back is a
    number with nothing attached (or, where [const] is immutable, a
    TypeError on the first pass). *)
Lemma betaCF_unconverged_has_no_flag :
  betaCF (reference ConstIsVar) 0.5 1000000 1000000 = Normal 1773.5630881520221
  /\ (exists st, betaCF_loop (reference ConstIsVar) 0.5 1000000 1000000 200 1
                   (betaCF_init 0.5 1000000 1000000) = Normal (st, false))
  /\ betaCF (reference ConstIsImmutable) 0.5 1000000 1000000 = Throw TypeError.
Proof.
  split; [vm_compute; reflexivity|]. split; [|vm_compute; reflexivity].
  eexists; vm_compute; reflexivity.
Qed.

(** ** Pearson on a perfect line *)

Lemma tStatistic_perfect (df : number) :
  (0 <? df) = true ->
  tStatistic 1 df = infinity /\ tStatistic (-1) df = neg_infinity.
Proof.
  intros H. unfold tStatistic.
  change (1 - 1 * 1) with 0. change (1 - -1 * -1) with 0.
  rewrite (NumberFacts.div_positive_by_zero df H). split; reflexivity.
Qed.

(** What the code answers whenever the coefficient is exactly 1 or -1 and
    there are at least three samples ([n - 2] positive and finite), on any
    run time: t is infinite, [x = df / (df + t * t)] is 0,
    [incompleteBeta] returns 0 at once and the p-value is 1 - 0. *)
Lemma pearson_perfect_correlation_result rt x y r :
  pearson_r x y = Normal r -> r = 1 \/ r = -1 ->
  (0 <? of_nat (length x) - 2) = true ->
  (of_nat (length x) - 2 <? infinity) = true ->
  calculatePearsonCorrelation rt x y
  = Normal {| coefficient := r; pValue := 1; significant := false |}.
Proof.
  intros Hr Hone H0 Hf. unfold calculatePearsonCorrelation. rewrite Hr. cbn [Js.bind].
  set (df := of_nat (length x) - 2) in *.
  assert (Ht : tStatistic r df * tStatistic r df = infinity).
  { destruct (tStatistic_perfect df H0) as [Hp Hm].
    destruct Hone; subst r; [rewrite Hp|rewrite Hm]; reflexivity. }
  unfold calculateTDistributionPValue. rewrite Ht.
  rewrite (NumberFacts.div_finite_by_infinity df H0 Hf).
  reflexivity.
Qed.

(** C2, as the code has it.  There is no special case for |r| = 1: when the
    coefficient is 1 or -1 the denominator [1 - r * r] is 0 and the t
    statistic is evaluated all the same, as [r * sqrt ((n - 2) / 0)], which
    is +Infinity or -Infinity for n > 2, and handed to
    [calculateTDistributionPValue].  For x = [1,2,3,4,5], y = [2,4,6,8,10]
    the coefficient is exactly 1 and the t statistic is +Infinity. *)
Theorem pearson_perfect_line_evaluates_t :
  (forall rt x y r,
      pearson_r x y = Normal r -> r = 1 \/ r = -1 ->
      1 - r * r = 0
      /\ calculatePearsonCorrelation rt x y
         = (pValue <- calculateTDistributionPValue rt
                        (r * sqrt ((of_nat (length x) - 2) / 0))
                        (of_nat (length x) - 2) ;;
            Normal {| coefficient := r; pValue := pValue;
                      significant := pValue <? 0.05 |}))
  /\ (forall df : number,
        (0 <? df) = true ->
        tStatistic 1 df = infinity /\ tStatistic (-1) df = neg_infinity)
  /\ pearson_r [1; 2; 3; 4; 5] [2; 4; 6; 8; 10] = Normal 1
  /\ tStatistic 1 (of_nat 5 - 2) = infinity.
Proof.
  split; [|split; [exact tStatistic_perfect|split; vm_compute; reflexivity]].
  intros rt x y r Hr Hone.
  assert (Hz : 1 - r * r = 0) by (destruct Hone; subst r; reflexivity).
  split; [exact Hz|].
  unfold calculatePearsonCorrelation. rewrite Hr. cbn [Js.bind].
  unfold tStatistic. rewrite Hz. reflexivity.
Qed.

Lemma pearson_perfect_line_evaluates_t_witness :
  1 - 1 * 1 = 0
  /\ calculatePearsonCorrelation (reference ConstIsImmutable)
       [1; 2; 3; 4; 5] [2; 4; 6; 8; 10]
     = (pValue <- calculateTDistributionPValue (reference ConstIsImmutable)
                    (1 * sqrt ((of_nat (length [1; 2; 3; 4; 5]) - 2) / 0))
                    (of_nat (length [1; 2; 3; 4; 5]) - 2) ;;
        Normal {| coefficient := 1; pValue := pValue;
                  significant := pValue <? 0.05 |}).
Proof.
  apply (proj1 pearson_perfect_line_evaluates_t (reference ConstIsImmutable)
           [1; 2; 3; 4; 5] [2; 4; 6; 8; 10] 1).
  - vm_compute; reflexivity.
  - left; reflexivity.
Defined.

(** On the test vector of the specification the result does not depend on
    the run time: no platform function and no continued fraction is
    reached. *)
Lemma pearson_perfect_line_any_runtime (rt : Runtime.t) :
  calculatePearsonCorrelation rt [1; 2; 3; 4; 5] [2; 4; 6; 8; 10]
  = Normal {| coefficient := 1; pValue := 1; significant := false |}.
Proof.
  vm_compute; reflexivity.
Qed.

(** C2 as stated fails: on the test vector of the specification the result
    is pValue = 1 and not significant, under either reading of [const]. *)
Lemma pearson_perfect_line_not_significant :
  calculatePearsonCorrelation (reference ConstIsImmutable)
    [1; 2; 3; 4; 5] [2; 4; 6; 8; 10]
  = Normal {| coefficient := 1; pValue := 1; significant := false |}
  /\ calculatePearsonCorrelation (reference ConstIsVar)
       [1; 2; 3; 4; 5] [2; 4; 6; 8; 10]
     = Normal {| coefficient := 1; pValue := 1; significant := false |}.
Proof.
  split; vm_compute; reflexivity.
Qed.

(** ** Phase-space reconstruction *)

Lemma for_push_map {A} (n : nat) (body : nat -> A) :
  for_push n body = map body (seq 0 n).
Proof.
  unfold for_push.
  assert (H : forall l acc,
             fold_left (fun out i => out ++ [body i]) l acc = acc ++ map body l).
  { induction l as [|i l IH]; intros acc; simpl.
    - now rewrite app_nil_r.
    - rewrite IH, <- app_assoc. reflexivity. }
  apply (H (seq 0 n) []).
Qed.

Lemma for_push_length {A} (n : nat) (body : nat -> A) :
  length (for_push n body) = n.
Proof. now rewrite for_push_map, length_map, length_seq. Qed.

Lemma for_push_nth {A} (n : nat) (body : nat -> A) (i : nat) (d : A) :
  (i < n)%nat -> nth i (for_push n body) d = body i.
Proof.
  intros Hi. rewrite for_push_map.
  rewrite (nth_indep _ d (body 0%nat)) by now rewrite length_map, length_seq.
  rewrite map_nth, seq_nth; auto.
Qed.

Lemma element_in_range (timeSeries : list number) (k : Z) :
  (0 <= k < Z.of_nat (length timeSeries))%Z ->
  element timeSeries k = Some (nth (Z.to_nat k) timeSeries nan).
Proof.
  intros Hk. unfold element.
  destruct (k <? 0)%Z eqn:E; [apply Z.ltb_lt in E; lia|].
  apply nth_error_nth'. lia.
Qed.

(** C7, as the code has it.  With N = len(series) - (d-1) tau positive
    (and d a count), [reconstructPhaseSpace] returns exactly N vectors,
    vector i of length d with components series[i + k tau], k = 0 .. d-1,
    all of them inside the series when tau is not negative.  When N is zero
    or negative it returns the empty sequence; nothing is raised. *)
Theorem reconstructPhaseSpace_embedding :
  (forall (timeSeries : list number) (dimension delay : Z),
      (0 <= dimension)%Z ->
      (0 < Z.of_nat (length timeSeries) - (dimension - 1) * delay)%Z ->
      exists vectors,
        reconstructPhaseSpace timeSeries dimension delay = Normal vectors
        /\ Z.of_nat (length vectors)
           = (Z.of_nat (length timeSeries) - (dimension - 1) * delay)%Z
        /\ forall i, (i < length vectors)%nat ->
             Z.of_nat (length (nth i vectors [])) = dimension
             /\ forall k, (Z.of_nat k < dimension)%Z ->
                  nth k (nth i vectors []) None
                  = element timeSeries (Z.of_nat i + Z.of_nat k * delay)
                  /\ ((0 <= delay)%Z ->
                      element timeSeries (Z.of_nat i + Z.of_nat k * delay)
                      = Some (nth (Z.to_nat (Z.of_nat i + Z.of_nat k * delay))
                                  timeSeries nan)))
  /\ (forall (timeSeries : list number) (dimension delay : Z),
        (Z.of_nat (length timeSeries) - (dimension - 1) * delay <= 0)%Z ->
        reconstructPhaseSpace timeSeries dimension delay = Normal [])
  /\ (exists vectors,
        reconstructPhaseSpace [0; 1; 2; 3; 4; 5; 6; 7; 8; 9] 3 2 = Normal vectors
        /\ length vectors = 6%nat
        /\ Forall (fun v => length v = 3%nat) vectors).
Proof.
  split; [|split].
  - intros ts d tau Hd HN. unfold reconstructPhaseSpace.
    set (N := (Z.of_nat (length ts) - (d - 1) * tau)%Z) in *.
    eexists; split; [reflexivity|]. rewrite for_push_length.
    split; [lia|]. intros i Hi.
    rewrite for_push_nth by exact Hi. rewrite for_push_length.
    split; [lia|]. intros k Hk.
    rewrite for_push_nth by lia. split; [reflexivity|].
    intros Htau. apply element_in_range. subst N. nia.
  - intros ts d tau HN. unfold reconstructPhaseSpace.
    replace (Z.to_nat _) with 0%nat by lia. reflexivity.
  - eexists; split; [vm_compute; reflexivity|].
    split; [reflexivity|]. repeat constructor.
Qed.

Lemma reconstructPhaseSpace_embedding_witness :
  exists vectors,
    reconstructPhaseSpace [0; 1; 2; 3; 4; 5; 6; 7; 8; 9] 3 2 = Normal vectors
    /\ Z.of_nat (length vectors)
       = (Z.of_nat (length [0; 1; 2; 3; 4; 5; 6; 7; 8; 9]) - (3 - 1) * 2)%Z
    /\ forall i, (i < length vectors)%nat ->
         Z.of_nat (length (nth i vectors [])) = 3%Z
         /\ forall k, (Z.of_nat k < 3)%Z ->
              nth k (nth i vectors []) None
              = element [0; 1; 2; 3; 4; 5; 6; 7; 8; 9] (Z.of_nat i + Z.of_nat k * 2)
              /\ ((0 <= 2)%Z ->
                  element [0; 1; 2; 3; 4; 5; 6; 7; 8; 9] (Z.of_nat i + Z.of_nat k * 2)
                  = Some (nth (Z.to_nat (Z.of_nat i + Z.of_nat k * 2))
                              [0; 1; 2; 3; 4; 5; 6; 7; 8; 9] nan)).
Proof.
  apply (proj1 reconstructPhaseSpace_embedding [0; 1; 2; 3; 4; 5; 6; 7; 8; 9] 3%Z 2%Z).
  - lia.
  - simpl; lia.
Defined.

(** C7 as stated fails in its last part: an empty range is answered with
    the empty list, not with InvalidInputError. *)
Lemma reconstructPhaseSpace_empty_range_returns :
  reconstructPhaseSpace [0; 1; 2] 3 2 = Normal []
  /\ reconstructPhaseSpace [0; 1; 2] 3 2 <> Throw InvalidInputError.
Proof.
  split; [vm_compute; reflexivity | vm_compute; discriminate].
Qed.

(** ** Runge-Kutta *)

Module RungeKuttaFacts.


End RungeKuttaFacts.




(** ** Kendall: the two counters *)

Module KendallFacts.

(** The two nested loops visit [pairs n], once each. *)
Lemma kendall_counts_pairs (x y : list number) :
  kendall_counts x y
  = fold_left (fun cd ij => kendall_pair x y (fst ij) (snd ij) cd)
              (pairs (length x)) (0, 0)%Z.
Proof.
  unfold kendall_counts, pairs.
  generalize (seq 0 (length x - 1)) (0, 0)%Z.
  induction l as [|i l IH]; intros cd; simpl; auto.
  rewrite fold_left_app, IH. f_equal.
  generalize (seq (i + 1) (length x - (i + 1))) cd.
  induction l0 as [|j l0 IH0]; intros cd0; simpl; auto.
Qed.

(** Each pair adds one to [concordant] when its product is above zero, one
    to [discordant] when it is below, and nothing otherwise. *)
Lemma fold_kendall_pair (x y : list number) (l : list (nat * nat)) :
  forall c d,
    fold_left (fun cd ij => kendall_pair x y (fst ij) (snd ij) cd) l (c, d)
    = (c + count (concordant x y) l, d + count (discordant x y) l)%Z.
Proof.
  unfold count.
  induction l as [|[i j] l IH]; intros c d; simpl.
  - f_equal; lia.
  - unfold kendall_pair at 2. cbn [fst snd].
    unfold concordant at 1, discordant at 1, pair_product. cbn [fst snd].
    destruct (0 <? _) eqn:Hc.
    + rewrite (NumberFacts.ltb_zero_antisym _ Hc), IH. simpl length. f_equal; lia.
    + destruct (_ <? 0) eqn:Hd; rewrite IH; simpl length; f_equal; lia.
Qed.

Lemma kendall_counts_spec (x y : list number) :
  kendall_counts x y
  = (count (concordant x y) (pairs (length x)),
     count (discordant x y) (pairs (length x))).
Proof.
  rewrite kendall_counts_pairs, fold_kendall_pair. reflexivity.
Qed.

(** A pair is counted once at most. *)
Lemma counts_disjoint (x y : list number) (l : list (nat * nat)) :
  (count (concordant x y) l + count (discordant x y) l <= Z.of_nat (length l))%Z.
Proof.
  unfold count. induction l as [|ij l IH]; simpl; [lia|].
  unfold concordant at 1, discordant at 1.
  destruct (0 <? _) eqn:Hc.
  - rewrite (NumberFacts.ltb_zero_antisym _ Hc). simpl length. lia.
  - destruct (_ <? 0); simpl length; lia.
Qed.

Lemma count_nonneg {A} (p : A -> bool) (l : list A) : (0 <= count p l)%Z.
Proof. unfold count; lia. Qed.

Lemma count_all {A} (p : A -> bool) (l : list A) :
  Forall (fun a => p a = true) l -> count p l = Z.of_nat (length l).
Proof.
  unfold count. induction 1 as [|a l Ha Hl IH]; simpl; auto.
  rewrite Ha. simpl length. lia.
Qed.

Lemma count_none {A} (p : A -> bool) (l : list A) :
  Forall (fun a => p a = false) l -> count p l = 0%Z.
Proof.
  unfold count. induction 1 as [|a l Ha Hl IH]; simpl; auto.
  now rewrite Ha.
Qed.


Lemma in_pairs (n i j : nat) :
  In (i, j) (pairs n) <-> (i < j < n)%nat.
Proof.
  unfold pairs. rewrite in_flat_map. split.
  - intros [i' [Hi' Hin]]. apply in_seq in Hi'.
    apply in_map_iff in Hin as [j' [Heq Hj']]. apply in_seq in Hj'.
    injection Heq as <- <-. lia.
  - intros Hij. exists i. split; [apply in_seq; lia|].
    apply in_map_iff. exists j. split; [reflexivity|apply in_seq; lia].
Qed.

(** There are n (n - 1) / 2 pairs. *)
Lemma pairs_length (n : nat) :
  (2 * Z.of_nat (length (pairs n)) = Z.of_nat n * (Z.of_nat n - 1))%Z.
Proof.
  unfold pairs.
  assert (H : forall k a, (a + k <= n)%nat ->
    (2 * Z.of_nat (length (flat_map
                             (fun i => map (pair i) (seq (i + 1) (n - (i + 1))))
                             (seq a k)))
     = Z.of_nat k * (2 * Z.of_nat n - 2 * Z.of_nat a - Z.of_nat k - 1))%Z).
  { induction k as [|k IH]; intros a Ha; cbn [seq flat_map length]; [lia|].
    rewrite length_app, length_map, length_seq.
    specialize (IH (S a) ltac:(lia)). nia. }
  destruct n as [|n]; [reflexivity|].
  replace (S n - 1)%nat with n by lia.
  rewrite H by lia. nia.
Qed.

End KendallFacts.

Module RatioFacts.

Lemma ratio_bounds (a p : Z) :
  (0 < p)%Z -> (- p <= 2 * a <= p)%Z ->
  (-1 <= inject_Z a / (inject_Z p / 2) <= 1)%Q.
Proof.
  intros Hp Ha. destruct p as [|p|p]; try lia.
  unfold Qle, Qdiv, Qmult, Qinv, inject_Z; simpl. lia.
Qed.

Lemma ratio_one (a p : Z) :
  (0 < p)%Z -> (2 * a = p)%Z -> (inject_Z a / (inject_Z p / 2) == 1)%Q.
Proof.
  intros Hp Ha. destruct p as [|p|p]; try lia.
  unfold Qeq, Qdiv, Qmult, Qinv, inject_Z; simpl. lia.
Qed.


End RatioFacts.

(** ** Kendall: the quotient of the counters *)

Module QuotientFacts.

Import RoundingFacts OrderFacts IntegerFacts.

#[local] Open Scope Z_scope.

Lemma signed_positive (z : Z) : 0 < z -> signed_integer_float z = integer_float false z.
Proof. destruct z; try lia. reflexivity. Qed.

(** Halving an even integer is exact. *)
Lemma div2_integer (w : Z) :
  0 < w -> 2 * w < 2 ^ 53 ->
  SF64div (integer_float false (2 * w)) (Prim2SF 2) = integer_float false w.
Proof.
  intros Hw H2.
  change (Prim2SF 2) with (integer_float false 2).
  rewrite div_integer_core by (change (2 ^ 53) with 9007199254740992 in *; lia).
  pose proof (integer_digits w ltac:(lia)) as Dw.
  assert (E2 : Zdigits2 (2 * w) = Zdigits2 w + 1)
    by (rewrite Z.mul_comm; change 2 with (2 ^ 1) at 1; apply Zdigits2_shift; lia).
  rewrite E2. change (Zdigits2 2) with 2. change (2 * 2 ^ (53 - 2)) with (2 ^ 52).
  replace (2 * w * 2 ^ (53 - (Zdigits2 w + 1)) * 2 ^ 53)
    with (w * 2 ^ (54 - Zdigits2 w) * 2 ^ 52).
  2:{ pose proof (integer_digits (2 * w)
                    ltac:(change (2 ^ 53) with 9007199254740992 in *; lia)) as Dw2.
      rewrite E2 in Dw2.
      replace (54 - Zdigits2 w) with ((53 - (Zdigits2 w + 1)) + 2) by lia.
      rewrite Z.pow_add_r by lia. change (2 ^ 53) with (2 ^ 52 * 2).
      change (2 ^ 2) with 4. ring. }
  rewrite Z.div_mul, Z_mod_mult by (change (2 ^ 52) with 4503599627370496; lia).
  rewrite new_location_exact.
  replace (Zdigits2 w + 1 - 2 - 53) with (- (54 - Zdigits2 w)) by lia.
  apply round_integer; [lia|lia].
Qed.

(** The divisor [n * (n - 1) / 2] of line 79 is the number of pairs,
    exactly. *)
Lemma kendall_divisor (n : nat) :
  (2 <= n)%nat -> Z.of_nat n < 2 ^ 26 ->
  Prim2SF (of_nat n * (of_nat n - 1) / 2)
  = integer_float false (Z.of_nat (length (pairs n)))
  /\ 0 < Z.of_nat (length (pairs n)) < 2 ^ 53.
Proof.
  intros Hn Hb. pose proof (KendallFacts.pairs_length n) as Hp.
  change (2 ^ 26) with 67108864 in Hb.
  assert (HP : 0 < Z.of_nat (length (pairs n)) < 2 ^ 53)
    by (change (2 ^ 53) with 9007199254740992; nia).
  split; [|exact HP].
  rewrite div_spec, mul_spec. unfold of_nat.
  change 1%float with (of_Z 1).
  rewrite sub_integer, of_Z_integer
    by (change (2 ^ 53) with 9007199254740992; lia).
  rewrite !signed_positive by lia.
  rewrite mul_integer by (change (2 ^ 53) with 9007199254740992; nia).
  cbn [xorb]. rewrite <- Hp.
  apply div2_integer; [lia|]. change (2 ^ 53) with 9007199254740992 in *. nia.
Qed.

(** At most one unit in the binade of 1: between -1 and 1. *)
Lemma within_unit (s : bool) (m : positive) (e : Z) (M : positive) :
  Zpos M = 2 ^ 52 -> e <= -52 -> Zpos m <= 2 ^ 52 * 2 ^ (-52 - e) ->
  SFleb (S754_finite true M (-52)) (S754_finite s m e) = true
  /\ SFleb (S754_finite s m e) (S754_finite false M (-52)) = true.
Proof.
  intros HM He Hm. unfold SFleb, SFcompare.
  destruct (Z.compare_spec (-52) e) as [<-|Hlt|Hgt]; [|lia|].
  - replace (-52 - -52) with 0 in Hm by lia.
    rewrite Z.mul_1_r, <- HM in Hm.
    rewrite Z.compare_refl.
    fold (Pos.compare M m). fold (Pos.compare m M).
    rewrite (Pos.compare_antisym m M).
    destruct (Pos.compare_spec m M) as [->|H|H];
      destruct s; cbn [CompOpp]; auto; lia.
  - assert (E : (e ?= -52) = Lt) by (apply Z.compare_lt_iff; lia).
    rewrite E. destruct s; auto.
Qed.

Lemma below_unit (s : bool) (m : positive) (e : Z) (M : positive) :
  e <= -53 -> SFltb (S754_finite s m e) (S754_finite false M (-52)) = true.
Proof.
  intros He. unfold SFltb, SFcompare.
  assert (E : (e ?= -52) = Lt) by (apply Z.compare_lt_iff; lia).
  rewrite E. destruct s; reflexivity.
Qed.

(** The quotient of the two counters by the number of pairs. *)
Lemma counters_quotient (c d P : Z) (num den : number) :
  0 <= c -> 0 <= d -> c + d <= P -> 0 < P < 2 ^ 53 ->
  Prim2SF num = signed_integer_float (c - d) ->
  Prim2SF den = integer_float false P ->
  (-1 <=? num / den)%float = true
  /\ (num / den <=? 1)%float = true
  /\ (c - d = P -> (num / den)%float = 1%float)
  /\ (c - d < P -> (num / den <? 1)%float = true).
Proof.
  intros Hc Hd Hcd HP Hnum Hden.
  assert (Eone : (c - d = P -> (num / den)%float = 1%float)).
  { intros E. apply Prim2SF_inj. rewrite div_spec, Hnum, Hden, E.
    rewrite signed_positive by lia. now rewrite div_integer_self by lia. }
  rewrite !leb_spec, ltb_spec, div_spec, Hnum, Hden.
  change (Prim2SF 1) with (S754_finite false 4503599627370496 (-52)).
  change (Prim2SF (-1)) with (S754_finite true 4503599627370496 (-52)).
  destruct (c - d) as [|a|a] eqn:E.
  - change (SF64div (signed_integer_float 0) (integer_float false P))
      with (S754_zero false).
    split; [reflexivity|]. split; [reflexivity|]. split; [exact Eone|].
    intros _; reflexivity.
  - cbn [signed_integer_float].
    destruct (div_integer_le_one false false (Zpos a) P ltac:(lia) ltac:(lia))
      as [H|(m & e & H & He & Hm)].
    + rewrite H. split; [reflexivity|]. split; [reflexivity|]. split; [exact Eone|].
      intros _; reflexivity.
    + destruct (within_unit (xorb false false) m e 4503599627370496 eq_refl He Hm)
        as [H1 H2].
      rewrite H. split; [exact H1|]. split; [exact H2|]. split; [exact Eone|].
      intros Hlt.
      destruct (div_integer_lt_one false false (Zpos a) P ltac:(lia) ltac:(lia))
        as [H'|(m' & e' & H' & He')].
      * rewrite H in H'. discriminate H'.
      * rewrite H in H'. injection H' as -> ->. now apply below_unit.
  - cbn [signed_integer_float].
    destruct (div_integer_le_one true false (Zpos a) P ltac:(lia) ltac:(lia))
      as [H|(m & e & H & He & Hm)].
    + rewrite H. split; [reflexivity|]. split; [reflexivity|]. split; [exact Eone|].
      intros _; reflexivity.
    + destruct (within_unit (xorb true false) m e 4503599627370496 eq_refl He Hm)
        as [H1 H2].
      rewrite H. split; [exact H1|]. split; [exact H2|]. split; [exact Eone|].
      intros _. destruct (Z.le_gt_cases e (-53)) as [He'|He'].
      * now apply below_unit.
      * replace e with (-52) by lia. reflexivity.
Qed.

End QuotientFacts.

Lemma tau_exact_counts (x y : list number) :
  tau_exact x y
  = (inject_Z (count (concordant x y) (pairs (length x))
               - count (discordant x y) (pairs (length x)))
     / (inject_Z (Z.of_nat (length x) * (Z.of_nat (length x) - 1)) / 2))%Q.
Proof.
  unfold tau_exact. rewrite KendallFacts.kendall_counts_spec. reflexivity.
Qed.

Lemma tau_exact_bounds (x y : list number) :
  (2 <= length x)%nat -> (-1 <= tau_exact x y <= 1)%Q.
Proof.
  intros Hn. rewrite tau_exact_counts.
  pose proof (KendallFacts.pairs_length (length x)) as Hp.
  pose proof (KendallFacts.counts_disjoint x y (pairs (length x))) as Hd.
  pose proof (KendallFacts.count_nonneg (concordant x y) (pairs (length x))) as Hc0.
  pose proof (KendallFacts.count_nonneg (discordant x y) (pairs (length x))) as Hd0.
  apply RatioFacts.ratio_bounds; nia.
Qed.

Lemma tau_exact_all_concordant (x : list number) :
  (2 <= length x)%nat ->
  (forall i j, (i < j < length x)%nat ->
     (0 <? (get x j - get x i) * (get x j - get x i)) = true) ->
  (tau_exact x x == 1)%Q.
Proof.
  intros Hn Hall. rewrite tau_exact_counts.
  pose proof (KendallFacts.pairs_length (length x)) as Hp.
  assert (Hc : Forall (fun ij => concordant x x ij = true) (pairs (length x))).
  { apply Forall_forall. intros [i j] Hin. apply KendallFacts.in_pairs in Hin.
    unfold concordant, pair_product; cbn [fst snd]. now apply Hall. }
  assert (Hd : Forall (fun ij => discordant x x ij = false) (pairs (length x))).
  { apply Forall_forall. intros [i j] Hin. apply KendallFacts.in_pairs in Hin.
    unfold discordant, pair_product; cbn [fst snd].
    apply NumberFacts.ltb_zero_antisym. now apply Hall. }
  rewrite (KendallFacts.count_all _ _ Hc), (KendallFacts.count_none _ _ Hd).
  apply RatioFacts.ratio_one; nia.
Qed.

Lemma tau_exact_strictly_increasing (x : list number) :
  (2 <= length x)%nat ->
  (forall i j, (i < j < length x)%nat -> (get x i <? get x j) = true) ->
  (forall i j, (i < j < length x)%nat ->
     ((get x j - get x i) * (get x j - get x i) =? 0) = false) ->
  (tau_exact x x == 1)%Q.
Proof.
  intros Hn Hinc Hnz. apply tau_exact_all_concordant; [exact Hn|].
  intros i j Hij. apply NumberFacts.increasing_square_positive; auto.
Qed.


(** ** Kendall: the coefficient returned *)

Module ValueFacts.
Import RoundingFacts OrderFacts IntegerFacts QuotientFacts.
#[local] Open Scope Z_scope.

(** A number that is [integer_float] of [w] holds the integer [w]. *)
Lemma integer_float_value (s : bool) (w : Z) (v : number) :
  0 < w < 2 ^ 53 ->
  Prim2SF v = integer_float s w ->
  integer_value v = Some (if s then - w else w).
Proof.
  intros Hw Hv. unfold integer_value. rewrite Hv. unfold integer_float.
  destruct (integer_mantissa w Hw) as (Em & _ & _).
  pose proof (integer_digits w Hw) as Hd.
  cbv zeta. rewrite Em.
  destruct (0 <=? Zdigits2 w - 53) eqn:E.
  - apply Z.leb_le in E. replace (Zdigits2 w - 53) with 0 by lia.
    replace (53 - Zdigits2 w) with 0 by lia.
    rewrite Z.shiftl_0_r, Z.mul_1_r. reflexivity.
  - replace (- (Zdigits2 w - 53)) with (53 - Zdigits2 w) by lia.
    assert (Hp : 0 < 2 ^ (53 - Zdigits2 w)) by (apply Z.pow_pos_nonneg; lia).
    rewrite Z_mod_mult. cbn [Z.eqb].
    rewrite Z.shiftr_div_pow2 by lia. rewrite Z.div_mul by lia. reflexivity.
Qed.

Lemma signed_integer_value (z : Z) (v : number) :
  - 2 ^ 53 < z < 2 ^ 53 ->
  Prim2SF v = signed_integer_float z ->
  integer_value v = Some z.
Proof.
  intros Hz Hv. destruct z as [|p|p]; cbn [signed_integer_float] in Hv.
  - unfold integer_value. now rewrite Hv.
  - now rewrite (integer_float_value false (Zpos p) v) by (assumption || lia).
  - rewrite (integer_float_value true (Zpos p) v) by (assumption || lia).
    reflexivity.
Qed.

End ValueFacts.

(** What [calculateKendallTau] returns for fewer than 2^26 values.  Below
    that length the two counters, their difference and the divisor are
    integers below 2^53, which the numbers of the code hold exactly; the
    coefficient is the quotient of these two numbers. *)
Lemma kendall_returned rt (x y : list number) :
  (2 <= length x)%nat -> (Z.of_nat (length x) < 2 ^ 26)%Z ->
  exists res,
    calculateKendallTau rt x y = Normal res
    /\ coefficient res
       = (of_Z (count (concordant x y) (pairs (length x)))
          - of_Z (count (discordant x y) (pairs (length x))))
         / (of_nat (length x) * (of_nat (length x) - 1) / 2)
    /\ integer_value (of_Z (count (concordant x y) (pairs (length x)))
                      - of_Z (count (discordant x y) (pairs (length x))))
       = Some (count (concordant x y) (pairs (length x))
               - count (discordant x y) (pairs (length x)))%Z
    /\ integer_value (of_nat (length x) * (of_nat (length x) - 1) / 2)
       = Some (Z.of_nat (length (pairs (length x))))
    /\ (-1 <=? coefficient res) = true
    /\ (coefficient res <=? 1) = true
    /\ ((count (concordant x y) (pairs (length x))
         - count (discordant x y) (pairs (length x))
         = Z.of_nat (length (pairs (length x))))%Z -> coefficient res = 1)
    /\ ((count (concordant x y) (pairs (length x))
         - count (discordant x y) (pairs (length x))
         < Z.of_nat (length (pairs (length x))))%Z ->
        (coefficient res <? 1) = true).
Proof.
  intros Hn Hb. unfold calculateKendallTau.
  rewrite KendallFacts.kendall_counts_spec.
  eexists; split; [reflexivity|]. cbn [coefficient]. split; [reflexivity|].
  set (C := count (concordant x y) (pairs (length x))).
  set (D := count (discordant x y) (pairs (length x))).
  pose proof (KendallFacts.counts_disjoint x y (pairs (length x))) as Hcd.
  pose proof (KendallFacts.count_nonneg (concordant x y) (pairs (length x))) as Hc0.
  pose proof (KendallFacts.count_nonneg (discordant x y) (pairs (length x))) as Hd0.
  fold C in Hcd, Hc0. fold D in Hcd, Hd0.
  destruct (QuotientFacts.kendall_divisor (length x) Hn Hb) as [Hden HP].
  set (P := Z.of_nat (length (pairs (length x)))) in *.
  assert (Hnum : Prim2SF (of_Z C - of_Z D) = signed_integer_float (C - D))
    by (apply IntegerFacts.sub_integer; lia).
  split; [apply ValueFacts.signed_integer_value; [lia|exact Hnum]|].
  split; [apply (ValueFacts.integer_float_value false P); [lia|exact Hden]|].
  apply (QuotientFacts.counters_quotient C D P); auto.
Qed.

Lemma kendall_returned_bounds rt (x y : list number) :
  (2 <= length x)%nat -> (Z.of_nat (length x) < 2 ^ 26)%Z ->
  exists res,
    calculateKendallTau rt x y = Normal res
    /\ integer_value (of_Z (count (concordant x y) (pairs (length x)))
                      - of_Z (count (discordant x y) (pairs (length x))))
       = Some (count (concordant x y) (pairs (length x))
               - count (discordant x y) (pairs (length x)))%Z
    /\ integer_value (of_nat (length x) * (of_nat (length x) - 1) / 2)
       = Some (Z.of_nat (length (pairs (length x))))
    /\ (-1 <=? coefficient res) = true
    /\ (coefficient res <=? 1) = true.
Proof.
  intros Hn Hb.
  destruct (kendall_returned rt x y Hn Hb) as (res & H & _ & Hv & Hw & Hl & Hu & _).
  exists res. auto.
Qed.

Lemma kendall_returned_all_concordant rt (x : list number) :
  (2 <= length x)%nat -> (Z.of_nat (length x) < 2 ^ 26)%Z ->
  (forall i j, (i < j < length x)%nat -> (get x i <? get x j) = true) ->
  (forall i j, (i < j < length x)%nat ->
     ((get x j - get x i) * (get x j - get x i) =? 0) = false) ->
  exists res, calculateKendallTau rt x x = Normal res /\ coefficient res = 1.
Proof.
  intros Hn Hb Hinc Hnz.
  destruct (kendall_returned rt x x Hn Hb) as (res & H & _ & _ & _ & _ & _ & Hone & _).
  exists res. split; [exact H|]. apply Hone.
  assert (Hc : Forall (fun ij => concordant x x ij = true) (pairs (length x))).
  { apply Forall_forall. intros [i j] Hin. apply KendallFacts.in_pairs in Hin.
    unfold concordant, pair_product; cbn [fst snd].
    now apply NumberFacts.increasing_square_positive; auto. }
  assert (Hd : Forall (fun ij => discordant x x ij = false) (pairs (length x))).
  { apply Forall_forall. intros [i j] Hin. apply KendallFacts.in_pairs in Hin.
    unfold discordant, pair_product; cbn [fst snd].
    apply NumberFacts.ltb_zero_antisym.
    now apply NumberFacts.increasing_square_positive; auto. }
  rewrite (KendallFacts.count_all _ _ Hc), (KendallFacts.count_none _ _ Hd). lia.
Qed.


(** C8, as the code has it.  For n >= 2 the coefficient is the quotient of
    C - D by n (n - 1) / 2, C and D counting the pairs i < j whose product
    (x[j] - x[i]) (y[j] - y[i]) is above, respectively below, zero.  For
    fewer than 2^26 values the two operands of that division hold C - D and
    the number of pairs exactly, and the coefficient returned lies in
    [-1, 1]; it is exactly 1 when a strictly increasing x is paired with
    itself, provided no square (x[j] - x[i])^2 underflows to 0.
    ([tau_exact] is the same quotient in exact arithmetic, for every
    length.) *)
Theorem kendall_tau_quotient_of_counts :
  (forall rt (x y : list number),
      (2 <= length x)%nat ->
      exists res,
        calculateKendallTau rt x y = Normal res
        /\ coefficient res
           = (of_Z (count (concordant x y) (pairs (length x)))
              - of_Z (count (discordant x y) (pairs (length x))))
             / (of_nat (length x) * (of_nat (length x) - 1) / 2)
        /\ tau_exact x y
           = (inject_Z (count (concordant x y) (pairs (length x))
                        - count (discordant x y) (pairs (length x)))
              / (inject_Z (Z.of_nat (length x) * (Z.of_nat (length x) - 1)) / 2))%Q
        /\ (-1 <= tau_exact x y <= 1)%Q)
  /\ (forall rt (x y : list number),
        (2 <= length x)%nat -> (Z.of_nat (length x) < 2 ^ 26)%Z ->
        exists res,
          calculateKendallTau rt x y = Normal res
          /\ integer_value (of_Z (count (concordant x y) (pairs (length x)))
                            - of_Z (count (discordant x y) (pairs (length x))))
             = Some (count (concordant x y) (pairs (length x))
                     - count (discordant x y) (pairs (length x)))%Z
          /\ integer_value (of_nat (length x) * (of_nat (length x) - 1) / 2)
             = Some (Z.of_nat (length (pairs (length x))))
          /\ (-1 <=? coefficient res) = true
          /\ (coefficient res <=? 1) = true)
  /\ (forall rt (x : list number),
        (2 <= length x)%nat -> (Z.of_nat (length x) < 2 ^ 26)%Z ->
        (forall i j, (i < j < length x)%nat -> (get x i <? get x j) = true) ->
        (forall i j, (i < j < length x)%nat ->
           ((get x j - get x i) * (get x j - get x i) =? 0) = false) ->
        exists res,
          calculateKendallTau rt x x = Normal res /\ coefficient res = 1)
  /\ (forall x : list number,
        (2 <= length x)%nat ->
        (forall i j, (i < j < length x)%nat -> (get x i <? get x j) = true) ->
        (forall i j, (i < j < length x)%nat ->
           ((get x j - get x i) * (get x j - get x i) =? 0) = false) ->
        (tau_exact x x == 1)%Q)
  /\ (exists res,
        calculateKendallTau (reference ConstIsImmutable) [1; 2; 3; 4] [1; 2; 3; 4]
        = Normal res
        /\ coefficient res = 1).
Proof.
  split; [|split; [|split; [|split]]].
  - intros rt x y Hn. unfold calculateKendallTau.
    rewrite KendallFacts.kendall_counts_spec.
    eexists; split; [reflexivity|]. cbn [coefficient].
    split; [reflexivity|]. split; [apply tau_exact_counts|now apply tau_exact_bounds].
  - exact kendall_returned_bounds.
  - exact kendall_returned_all_concordant.
  - exact tau_exact_strictly_increasing.
  - eexists; split; vm_compute; reflexivity.
Qed.

Lemma kendall_tau_quotient_of_counts_witness :
  exists res,
    calculateKendallTau (reference ConstIsVar) [1; 2; 3; 4] [1; 2; 3; 4] = Normal res
    /\ coefficient res = 1.
Proof.
  assert (Hcases : forall i j, (i < j < 4)%nat ->
            (i = 0 \/ i = 1 \/ i = 2)%nat /\ (j = 1 \/ j = 2 \/ j = 3)%nat)
    by (intros; lia).
  apply (proj1 (proj2 (proj2 kendall_tau_quotient_of_counts))
           (reference ConstIsVar) [1; 2; 3; 4]).
  - simpl; lia.
  - reflexivity.
  - intros i j Hij. simpl in Hij. destruct (Hcases i j Hij) as [Hi Hj].
    destruct Hi as [->|[->| ->]], Hj as [->|[->| ->]];
      solve [ vm_compute; reflexivity | lia ].
  - intros i j Hij. simpl in Hij. destruct (Hcases i j Hij) as [Hi Hj].
    destruct Hi as [->|[->| ->]], Hj as [->|[->| ->]];
      solve [ vm_compute; reflexivity | lia ].
Defined.

(** C8 as stated fails in its last part: [0, 2^-600] is strictly increasing,
    the square of the difference underflows to 0, no pair is counted and
    the coefficient returned is 0. *)
Lemma kendall_tau_underflow_not_one :
  (0 <? 0x1p-600) = true
  /\ (exists res,
        calculateKendallTau (reference ConstIsImmutable) [0; 0x1p-600] [0; 0x1p-600]
        = Normal res
        /\ coefficient res = 0
        /\ (coefficient res =? 1) = false)
  /\ kendall_counts [0; 0x1p-600] [0; 0x1p-600] = (0, 0)%Z
  /\ Qeq (tau_exact [0; 0x1p-600] [0; 0x1p-600]) 0%Q.
Proof.
  split; [vm_compute; reflexivity|].
  split; [eexists; repeat split; vm_compute; reflexivity|].
  split; vm_compute; reflexivity.
Qed.



(** ** Ranks *)

Module RankFacts.

Import OrderFacts.

Lemma insert_In (u v : number) (l : list number) :
  In u (insert v l) <-> u = v \/ In u l.
Proof.
  induction l as [|a l IH]; simpl.
  - intuition.
  - destruct (v - a <? 0); simpl; rewrite ?IH; intuition.
Qed.

Lemma insert_length (v : number) (l : list number) :
  length (insert v l) = S (length l).
Proof.
  induction l as [|a l IH]; simpl; auto.
  destruct (v - a <? 0); simpl; auto.
Qed.

Lemma ascending_fold_In (u : number) (values acc : list number) :
  In u (fold_left (fun sorted v => insert v sorted) values acc)
  <-> In u values \/ In u acc.
Proof.
  revert acc; induction values as [|v values IH]; intros acc; simpl.
  - intuition.
  - rewrite IH, insert_In. intuition.
Qed.

(** The sorted copy holds the values, no other and no fewer. *)
Lemma ascending_In (u : number) (values : list number) :
  In u (ascending values) <-> In u values.
Proof.
  unfold ascending. rewrite ascending_fold_In. simpl. intuition.
Qed.

Lemma insert_Permutation (v : number) (l : list number) :
  Permutation (v :: l) (insert v l).
Proof.
  induction l as [|a l IH]; simpl; auto.
  destruct (v - a <? 0); auto.
  rewrite perm_swap. now constructor.
Qed.

(** The sorted copy is a rearrangement of the values. *)
Lemma ascending_Permutation (values : list number) :
  Permutation values (ascending values).
Proof.
  unfold ascending.
  assert (H : forall l acc,
             Permutation (l ++ acc)
                         (fold_left (fun sorted v => insert v sorted) l acc)).
  { induction l as [|v l IH]; intros acc; simpl; auto.
    rewrite <- IH. rewrite <- insert_Permutation. apply Permutation_middle. }
  specialize (H values []). now rewrite app_nil_r in H.
Qed.

Lemma ascending_length (values : list number) :
  length (ascending values) = length values.
Proof.
  symmetry. apply Permutation_length, ascending_Permutation.
Qed.

(** Without a NaN the comparator is consistent, and the sort is the
    ascending one on every run time. *)
Lemma sort_consistent (rt : Runtime.t) (values : list number) :
  Forall (fun v => (v =? v) = true) values -> sort rt values = ascending values.
Proof.
  intros H. unfold sort.
  replace (forallb (fun v => v =? v) values) with true; [reflexivity|].
  symmetry. apply forallb_forall. now apply Forall_forall.
Qed.

(** Insertion keeps the list in the order of the numbers. *)
Lemma insert_sorted (v : number) (l : list number) :
  (v =? v) = true -> Forall (fun a => (a =? a) = true) l ->
  StronglySorted (fun a b => (number_key a <= number_key b)%Z) l ->
  StronglySorted (fun a b => (number_key a <= number_key b)%Z) (insert v l).
Proof.
  intros Hv Hl Hs. induction Hs as [|a l Hs IH Ha]; cbn [insert].
  - constructor; constructor.
  - inversion Hl as [|? ? Hna Hl']; subst.
    rewrite (comparator_key v a Hv Hna).
    destruct (Z.ltb_spec (number_key v) (number_key a)) as [Hlt|Hge].
    + constructor; [now constructor|].
      constructor; [lia|].
      apply Forall_forall. intros u Hu. rewrite Forall_forall in Ha.
      specialize (Ha u Hu). lia.
    + constructor; [now apply IH|].
      apply Forall_forall. intros u Hu. apply insert_In in Hu as [->|Hu]; [lia|].
      rewrite Forall_forall in Ha. now apply Ha.
Qed.

Lemma ascending_sorted (values : list number) :
  Forall (fun v => (v =? v) = true) values ->
  StronglySorted (fun a b => (number_key a <= number_key b)%Z) (ascending values).
Proof.
  unfold ascending.
  assert (H : forall l acc,
             Forall (fun v => (v =? v) = true) l ->
             Forall (fun v => (v =? v) = true) acc ->
             StronglySorted (fun a b => (number_key a <= number_key b)%Z) acc ->
             StronglySorted (fun a b => (number_key a <= number_key b)%Z)
               (fold_left (fun sorted v => insert v sorted) l acc)).
  { induction l as [|v l IH]; intros acc Hl Hacc Hs; simpl; auto.
    inversion Hl as [|? ? Hv Hl']; subst.
    apply IH; [exact Hl'| |now apply insert_sorted].
    apply Forall_forall. intros u Hu. apply insert_In in Hu as [->|Hu]; auto.
    rewrite Forall_forall in Hacc. now apply Hacc. }
  intros Hl. apply H; [exact Hl|constructor|constructor].
Qed.

Lemma sorted_nth (l : list number) (j k : nat) :
  StronglySorted (fun a b => (number_key a <= number_key b)%Z) l ->
  (j < k < length l)%nat ->
  (number_key (nth j l nan) <= number_key (nth k l nan))%Z.
Proof.
  intros Hs. revert j k. induction Hs as [|a l Hs IH Ha]; intros j k Hjk.
  - simpl in Hjk; lia.
  - destruct k as [|k]; [lia|]. cbn [length] in Hjk. destruct j as [|j]; cbn [nth].
    + rewrite Forall_forall in Ha. apply Ha, nth_In. lia.
    + apply IH. lia.
Qed.

(** In a sorted list the first index of a value is the number of values
    below it. *)
Lemma sorted_count_below (l : list number) (kv : Z) :
  StronglySorted (fun a b => (number_key a <= number_key b)%Z) l ->
  forall k : nat,
    (k < length l)%nat ->
    number_key (nth k l nan) = kv ->
    (forall j, (j < k)%nat -> number_key (nth j l nan) <> kv) ->
    count (fun u => (number_key u <? kv)%Z) l = Z.of_nat k.
Proof.
  intros Hs. induction Hs as [|a l Hs IH Ha]; intros k Hk Hv Hfirst.
  - simpl in Hk; lia.
  - rewrite Forall_forall in Ha. destruct k as [|k]; cbn [nth] in Hv.
    + apply KendallFacts.count_none. constructor.
      * apply Z.ltb_ge. lia.
      * apply Forall_forall. intros u Hu. apply Z.ltb_ge.
        specialize (Ha u Hu). lia.
    + cbn [length] in Hk.
      assert (Hlt : (number_key a < kv)%Z).
      { pose proof (Hfirst 0%nat ltac:(lia)) as H0. cbn [nth] in H0.
        pose proof (Ha (nth k l nan) ltac:(apply nth_In; lia)). lia. }
      specialize (IH k ltac:(lia) Hv
                    ltac:(intros j Hj; apply (Hfirst (S j)); lia)).
      unfold count in *. cbn [filter].
      destruct (Z.ltb_spec (number_key a) kv); [|lia].
      cbn [length]. lia.
Qed.

Lemma count_Permutation {A} (p : A -> bool) (l l' : list A) :
  Permutation l l' -> count p l = count p l'.
Proof.
  unfold count. intros H. induction H as [|a l l' H IH|a b l|l l' l'' H IH H' IH'];
    cbn [filter]; auto.
  - destruct (p a); cbn [length]; lia.
  - destruct (p a), (p b); reflexivity.
  - lia.
Qed.

Lemma count_ext_in {A} (p q : A -> bool) (l : list A) :
  (forall a, In a l -> p a = q a) -> count p l = count q l.
Proof.
  intros H. unfold count. induction l as [|a l IH]; [reflexivity|].
  cbn [filter]. rewrite (H a (or_introl eq_refl)).
  assert (IH' : length (filter p l) = length (filter q l))
    by (apply Nat2Z.inj, IH; intros b Hb; apply H; now right).
  destruct (q a); cbn [length]; lia.
Qed.

(** [indexOf] is -1 when nothing is [===] to [v], and otherwise the first
    index that is. *)
Lemma indexOf_spec (l : list number) (v : number) :
  (indexOf l v = (-1)%Z /\ Forall (fun a => (a =? v) = false) l)
  \/ (exists k, indexOf l v = Z.of_nat k /\ (k < length l)%nat
                /\ (nth k l nan =? v) = true
                /\ forall j, (j < k)%nat -> (nth j l nan =? v) = false).
Proof.
  induction l as [|a l IH]; simpl.
  - left; split; auto.
  - destruct (a =? v) eqn:Ea.
    + right. exists 0%nat. split; [reflexivity|]. split; [lia|].
      split; [exact Ea|]. intros j Hj; lia.
    + destruct IH as [[-> Hall]|[k (-> & Hk & Hv & Hfirst)]].
      * left. split; auto.
      * right. exists (S k).
        destruct (Z.of_nat k <? 0)%Z eqn:E; [apply Z.ltb_lt in E; lia|].
        split; [lia|]. split; [lia|]. split; [exact Hv|].
        intros [|j] Hj; [exact Ea|]. apply Hfirst; lia.
Qed.

Lemma indexOf_congr (l : list number) (v w : number) :
  (v =? w) = true -> indexOf l v = indexOf l w.
Proof.
  intros H. induction l as [|a l IH]; simpl; auto.
  rewrite (NumberFacts.eqb_congr a v w H), IH. reflexivity.
Qed.

Lemma rank_positions_nth (rt : Runtime.t) (values : list number) (i : nat) :
  (i < length values)%nat ->
  nth i (rank_positions rt values) 0%Z
  = (indexOf (sort rt values) (get values i) + 1)%Z.
Proof.
  intros Hi. unfold rank_positions, get.
  rewrite (nth_indep _ 0%Z ((fun v => (indexOf (sort rt values) v + 1)%Z) nan))
    by now rewrite length_map.
  now rewrite (map_nth (fun v => (indexOf (sort rt values) v + 1)%Z)).
Qed.

(** The rank of a value of an array without NaN: its first index in the
    ascending copy, which is the number of values below it. *)
Lemma rank_first_index (rt : Runtime.t) (values : list number) (i : nat) :
  Forall (fun v => (v =? v) = true) values ->
  (i < length values)%nat ->
  exists k : nat,
    nth i (rank_positions rt values) 0%Z = (Z.of_nat k + 1)%Z
    /\ (k < length values)%nat
    /\ (nth k (sort rt values) nan =? get values i) = true
    /\ (forall j, (j < k)%nat -> (nth j (sort rt values) nan =? get values i) = false)
    /\ count (fun u => u <? get values i) values = Z.of_nat k.
Proof.
  intros Hnum Hi. rewrite rank_positions_nth by exact Hi.
  rewrite (sort_consistent rt values Hnum).
  assert (Hv : (get values i =? get values i) = true).
  { rewrite Forall_forall in Hnum. apply Hnum, nth_In, Hi. }
  assert (Hsn : Forall (fun v => (v =? v) = true) (ascending values)).
  { apply Forall_forall. intros u Hu. apply (proj1 (ascending_In u values)) in Hu.
    rewrite Forall_forall in Hnum. now apply Hnum. }
  destruct (indexOf_spec (ascending values) (get values i))
    as [[_ Hall]|[k (Hk & Hlen & Hkv & Hfirst)]].
  - exfalso. rewrite Forall_forall in Hall.
    assert (Hin : In (get values i) (ascending values))
      by (apply (proj2 (ascending_In _ values)), nth_In, Hi).
    rewrite (Hall _ Hin) in Hv. discriminate.
  - exists k. rewrite Hk. split; [reflexivity|].
    split; [now rewrite ascending_length in Hlen|].
    split; [exact Hkv|]. split; [exact Hfirst|].
    rewrite (count_Permutation _ _ _ (ascending_Permutation values)).
    rewrite (count_ext_in _ (fun u => (number_key u <? number_key (get values i))%Z)).
    + apply sorted_count_below; [now apply ascending_sorted|exact Hlen| |].
      * apply Z.eqb_eq. rewrite <- eqb_key; [exact Hkv| |exact Hv].
        rewrite Forall_forall in Hsn. apply Hsn, nth_In, Hlen.
      * intros j Hj. apply Z.eqb_neq. rewrite <- eqb_key; [now apply Hfirst| |exact Hv].
        rewrite Forall_forall in Hsn. apply Hsn, nth_In. lia.
    + intros u Hu. apply ltb_key; [|exact Hv].
      rewrite Forall_forall in Hsn. now apply Hsn.
Qed.

(** The ascending copy is in the order of [<]. *)
Lemma ascending_order (values : list number) (j k : nat) :
  Forall (fun v => (v =? v) = true) values ->
  (j < k < length values)%nat ->
  (nth k (ascending values) nan <? nth j (ascending values) nan) = false.
Proof.
  intros Hnum Hjk.
  assert (Hsn : forall n, (n < length values)%nat ->
                  (nth n (ascending values) nan =? nth n (ascending values) nan) = true).
  { intros n Hn. rewrite Forall_forall in Hnum.
    apply Hnum, (proj1 (ascending_In _ values)), nth_In.
    now rewrite ascending_length. }
  rewrite ltb_key by (apply Hsn; lia). apply Z.ltb_ge.
  apply sorted_nth; [now apply ascending_sorted|]. now rewrite ascending_length.
Qed.

End RankFacts.

(** C3, as the code has it.  The rank of a value is one more than the
    first index of the sorted copy that holds a number [===] to it (0 when
    none does, which is the case of NaN), so the values of a tie all get
    the same rank.  In an array without NaN, where the order of the sorted
    copy is defined, the copy is the values in ascending order and the rank
    of a value is one more than the number of values below it: the values
    of a tie all receive the lowest rank position of their group, not the
    mean of the positions the group occupies.  [1,2,2,3] is ranked
    [1,2,2,4], and [30,10,20,10] is ranked [4,1,3,1]. *)
Theorem calculateRanks_first_occurrence :
  (forall rt (values : list number),
      Forall (fun v => (v =? v) = true) values ->
      Permutation values (sort rt values)
      /\ (forall j k, (j < k < length values)%nat ->
            (nth k (sort rt values) nan <? nth j (sort rt values) nan) = false)
      /\ (forall i, (i < length values)%nat ->
            (exists k : nat,
               nth i (rank_positions rt values) 0%Z = (Z.of_nat k + 1)%Z
               /\ (k < length values)%nat
               /\ (nth k (sort rt values) nan =? get values i) = true
               /\ forall j, (j < k)%nat ->
                    (nth j (sort rt values) nan =? get values i) = false)
            /\ nth i (rank_positions rt values) 0%Z
               = (1 + count (fun u => (u <? get values i)%float) values)%Z))
  /\ (forall rt (values : list number) (i : nat),
        (i < length values)%nat ->
        (nth i (rank_positions rt values) 0%Z = 0%Z
         /\ Forall (fun a => (a =? get values i) = false) (sort rt values))
        \/ (exists k : nat,
              nth i (rank_positions rt values) 0%Z = (Z.of_nat k + 1)%Z
              /\ (k < length (sort rt values))%nat
              /\ (nth k (sort rt values) nan =? get values i) = true
              /\ forall j, (j < k)%nat ->
                   (nth j (sort rt values) nan =? get values i) = false))
  /\ (forall rt (values : list number) (i j : nat),
        (i < length values)%nat -> (j < length values)%nat ->
        (get values i =? get values j) = true ->
        nth i (rank_positions rt values) 0%Z = nth j (rank_positions rt values) 0%Z)
  /\ (forall rt (values : list number),
        calculateRanks rt values = map of_Z (rank_positions rt values))
  /\ (forall rt (x y : list number),
        calculateSpearmanCorrelation rt x y
        = calculatePearsonCorrelation rt (calculateRanks rt x) (calculateRanks rt y))
  /\ (forall rt,
        calculateRanks rt [1; 2; 2; 3] = [1; 2; 2; 4]
        /\ calculateRanks rt [30; 10; 20; 10] = [4; 1; 3; 1]).
Proof.
  split; [|split; [|split; [|split; [|split]]]].
  - intros rt values Hnum. split; [|split].
    + rewrite (RankFacts.sort_consistent rt values Hnum).
      apply RankFacts.ascending_Permutation.
    + intros j k Hjk. rewrite (RankFacts.sort_consistent rt values Hnum).
      now apply RankFacts.ascending_order.
    + intros i Hi.
      destruct (RankFacts.rank_first_index rt values i Hnum Hi)
        as (k & Hr & Hk & Hv & Hfirst & Hc).
      split; [exists k; auto|]. rewrite Hr, Hc. lia.
  - intros rt values i Hi. rewrite RankFacts.rank_positions_nth by exact Hi.
    destruct (RankFacts.indexOf_spec (sort rt values) (get values i))
      as [[-> Hall]|[k (-> & Hk)]].
    + left. split; [reflexivity|exact Hall].
    + right. exists k. split; [reflexivity|exact Hk].
  - intros rt values i j Hi Hj Heq.
    rewrite !RankFacts.rank_positions_nth by assumption.
    now rewrite (RankFacts.indexOf_congr _ _ _ Heq).
  - reflexivity.
  - reflexivity.
  - intros rt. split; vm_compute; reflexivity.
Qed.

Lemma calculateRanks_first_occurrence_witness :
  nth 0 (rank_positions (reference ConstIsVar) [30; 10; 20; 10]) 0%Z
  = Z.add 1 (count (fun u => u <? get [30; 10; 20; 10] 0) [30; 10; 20; 10]).
Proof.
  apply (proj1 calculateRanks_first_occurrence (reference ConstIsVar)
           [30; 10; 20; 10]).
  - repeat constructor.
  - simpl; lia.
Defined.

(** C3 as stated fails: the two 2 of [1,2,2,3] occupy positions 2 and 3,
    whose mean is 2.5; the code ranks both 2. *)
Lemma calculateRanks_tie_not_averaged :
  calculateRanks (reference ConstIsVar) [1; 2; 2; 3] = [1; 2; 2; 4]
  /\ Specified.averageRanks [1; 2; 2; 3] = [1; 2.5; 2.5; 4]
  /\ calculateRanks (reference ConstIsVar) [1; 2; 2; 3]
     <> Specified.averageRanks [1; 2; 2; 3].
Proof.
  split; [vm_compute; reflexivity|]. split; [vm_compute; reflexivity|].
  intros H. apply (f_equal (fun l => get l 1 =? 2)) in H.
  vm_compute in H. discriminate.
Qed.

(** * Further properties of the two classes *)

Import MultipleCorrelation SignalToolkit.

(** ** Numbers: NaN, the infinities and the zeros *)

Module SpecialValues.

Lemma SFmul_comm (A B : spec_float) : SF64mul A B = SF64mul B A.
Proof.
  unfold SF64mul, SFmul.
  destruct A as [sa|sa| |sa ma ea], B as [sb|sb| |sb mb eb];
    try reflexivity; try (now rewrite xorb_comm).
  now rewrite xorb_comm, Pos.mul_comm, Z.add_comm.
Qed.

(** Multiplication commutes, bit for bit. *)
Lemma mul_comm (a b : number) : a * b = b * a.
Proof.
  apply Prim2SF_inj. rewrite !mul_spec. apply SFmul_comm.
Qed.

Lemma Prim2SF_nan_inv (v : number) : Prim2SF v = S754_nan -> v = nan.
Proof.
  intros H. apply Prim2SF_inj. rewrite H. reflexivity.
Qed.

Lemma mul_nan_l (v : number) : nan * v = nan.
Proof.
  apply Prim2SF_nan_inv. rewrite mul_spec.
  change (Prim2SF nan) with S754_nan. reflexivity.
Qed.

Lemma SFeqb_refl (V : spec_float) : V <> S754_nan -> SFeqb V V = true.
Proof.
  unfold SFeqb, SFcompare. destruct V as [s|s| |s m e]; try congruence; intros _.
  - destruct s; reflexivity.
  - rewrite Z.compare_refl. fold (Pos.compare m m). rewrite Pos.compare_refl.
    destruct s; reflexivity.
Qed.

(** NaN is [===] to nothing. *)
Lemma eqb_nan_r (a v : number) : (v =? v) = false -> (a =? v) = false.
Proof.
  rewrite !eqb_spec. intros H.
  destruct (Prim2SF v) as [s|s| |s m e] eqn:E;
    try (rewrite SFeqb_refl in H by discriminate; discriminate).
  unfold SFeqb, SFcompare. destruct (Prim2SF a); reflexivity.
Qed.

Lemma ltb_nan_l (a v : number) : (v =? v) = false -> (v <? a) = false.
Proof.
  rewrite eqb_spec, ltb_spec. intros H.
  destruct (Prim2SF v) as [s|s| |s m e] eqn:E;
    try (rewrite SFeqb_refl in H by discriminate; discriminate).
  reflexivity.
Qed.

(** What is not finite stays so through [*] and [+]. *)
Lemma mul_not_finite_l (a b : number) :
  is_finite a = false -> is_finite (a * b) = false.
Proof.
  unfold is_finite. rewrite mul_spec. unfold SF64mul, SFmul.
  destruct (Prim2SF a) as [sa|sa| |sa ma ea], (Prim2SF b) as [sb|sb| |sb mb eb];
    intros H; try discriminate H; reflexivity.
Qed.

Lemma mul_not_finite_r (a b : number) :
  is_finite b = false -> is_finite (a * b) = false.
Proof.
  rewrite mul_comm. apply mul_not_finite_l.
Qed.

Lemma add_not_finite_l (a b : number) :
  is_finite a = false -> is_finite (a + b) = false.
Proof.
  unfold is_finite. rewrite add_spec. unfold SF64add, SFadd.
  destruct (Prim2SF a) as [sa|sa| |sa ma ea], (Prim2SF b) as [sb|sb| |sb mb eb];
    intros H; try discriminate H; try reflexivity; destruct sa, sb; reflexivity.
Qed.

Lemma add_not_finite_r (a b : number) :
  is_finite b = false -> is_finite (a + b) = false.
Proof.
  unfold is_finite. rewrite add_spec. unfold SF64add, SFadd.
  destruct (Prim2SF a) as [sa|sa| |sa ma ea], (Prim2SF b) as [sb|sb| |sb mb eb];
    intros H; try discriminate H; try reflexivity; destruct sa, sb; reflexivity.
Qed.

(** The difference of two equal numbers is a zero or NaN ... *)
Lemma sub_tie (v w : number) :
  v = w \/ (v =? w) = true ->
  (exists s, Prim2SF (w - v) = S754_zero s) \/ Prim2SF (w - v) = S754_nan.
Proof.
  intros H. rewrite sub_spec.
  assert (Hs : Prim2SF v = Prim2SF w \/ SFeqb (Prim2SF v) (Prim2SF w) = true).
  { destruct H as [->|H]; [left; reflexivity|right; now rewrite <- eqb_spec]. }
  clear H.
  destruct (Prim2SF v) as [sv| sv | |sv mv ev], (Prim2SF w) as [sw|sw| |sw mw ew];
    destruct Hs as [Hs|Hs]; try discriminate Hs;
    try (right; reflexivity);
    try (destruct sv, sw; try discriminate Hs;
         solve [right; reflexivity | left; eexists; reflexivity]).
  - injection Hs as -> -> ->. rewrite NumberFacts.SF64sub_diag. left; eexists; reflexivity.
  - apply NumberFacts.SFeqb_finite_inv in Hs as (-> & -> & ->).
    rewrite NumberFacts.SF64sub_diag. left; eexists; reflexivity.
Qed.

(** ... and no quotient by a zero or by NaN is finite. *)
Lemma div_by_zero_or_nan (a d : number) :
  (exists s, Prim2SF d = S754_zero s) \/ Prim2SF d = S754_nan ->
  is_finite (a / d) = false.
Proof.
  unfold is_finite. rewrite div_spec. unfold SF64div, SFdiv.
  intros [[s ->]| ->]; destruct (Prim2SF a); reflexivity.
Qed.

(** Only NaN is not [===] to itself. *)
Lemma eqb_irrefl_nan (v : number) : (v =? v) = false -> v = nan.
Proof.
  rewrite eqb_spec. intros H. apply Prim2SF_nan_inv.
  destruct (Prim2SF v) as [s|s| |s m e] eqn:E; try reflexivity;
    rewrite SFeqb_refl in H by discriminate; discriminate.
Qed.

Lemma sub_nan_l (v : number) : nan - v = nan.
Proof.
  apply Prim2SF_nan_inv. rewrite sub_spec.
  change (Prim2SF nan) with S754_nan. reflexivity.
Qed.

Lemma sub_nan_r (v : number) : v - nan = nan.
Proof.
  apply Prim2SF_nan_inv. rewrite sub_spec.
  change (Prim2SF nan) with S754_nan. destruct (Prim2SF v); reflexivity.
Qed.

Lemma div_nan_l (v : number) : nan / v = nan.
Proof.
  apply Prim2SF_nan_inv. rewrite div_spec.
  change (Prim2SF nan) with S754_nan. reflexivity.
Qed.

(** What is [===] to 0 is one of the two zeros. *)
Lemma eqb_zero_inv (v : number) :
  (v =? 0) = true -> exists s, Prim2SF v = S754_zero s.
Proof.
  rewrite eqb_spec. change (Prim2SF 0) with (S754_zero false).
  destruct (Prim2SF v) as [s|s| |s m e]; intros H; try discriminate H.
  - eexists; reflexivity.
  - destruct s; discriminate H.
  - destruct s; discriminate H.
Qed.

(** [x - x] is +0 for every finite [x]. *)
Lemma sub_diag_finite (v : number) :
  is_finite v = true -> Prim2SF (v - v) = S754_zero false.
Proof.
  unfold is_finite. rewrite sub_spec.
  destruct (Prim2SF v) as [s|s| |s m e]; intros H; try discriminate H.
  - destruct s; reflexivity.
  - apply NumberFacts.SF64sub_diag.
Qed.

(** A zero over a number other than a zero is a zero. *)
Lemma div_zero_l (z d : number) (s : bool) :
  Prim2SF z = S754_zero s -> (d =? 0) = false -> (d =? d) = true ->
  exists s', Prim2SF (z / d) = S754_zero s'.
Proof.
  rewrite !eqb_spec, div_spec. change (Prim2SF 0) with (S754_zero false).
  intros -> H0 Hd. unfold SF64div, SFdiv.
  destruct (Prim2SF d) as [sd|sd| |sd md ed]; try discriminate;
    eexists; reflexivity.
Qed.

Lemma div_nan_r (v : number) : v / nan = nan.
Proof.
  apply Prim2SF_nan_inv. rewrite div_spec.
  change (Prim2SF nan) with S754_nan. destruct (Prim2SF v); reflexivity.
Qed.

(** [Math.sqrt] of a number below zero is NaN. *)
Lemma sqrt_negative (v : number) : (v <? 0) = true -> sqrt v = nan.
Proof.
  rewrite ltb_spec. change (Prim2SF 0) with (S754_zero false). intros H.
  apply Prim2SF_nan_inv. rewrite sqrt_spec. unfold SF64sqrt, SFsqrt.
  destruct (Prim2SF v) as [s|s| |s m e]; try discriminate H;
    destruct s; try discriminate H; reflexivity.
Qed.

End SpecialValues.

(** ** The continued fraction where [const] is immutable *)

Lemma betaCF_var rt x a b :
  const_binding rt = ConstIsVar ->
  exists v, betaCF rt x a b = Normal v.
Proof.
  intros Hc.
  destruct (betaCF_loop_var rt x a b 200 Hc 1%nat (betaCF_init x a b)) as [st [brk H]].
  exists (cf_h st). unfold betaCF, maxIterations. rewrite H. reflexivity.
Qed.

(** With [const] immutable [betaCF] returns for no argument at all: the
    first pass of its loop assigns to [aa]. *)
Theorem betaCF_immutable_never_returns :
  forall rt x a b,
    const_binding rt = ConstIsImmutable ->
    betaCF rt x a b = Throw TypeError.
Proof.
  exact betaCF_immutable.
Qed.

Lemma betaCF_immutable_never_returns_witness :
  betaCF (reference ConstIsImmutable) 0.5 2 3 = Throw TypeError.
Proof.
  apply (betaCF_immutable_never_returns (reference ConstIsImmutable) 0.5 2 3).
  reflexivity.
Defined.

(** With [const] immutable the incomplete beta function is defined at its
    two end points only, and the p-value of the t distribution has three
    outcomes: 1 (x = 0, an infinite t), 0 (x = 1, t = 0) or TypeError. *)
Theorem incompleteBeta_immutable_end_points_only :
  forall rt,
    const_binding rt = ConstIsImmutable ->
    (forall x a b,
        incompleteBeta rt x a b
        = if x =? 0 then Normal 0 else if x =? 1 then Normal 1 else Throw TypeError)
    /\ (forall t df,
          calculateTDistributionPValue rt t df
          = if df / (df + t * t) =? 0 then Normal 1
            else if df / (df + t * t) =? 1 then Normal 0
            else Throw TypeError).
Proof.
  intros rt Hc.
  assert (Hib : forall x a b,
             incompleteBeta rt x a b
             = if x =? 0 then Normal 0 else if x =? 1 then Normal 1
               else Throw TypeError).
  { intros x a b. unfold incompleteBeta.
    destruct (x =? 0); [reflexivity|]. destruct (x =? 1); [reflexivity|].
    rewrite !(betaCF_immutable rt) by exact Hc.
    destruct (x <? _); reflexivity. }
  split; [exact Hib|].
  intros t df. unfold calculateTDistributionPValue. rewrite Hib.
  destruct (_ =? 0); [reflexivity|]. destruct (_ =? 1); reflexivity.
Qed.

Lemma incompleteBeta_immutable_end_points_only_witness :
  (forall x a b,
      incompleteBeta (reference ConstIsImmutable) x a b
      = if x =? 0 then Normal 0 else if x =? 1 then Normal 1 else Throw TypeError)
  /\ (forall t df,
        calculateTDistributionPValue (reference ConstIsImmutable) t df
        = if df / (df + t * t) =? 0 then Normal 1
          else if df / (df + t * t) =? 1 then Normal 0
          else Throw TypeError).
Proof.
  apply (incompleteBeta_immutable_end_points_only (reference ConstIsImmutable)).
  reflexivity.
Defined.

(** Where the assignment to [aa] is allowed, neither the continued fraction
    nor what is built on it raises anything: every call returns a number. *)
Theorem incompleteBeta_var_always_returns :
  forall rt,
    const_binding rt = ConstIsVar ->
    (forall x a b, exists v, incompleteBeta rt x a b = Normal v)
    /\ (forall t df, exists p, calculateTDistributionPValue rt t df = Normal p)
    /\ (forall F df1 df2, exists p, calculateFDistributionPValue rt F df1 df2 = Normal p).
Proof.
  intros rt Hc.
  assert (Hcf : forall x a b, exists v, betaCF rt x a b = Normal v).
  { intros x a b. apply betaCF_var, Hc. }
  assert (Hib : forall x a b, exists v, incompleteBeta rt x a b = Normal v).
  { intros x a b. unfold incompleteBeta.
    destruct (x =? 0); [eexists; reflexivity|].
    destruct (x =? 1); [eexists; reflexivity|].
    destruct (x <? _).
    - destruct (Hcf x a b) as [v ->]. eexists; reflexivity.
    - destruct (Hcf (1 - x) b a) as [v ->]. eexists; reflexivity. }
  split; [exact Hib|]. split.
  - intros t df. unfold calculateTDistributionPValue.
    destruct (Hib (df / (df + t * t)) (df / 2) 0.5) as [v ->]. eexists; reflexivity.
  - intros F df1 df2. unfold calculateFDistributionPValue. apply Hib.
Qed.

Lemma incompleteBeta_var_always_returns_witness :
  (forall x a b, exists v, incompleteBeta (reference ConstIsVar) x a b = Normal v)
  /\ (forall t df, exists p,
        calculateTDistributionPValue (reference ConstIsVar) t df = Normal p)
  /\ (forall F df1 df2, exists p,
        calculateFDistributionPValue (reference ConstIsVar) F df1 df2 = Normal p).
Proof.
  apply (incompleteBeta_var_always_returns (reference ConstIsVar)).
  reflexivity.
Defined.

(** ** Ranks of NaN, and empty samples *)

(** [calculateRanks] keeps the length of its input, and a NaN among the
    values is found by no [indexOf]: its rank is -1 + 1 = 0, a rank no other
    value can have.  (This does not depend on where the sort leaves the
    NaN.) *)
Theorem calculateRanks_nan_has_rank_zero :
  forall (rt : Runtime.t) (values : list number) (i : nat),
    (i < length values)%nat ->
    (get values i =? get values i) = false ->
    length (calculateRanks rt values) = length values
    /\ nth i (rank_positions rt values) 1%Z = 0%Z
    /\ get (calculateRanks rt values) i = 0.
Proof.
  intros rt values i Hi Hnan. split.
  - unfold calculateRanks, rank_positions. now rewrite !length_map.
  - assert (Hr : nth i (rank_positions rt values) 0%Z = 0%Z).
    { rewrite RankFacts.rank_positions_nth by exact Hi.
      destruct (RankFacts.indexOf_spec (sort rt values) (get values i))
        as [[-> _]|[k (_ & _ & Hv & _)]]; [reflexivity|].
      rewrite (SpecialValues.eqb_nan_r _ _ Hnan) in Hv. discriminate. }
    assert (Hl : (i < length (rank_positions rt values))%nat)
      by (unfold rank_positions; now rewrite length_map).
    split.
    + now rewrite (nth_indep _ 1%Z 0%Z Hl).
    + unfold calculateRanks, get.
      rewrite (nth_indep _ nan (of_Z 0)) by now rewrite length_map.
      rewrite (map_nth of_Z), Hr. reflexivity.
Qed.

Lemma calculateRanks_nan_has_rank_zero_witness :
  length (calculateRanks (reference ConstIsVar) [2; nan; 1]) = length [2; nan; 1]
  /\ nth 1 (rank_positions (reference ConstIsVar) [2; nan; 1]) 1%Z = 0%Z
  /\ get (calculateRanks (reference ConstIsVar) [2; nan; 1]) 1 = 0.
Proof.
  apply (calculateRanks_nan_has_rank_zero (reference ConstIsVar) [2; nan; 1] 1%nat).
  - simpl; lia.
  - reflexivity.
Defined.

Lemma pearson_r_empty (x y : list number) :
  x = [] \/ y = [] -> pearson_r x y = Throw TypeError.
Proof.
  unfold pearson_r. intros [-> | ->]; [reflexivity|].
  destruct x; reflexivity.
Qed.

(** An empty sample on either side makes [reduce] without an initial value
    raise: Pearson's and Spearman's coefficient answer an empty [x] or an
    empty [y] with TypeError, on every run time. *)
Theorem pearson_spearman_empty_sample_TypeError :
  forall rt (x y : list number),
    x = [] \/ y = [] ->
    calculatePearsonCorrelation rt x y = Throw TypeError
    /\ calculateSpearmanCorrelation rt x y = Throw TypeError.
Proof.
  intros rt x y H. split.
  - unfold calculatePearsonCorrelation. now rewrite pearson_r_empty.
  - unfold calculateSpearmanCorrelation, calculatePearsonCorrelation.
    rewrite pearson_r_empty; [reflexivity|].
    destruct H as [-> | ->]; [left|right]; reflexivity.
Qed.

Lemma pearson_spearman_empty_sample_TypeError_witness :
  calculatePearsonCorrelation (reference ConstIsVar) [1; 2; 3] [] = Throw TypeError
  /\ calculateSpearmanCorrelation (reference ConstIsVar) [1; 2; 3] [] = Throw TypeError.
Proof.
  apply (pearson_spearman_empty_sample_TypeError (reference ConstIsVar) [1; 2; 3] []).
  right; reflexivity.
Defined.

(** ** Exchanging the two samples *)

Module SymmetryFacts.

Lemma pair_product_comm (x y : list number) (ij : nat * nat) :
  pair_product x y ij = pair_product y x ij.
Proof.
  unfold pair_product. apply SpecialValues.mul_comm.
Qed.

Lemma kendall_counts_comm (x y : list number) :
  length x = length y -> kendall_counts x y = kendall_counts y x.
Proof.
  intros Hl. rewrite !KendallFacts.kendall_counts_spec, <- Hl. unfold count.
  f_equal; do 2 f_equal; apply filter_ext; intros ij;
    unfold concordant, discordant; now rewrite pair_product_comm.
Qed.

Lemma pearson_sums_fold_comm (x y : list number) (xMean yMean : number) (l : list nat) :
  forall nu xd yd,
    fold_left
      (fun '(numerator, xDenominator, yDenominator) i =>
         let xDiff := get y i - yMean in
         let yDiff := get x i - xMean in
         (numerator + xDiff * yDiff,
          xDenominator + xDiff * xDiff,
          yDenominator + yDiff * yDiff)) l (nu, yd, xd)
    = let '(nu', xd', yd') :=
        fold_left
          (fun '(numerator, xDenominator, yDenominator) i =>
             let xDiff := get x i - xMean in
             let yDiff := get y i - yMean in
             (numerator + xDiff * yDiff,
              xDenominator + xDiff * xDiff,
              yDenominator + yDiff * yDiff)) l (nu, xd, yd) in
      (nu', yd', xd').
Proof.
  induction l as [|i l IH]; intros nu xd yd; simpl; [reflexivity|].
  rewrite (SpecialValues.mul_comm (get y i - yMean) (get x i - xMean)).
  apply IH.
Qed.

Lemma pearson_sums_comm (x y : list number) (xMean yMean : number) :
  length x = length y ->
  pearson_sums y x yMean xMean
  = let '(nu, xd, yd) := pearson_sums x y xMean yMean in (nu, yd, xd).
Proof.
  intros Hl. unfold pearson_sums. rewrite <- Hl. apply pearson_sums_fold_comm.
Qed.

Lemma pearson_r_comm (x y : list number) :
  length x = length y -> pearson_r x y = pearson_r y x.
Proof.
  intros Hl. unfold pearson_r. rewrite <- Hl.
  destruct x as [|x0 x], y as [|y0 y]; try discriminate Hl; [reflexivity|].
  cbn [reduce_sum Js.bind].
  rewrite (pearson_sums_comm (x0 :: x) (y0 :: y)) by exact Hl.
  destruct (pearson_sums (x0 :: x) (y0 :: y) _ _) as [[nu xd] yd].
  now rewrite (SpecialValues.mul_comm yd xd).
Qed.

End SymmetryFacts.

(** Kendall's tau does not tell its two samples apart: exchanging [x] and
    [y] of one length gives the same counters and the same result, bit for
    bit (the product of the two differences commutes). *)
Theorem calculateKendallTau_symmetric :
  forall rt (x y : list number),
    length x = length y ->
    kendall_counts x y = kendall_counts y x
    /\ calculateKendallTau rt x y = calculateKendallTau rt y x.
Proof.
  intros rt x y Hl. split; [now apply SymmetryFacts.kendall_counts_comm|].
  unfold calculateKendallTau.
  now rewrite (SymmetryFacts.kendall_counts_comm x y Hl), Hl.
Qed.

Lemma calculateKendallTau_symmetric_witness :
  kendall_counts [1; 3; 2; 4] [2; 1; 4; 3] = kendall_counts [2; 1; 4; 3] [1; 3; 2; 4]
  /\ calculateKendallTau (reference ConstIsVar) [1; 3; 2; 4] [2; 1; 4; 3]
     = calculateKendallTau (reference ConstIsVar) [2; 1; 4; 3] [1; 3; 2; 4].
Proof.
  apply (calculateKendallTau_symmetric (reference ConstIsVar) [1; 3; 2; 4] [2; 1; 4; 3]).
  reflexivity.
Defined.

(** Nor does Pearson's coefficient, nor Spearman's: for samples of one
    length the three sums come out the same with [x] and [y] exchanged, so
    the coefficient, the p-value and a TypeError all do. *)
Theorem calculatePearsonCorrelation_symmetric :
  forall rt (x y : list number),
    length x = length y ->
    calculatePearsonCorrelation rt x y = calculatePearsonCorrelation rt y x
    /\ calculateSpearmanCorrelation rt x y = calculateSpearmanCorrelation rt y x.
Proof.
  assert (H : forall rt (x y : list number), length x = length y ->
            calculatePearsonCorrelation rt x y = calculatePearsonCorrelation rt y x).
  { intros rt x y Hl. unfold calculatePearsonCorrelation.
    now rewrite (SymmetryFacts.pearson_r_comm x y Hl), Hl. }
  intros rt x y Hl. split; [now apply H|].
  unfold calculateSpearmanCorrelation. apply H.
  unfold calculateRanks, rank_positions. now rewrite !length_map.
Qed.

Lemma calculatePearsonCorrelation_symmetric_witness :
  calculatePearsonCorrelation (reference ConstIsVar) [1; 3; 2; 5] [2; 1; 4; 3]
  = calculatePearsonCorrelation (reference ConstIsVar) [2; 1; 4; 3] [1; 3; 2; 5]
  /\ calculateSpearmanCorrelation (reference ConstIsVar) [1; 3; 2; 5] [2; 1; 4; 3]
     = calculateSpearmanCorrelation (reference ConstIsVar) [2; 1; 4; 3] [1; 3; 2; 5].
Proof.
  apply (calculatePearsonCorrelation_symmetric (reference ConstIsVar)
           [1; 3; 2; 5] [2; 1; 4; 3]).
  reflexivity.
Defined.

(** ** Kendall's tau of fewer than two samples *)

Lemma normalCDF_nan rt : normalCDF rt nan = nan.
Proof.
  unfold normalCDF, erf.
  match goal with |- context [Math_exp rt ?e] => generalize (Math_exp rt e) end.
  intros v.
  change (1 / (1 + 0.5 * abs (nan / sqrt 2))) with nan.
  rewrite SpecialValues.mul_nan_l. reflexivity.
Qed.

(** With no sample or one there is no pair and [n (n - 1) / 2] is a zero:
    [calculateKendallTau] divides 0 by it and returns NaN for the
    coefficient and for the p-value, not significant, whatever [y] is. *)
Theorem calculateKendallTau_short_sample_is_nan :
  forall rt (x y : list number),
    (length x < 2)%nat ->
    calculateKendallTau rt x y
    = Normal {| coefficient := nan; pValue := nan; significant := false |}.
Proof.
  intros rt x y Hl.
  destruct x as [|a [|b x]]; [| |simpl in Hl; lia];
    unfold calculateKendallTau;
    [change (kendall_counts [] y) with (0, 0)%Z
    |change (kendall_counts [a] y) with (0, 0)%Z]; cbv zeta beta iota.
  - change (abs _) with nan. rewrite normalCDF_nan. reflexivity.
  - change (abs _) with nan. rewrite normalCDF_nan. reflexivity.
Qed.

Lemma calculateKendallTau_short_sample_is_nan_witness :
  calculateKendallTau (reference ConstIsVar) [5] [7; 8; 9]
  = Normal {| coefficient := nan; pValue := nan; significant := false |}.
Proof.
  apply (calculateKendallTau_short_sample_is_nan (reference ConstIsVar) [5] [7; 8; 9]).
  simpl; lia.
Defined.

(** ** The solver's array length *)

Module LengthFacts.

(** NaN and the infinities are no array length. *)
Lemma not_finite_no_length (q : number) :
  is_finite q = false -> integer_value (Math_ceil q) = None.
Proof.
  unfold is_finite, Math_ceil.
  destruct (Prim2SF q) as [s|s| |s m e] eqn:E; intros H; try discriminate H;
    unfold integer_value; rewrite E; reflexivity.
Qed.

Lemma zero_length (q : number) (s : bool) :
  Prim2SF q = S754_zero s -> integer_value (Math_ceil q) = Some 0%Z.
Proof.
  intros E. unfold Math_ceil. rewrite E. unfold integer_value. rewrite E.
  reflexivity.
Qed.

End LengthFacts.

(** A step of zero makes [(tn - t0) / h] an infinity or NaN, and a NaN
    step or end point makes it NaN: [new Array(n + 1)] then raises
    RangeError, whatever the right-hand side and the initial value.  The
    solver has no test of its own for any of these. *)
Theorem rungeKutta4_zero_or_nan_step_RangeError :
  forall f y0 t0 tn h,
    (h =? 0) = true \/ (h =? h) = false
    \/ (t0 =? t0) = false \/ (tn =? tn) = false ->
    rungeKutta4 f y0 t0 tn h = Throw RangeError.
Proof.
  intros f y0 t0 tn h H.
  assert (Hq : is_finite ((tn - t0) / h) = false).
  { destruct H as [H|[H|[H|H]]].
    - apply SpecialValues.div_by_zero_or_nan. left.
      now apply SpecialValues.eqb_zero_inv.
    - apply SpecialValues.div_by_zero_or_nan. right.
      now rewrite (SpecialValues.eqb_irrefl_nan h H).
    - rewrite (SpecialValues.eqb_irrefl_nan t0 H), SpecialValues.sub_nan_r,
        SpecialValues.div_nan_l. reflexivity.
    - rewrite (SpecialValues.eqb_irrefl_nan tn H), SpecialValues.sub_nan_l,
        SpecialValues.div_nan_l. reflexivity. }
  unfold rungeKutta4. now rewrite (LengthFacts.not_finite_no_length _ Hq).
Qed.

Lemma rungeKutta4_zero_or_nan_step_RangeError_witness :
  rungeKutta4 (fun t y => y) 1 0 1 0 = Throw RangeError.
Proof.
  apply (rungeKutta4_zero_or_nan_step_RangeError (fun t y => y) 1 0 1 0).
  left; reflexivity.
Defined.

(** An interval of no length is solved in no step: with [tn] the same
    finite number as [t0] and a step that is neither zero nor NaN, the
    result is the initial point alone, [t = [t0]] and [y = [y0]], and [f]
    is never called. *)
Theorem rungeKutta4_empty_interval :
  forall f y0 t0 h,
    is_finite t0 = true -> (h =? 0) = false -> (h =? h) = true ->
    rungeKutta4 f y0 t0 t0 h = Normal ([t0], [y0]).
Proof.
  intros f y0 t0 h Ht Hz Hn.
  destruct (SpecialValues.div_zero_l (t0 - t0) h false
              (SpecialValues.sub_diag_finite t0 Ht) Hz Hn) as [s Hq].
  unfold rungeKutta4. rewrite (LengthFacts.zero_length _ s Hq). reflexivity.
Qed.

Lemma rungeKutta4_empty_interval_witness :
  rungeKutta4 (fun t y => t * y) 3 2 2 0.1 = Normal ([2], [3]).
Proof.
  apply (rungeKutta4_empty_interval (fun t y => t * y) 3 2 0.1); reflexivity.
Defined.

(** ** Embedding dimension one *)

Lemma map_const {A B} (b : B) (l : list A) :
  map (fun _ => b) l = repeat b (length l).
Proof.
  induction l as [|a l IH]; simpl; [reflexivity|]. now rewrite IH.
Qed.

Lemma map_seq_nth_error {A B} (g : option A -> B) (l : list A) :
  map (fun i => g (nth_error l i)) (seq 0 (length l)) = map (fun v => g (Some v)) l.
Proof.
  induction l as [|a l IH]; [reflexivity|].
  cbn [length seq map nth_error]. f_equal.
  rewrite <- seq_shift, map_map. exact IH.
Qed.

(** Two degenerate embeddings.  With [dimension] = 1 the delay plays no
    part: every sample becomes a vector of its own, in order, and none is
    dropped.  With [delay] = 0 no sample is dropped either, and every
    vector repeats its sample [dimension] times. *)
Theorem reconstructPhaseSpace_degenerate_embeddings :
  forall (timeSeries : list number),
    (forall delay : Z,
        reconstructPhaseSpace timeSeries 1 delay
        = Normal (map (fun v => [Some v]) timeSeries))
    /\ (forall dimension : Z,
          reconstructPhaseSpace timeSeries dimension 0
          = Normal (map (fun v => repeat (Some v) (Z.to_nat dimension)) timeSeries)).
Proof.
  intros timeSeries. split.
  - intros delay. unfold reconstructPhaseSpace. f_equal.
    replace (Z.to_nat (Z.of_nat (length timeSeries) - (1 - 1) * delay))
      with (length timeSeries) by lia.
    rewrite for_push_map, <- (map_seq_nth_error (fun o => [o])).
    apply map_ext_in. intros i _. change (Z.to_nat 1) with 1%nat.
    rewrite for_push_map. cbn [seq map]. unfold element.
    replace (Z.of_nat i + Z.of_nat 0 * delay)%Z with (Z.of_nat i) by lia.
    destruct (Z.of_nat i <? 0)%Z eqn:E; [apply Z.ltb_lt in E; lia|].
    now rewrite Nat2Z.id.
  - intros dimension. unfold reconstructPhaseSpace. f_equal.
    replace (Z.to_nat (Z.of_nat (length timeSeries) - (dimension - 1) * 0))
      with (length timeSeries) by lia.
    rewrite for_push_map,
      <- (map_seq_nth_error (fun o => repeat o (Z.to_nat dimension))).
    apply map_ext_in. intros i _. rewrite for_push_map.
    transitivity (map (fun _ : nat => nth_error timeSeries i)
                      (seq 0 (Z.to_nat dimension))).
    + apply map_ext. intros d. unfold element.
      replace (Z.of_nat i + Z.of_nat d * 0)%Z with (Z.of_nat i) by lia.
      destruct (Z.of_nat i <? 0)%Z eqn:E; [apply Z.ltb_lt in E; lia|].
      now rewrite Nat2Z.id.
    + now rewrite map_const, length_seq.
Qed.

(** ** Interpolation through two points of one abscissa *)

Module LagrangeFacts.

Section Terms.

Variable knownPoints : list point.
Variable targetX : number.

(** Once a term is NaN or an infinity no further factor brings it back. *)
Lemma term_stays_not_finite (i : nat) (js : list nat) :
  forall term,
    is_finite term = false ->
    is_finite
      (fold_left
         (fun term j =>
            if Nat.eqb i j then term
            else term * ((targetX - px knownPoints j)
                         / (px knownPoints i - px knownPoints j)))
         js term) = false.
Proof.
  induction js as [|j js IH]; intros term H; simpl; [exact H|].
  apply IH. destruct (Nat.eqb i j); [exact H|].
  now apply SpecialValues.mul_not_finite_l.
Qed.

Lemma term_factor_not_finite (i j : nat) (js : list nat) :
  In j js -> i <> j ->
  is_finite ((targetX - px knownPoints j)
             / (px knownPoints i - px knownPoints j)) = false ->
  forall term,
    is_finite
      (fold_left
         (fun term j =>
            if Nat.eqb i j then term
            else term * ((targetX - px knownPoints j)
                         / (px knownPoints i - px knownPoints j)))
         js term) = false.
Proof.
  intros Hin Hne Hf. induction js as [|a js IH]; intros term; [destruct Hin|].
  simpl. destruct Hin as [->|Hin]; [|now apply IH].
  apply term_stays_not_finite.
  destruct (Nat.eqb i j) eqn:E; [apply Nat.eqb_eq in E; contradiction|].
  now apply SpecialValues.mul_not_finite_r.
Qed.

Lemma sum_stays_not_finite (steps : list nat) :
  forall result,
    is_finite result = false ->
    is_finite
      (fold_left (fun result i => result + lagrange_term knownPoints targetX i)
                 steps result) = false.
Proof.
  induction steps as [|i steps IH]; intros result H; simpl; [exact H|].
  apply IH. now apply SpecialValues.add_not_finite_l.
Qed.

Lemma sum_term_not_finite (i : nat) (steps : list nat) :
  In i steps ->
  is_finite (lagrange_term knownPoints targetX i) = false ->
  forall result,
    is_finite
      (fold_left (fun result i => result + lagrange_term knownPoints targetX i)
                 steps result) = false.
Proof.
  intros Hin Hf. induction steps as [|a steps IH]; intros result; [destruct Hin|].
  simpl. destruct Hin as [->|Hin]; [|now apply IH].
  apply sum_stays_not_finite. now apply SpecialValues.add_not_finite_r.
Qed.

End Terms.

End LagrangeFacts.

(** [lagrangeInterpolation] does not look for repeated abscissae.  Two
    known points with the same [x] make one denominator a zero (or NaN):
    that factor is an infinity or NaN, and so is the interpolated value,
    at every target and whatever the ordinates are.  No finite number is
    ever returned for such points, and nothing is raised. *)
Theorem lagrangeInterpolation_repeated_abscissa_not_finite :
  forall (knownPoints : list point) (targetX : number) (i j : nat),
    (i < length knownPoints)%nat -> (j < length knownPoints)%nat -> i <> j ->
    px knownPoints j = px knownPoints i
    \/ (px knownPoints j =? px knownPoints i) = true ->
    is_finite (lagrangeInterpolation knownPoints targetX) = false.
Proof.
  intros knownPoints targetX i j Hi Hj Hne Htie.
  unfold lagrangeInterpolation.
  apply (LagrangeFacts.sum_term_not_finite knownPoints targetX i).
  - apply in_seq; lia.
  - unfold lagrange_term.
    apply (LagrangeFacts.term_factor_not_finite knownPoints targetX i j).
    + apply in_seq; lia.
    + exact Hne.
    + apply SpecialValues.div_by_zero_or_nan, SpecialValues.sub_tie, Htie.
Qed.

Lemma lagrangeInterpolation_repeated_abscissa_not_finite_witness :
  is_finite (lagrangeInterpolation [(0, 0); (1, 1); (1, 4)] 3) = false.
Proof.
  apply (lagrangeInterpolation_repeated_abscissa_not_finite
           [(0, 0); (1, 1); (1, 4)] 3 1%nat 2%nat).
  - simpl; lia.
  - simpl; lia.
  - discriminate.
  - left; reflexivity.
Defined.

(** ** Arrays written slot by slot *)

Module FillFacts.

Lemma set_at_end {A} (hole : A) (l : list A) (v : A) :
  Js.set hole l (length l) v = l ++ [v].
Proof.
  induction l as [|a l IH]; simpl; [reflexivity|]. now rewrite IH.
Qed.

Lemma set_middle {A} (hole : A) (l1 l2 : list A) (a v : A) :
  Js.set hole (l1 ++ a :: l2) (length l1) v = l1 ++ v :: l2.
Proof.
  induction l1 as [|b l1 IH]; simpl; [reflexivity|]. now rewrite IH.
Qed.

Lemma skipn_cons_nth {A} (l : list A) (k : nat) (d : A) :
  (k < length l)%nat -> skipn k l = nth k l d :: skipn (S k) l.
Proof.
  revert k; induction l as [|a l IH]; intros [|k] H; simpl in *; try lia; auto.
  apply IH; lia.
Qed.

(** [for (t = 0; t < k; t++) w[t] = g(t)] over an array that has the
    slots: the first [k] are the values written, the rest is as before. *)
Lemma fill_prefix {A} (hole : A) (g : nat -> A) (l : list A) (k : nat) :
  (k <= length l)%nat ->
  fold_left (fun w t => Js.set hole w t (g t)) (seq 0 k) l
  = map g (seq 0 k) ++ skipn k l.
Proof.
  induction k as [|k IH]; intros Hk; [reflexivity|].
  rewrite seq_S, fold_left_app, map_app, IH by lia. cbn [fold_left map Nat.add].
  rewrite (skipn_cons_nth l k hole) by lia.
  assert (E : length (map g (seq 0 k)) = k) by now rewrite length_map, length_seq.
  pose proof (set_middle hole (map g (seq 0 k)) (skipn (S k) l) (nth k l hole) (g k)) as H.
  rewrite E in H. rewrite H, <- app_assoc. reflexivity.
Qed.

Lemma fill_all {A} (hole : A) (g : nat -> A) (l : list A) :
  fold_left (fun w t => Js.set hole w t (g t)) (seq 0 (length l)) l
  = map g (seq 0 (length l)).
Proof.
  rewrite fill_prefix by lia. now rewrite skipn_all, app_nil_r.
Qed.

End FillFacts.

(** ** The wavelet and Laplace transforms *)

Module TransformFacts.

(** The coefficients of one scale, slot by slot. *)
Lemma wavelet_row_map rt Math_cos (signal : list number) (scale : number) :
  wavelet_row rt Math_cos signal scale
  = map (fun t =>
           fold_left
             (fun sum tau =>
                sum + get signal tau
                      * morletWavelet rt Math_cos ((of_nat tau - of_nat t) / scale))
             (seq 0 (length signal)) 0 / sqrt scale)
        (seq 0 (length signal)).
Proof.
  unfold wavelet_row.
  pose proof (FillFacts.fill_all nan
    (fun t =>
       fold_left
         (fun sum tau =>
            sum + get signal tau
                  * morletWavelet rt Math_cos ((of_nat tau - of_nat t) / scale))
         (seq 0 (length signal)) 0 / sqrt scale)
    (repeat 0 (length signal))) as H.
  rewrite repeat_length in H. exact H.
Qed.

Lemma waveletTransform_map rt Math_cos (signal scales : list number) :
  waveletTransform rt Math_cos signal scales
  = map (wavelet_row rt Math_cos signal) scales.
Proof.
  unfold waveletTransform.
  assert (H : forall l acc,
             fold_left (fun coefficients scale =>
                          coefficients ++ [wavelet_row rt Math_cos signal scale]) l acc
             = acc ++ map (wavelet_row rt Math_cos signal) l).
  { induction l as [|a l IH]; intros acc; simpl.
    - now rewrite app_nil_r.
    - rewrite IH, <- app_assoc. reflexivity. }
  apply (H scales []).
Qed.

(** The two sums of [laplaceTransform] are given the same terms. *)
Lemma laplace_sums_equal rt (timeSeries : list number) (si dt : number) :
  snd (laplace_sums rt timeSeries si dt) = fst (laplace_sums rt timeSeries si dt).
Proof.
  unfold laplace_sums.
  assert (H : forall l r,
             exists v,
               fold_left
                 (fun '(real, imag) t =>
                    (real + get timeSeries t * Math_exp rt (- si * of_nat t * dt) * dt,
                     imag + get timeSeries t * Math_exp rt (- si * of_nat t * dt) * dt))
                 l (r, r) = (v, v)).
  { induction l as [|t l IH]; intros r; simpl; [now exists r|]. apply IH. }
  destruct (H (seq 0 (length timeSeries)) 0) as [v Hv].
  etransitivity; [apply (f_equal snd Hv)|symmetry; apply (f_equal fst Hv)].
Qed.

End TransformFacts.

(** [waveletTransform] returns one row per scale, in the order of
    [scales]: row [k] is the row computed for [scales[k]].  Every row has
    one coefficient per sample of the signal, and coefficient [t] of row
    [k] is the sum over [tau] of [signal[tau]] times the wavelet at
    [(tau - t) / scales[k]], divided by [Math.sqrt(scales[k])]. *)
Theorem waveletTransform_one_row_per_scale :
  forall rt Math_cos (signal scales : list number),
    length (waveletTransform rt Math_cos signal scales) = length scales
    /\ Forall (fun waveletCoeffs => length waveletCoeffs = length signal)
              (waveletTransform rt Math_cos signal scales)
    /\ (forall k, (k < length scales)%nat ->
          nth k (waveletTransform rt Math_cos signal scales) []
          = wavelet_row rt Math_cos signal (get scales k))
    /\ (forall k t, (k < length scales)%nat -> (t < length signal)%nat ->
          get (nth k (waveletTransform rt Math_cos signal scales) []) t
          = fold_left
              (fun sum tau =>
                 sum + get signal tau
                       * morletWavelet rt Math_cos
                           ((of_nat tau - of_nat t) / get scales k))
              (seq 0 (length signal)) 0 / sqrt (get scales k)).
Proof.
  intros rt Math_cos signal scales.
  assert (Hrow : forall k, (k < length scales)%nat ->
            nth k (waveletTransform rt Math_cos signal scales) []
            = wavelet_row rt Math_cos signal (get scales k)).
  { intros k Hk. rewrite TransformFacts.waveletTransform_map.
    rewrite (nth_indep _ [] (wavelet_row rt Math_cos signal nan))
      by now rewrite length_map.
    now rewrite (map_nth (wavelet_row rt Math_cos signal)). }
  split; [|split; [|split]].
  - now rewrite TransformFacts.waveletTransform_map, length_map.
  - rewrite TransformFacts.waveletTransform_map.
    apply Forall_forall. intros r Hr. apply in_map_iff in Hr as (scale & <- & _).
    now rewrite TransformFacts.wavelet_row_map, length_map, length_seq.
  - exact Hrow.
  - intros k t Hk Ht. rewrite (Hrow k Hk), TransformFacts.wavelet_row_map.
    unfold get at 1.
    set (f := fun t0 : nat => _).
    rewrite (nth_indep _ nan (f 0%nat)) by now rewrite length_map, length_seq.
    rewrite (map_nth f), seq_nth by exact Ht. reflexivity.
Qed.

Lemma waveletTransform_one_row_per_scale_witness :
  nth 1 (waveletTransform (reference ConstIsVar) (fun x => 1) [1; 2; 3] [2; 4]) []
  = wavelet_row (reference ConstIsVar) (fun x => 1) [1; 2; 3] (get [2; 4] 1).
Proof.
  apply (proj1 (proj2 (proj2 (waveletTransform_one_row_per_scale
                                 (reference ConstIsVar) (fun x => 1) [1; 2; 3] [2; 4])))
           1%nat).
  simpl; lia.
Defined.

(** A scale below zero is not refused: [Math.sqrt(scale)] is NaN, every
    sum is divided by it, and the row of that scale is NaN throughout,
    whatever the signal. *)
Theorem waveletTransform_negative_scale_row_is_nan :
  forall rt Math_cos (signal scales : list number) (k : nat),
    (k < length scales)%nat ->
    (get scales k <? 0) = true ->
    nth k (waveletTransform rt Math_cos signal scales) []
    = repeat nan (length signal).
Proof.
  intros rt Math_cos signal scales k Hk Hneg.
  rewrite TransformFacts.waveletTransform_map.
  rewrite (nth_indep _ [] (wavelet_row rt Math_cos signal nan))
    by now rewrite length_map.
  rewrite (map_nth (wavelet_row rt Math_cos signal)).
  fold (get scales k). rewrite TransformFacts.wavelet_row_map.
  rewrite (SpecialValues.sqrt_negative _ Hneg).
  transitivity (map (fun _ : nat => nan) (seq 0 (length signal))).
  - apply map_ext. intros t. apply SpecialValues.div_nan_r.
  - now rewrite map_const, length_seq.
Qed.

Lemma waveletTransform_negative_scale_row_is_nan_witness :
  nth 1 (waveletTransform (reference ConstIsVar) (fun x => 1) [1; 2; 3] [2; -1]) []
  = repeat nan 3.
Proof.
  apply (waveletTransform_negative_scale_row_is_nan (reference ConstIsVar)
           (fun x => 1) [1; 2; 3] [2; -1] 1%nat).
  - simpl; lia.
  - reflexivity.
Defined.

Lemma laplace_loop rt (timeSeries : list number) (dt w : number) (k : nat) :
  fold_left
    (fun '(s, F) i =>
       let s := Js.set nan s i (of_nat i * w) in
       let '(real, imag) := laplace_sums rt timeSeries (get s i) dt in
       (s, Js.set nan F i (sqrt (real * real + imag * imag))))
    (seq 0 k) ([], [])
  = (map (fun i => of_nat i * w) (seq 0 k),
     map (fun i =>
            let re := fst (laplace_sums rt timeSeries (of_nat i * w) dt) in
            sqrt (re * re + re * re))
         (seq 0 k)).
Proof.
  induction k as [|k IH]; [reflexivity|].
  rewrite seq_S, fold_left_app, IH, !map_app. cbn [fold_left map Nat.add].
  set (omega := fun i => of_nat i * w).
  assert (Es : Js.set nan (map omega (seq 0 k)) k (omega k)
               = map omega (seq 0 k) ++ [omega k]).
  { pose proof (FillFacts.set_at_end nan (map omega (seq 0 k)) (omega k)) as H.
    now rewrite length_map, length_seq in H. }
  change (of_nat k * w) with (omega k). rewrite Es.
  assert (Eg : get (map omega (seq 0 k) ++ [omega k]) k = omega k).
  { unfold get. rewrite app_nth2 by (rewrite length_map, length_seq; lia).
    rewrite length_map, length_seq, Nat.sub_diag. reflexivity. }
  rewrite Eg.
  pose proof (TransformFacts.laplace_sums_equal rt timeSeries (omega k) dt) as Heq.
  destruct (laplace_sums rt timeSeries (omega k) dt) as [re im].
  cbn [fst snd] in *. subst im. f_equal.
  match goal with
  | |- Js.set nan ?F k ?v = _ =>
      pose proof (FillFacts.set_at_end nan F v) as H
  end.
  now rewrite length_map, length_seq in H.
Qed.

(** [laplaceTransform] returns two arrays of one entry per sample.  [s]
    holds the multiples [i * (2 pi / (N dt))]; and as the imaginary sum is
    built from the same terms as the real one, [F[i]] is the square root of
    twice the square of the real sum, [sqrt(re re + re re)]. *)
Theorem laplaceTransform_closed_form :
  forall rt (timeSeries : list number) (samplingRate : number),
    let N := length timeSeries in
    let dt := 1 / samplingRate in
    let omega i := of_nat i * (2 * Math_PI / (of_nat N * dt)) in
    laplaceTransform rt timeSeries samplingRate
    = (map omega (seq 0 N),
       map (fun i =>
              let re := fst (laplace_sums rt timeSeries (omega i) dt) in
              sqrt (re * re + re * re))
           (seq 0 N)).
Proof.
  intros rt timeSeries samplingRate N dt omega. unfold laplaceTransform.
  apply laplace_loop.
Qed.

(** ** Dominant frequencies *)

Module MaxFacts.

Lemma max2_nan_r (m a : number) : (a =? a) = false -> max2 m a = nan.
Proof.
  intros H. unfold max2. rewrite H. destruct (m =? m); reflexivity.
Qed.

Lemma max_stays_nan (values : list number) : fold_left max2 values nan = nan.
Proof.
  induction values as [|a values IH]; simpl; [reflexivity|].
  change (max2 nan a) with nan. exact IH.
Qed.

(** [Math.max] is NaN as soon as one argument is. *)
Lemma max_of_nan (values : list number) (a : number) :
  In a values -> (a =? a) = false -> forall m, fold_left max2 values m = nan.
Proof.
  intros Hin Hnan. induction values as [|b values IH]; intros m; [destruct Hin|].
  simpl. destruct Hin as [->|Hin]; [|now apply IH].
  rewrite (max2_nan_r m a Hnan). apply max_stays_nan.
Qed.

Lemma filter_none {A} (p : A -> bool) (l : list A) :
  (forall a, p a = false) -> filter p l = [].
Proof.
  intros H. induction l as [|a l IH]; simpl; [reflexivity|]. now rewrite H.
Qed.

End MaxFacts.

(** A single NaN among the amplitudes silences the detection: the maximum
    is NaN, so is the threshold, no amplitude is above NaN, and the result
    is the empty list, however pronounced the other peaks are. *)
Theorem findDominantFrequencies_nan_amplitude_selects_nothing :
  forall (max_arguments : nat) (frequencies amplitudes : list number) (i : nat),
    (length amplitudes <= max_arguments)%nat ->
    (i < length amplitudes)%nat ->
    (get amplitudes i =? get amplitudes i) = false ->
    findDominantFrequencies max_arguments frequencies amplitudes = Normal [].
Proof.
  intros max_arguments frequencies amplitudes i Hmax Hi Hnan.
  unfold findDominantFrequencies.
  destruct (max_arguments <? length amplitudes)%nat eqn:E;
    [apply Nat.ltb_lt in E; lia|].
  unfold Math_max.
  rewrite (MaxFacts.max_of_nan amplitudes (get amplitudes i));
    [|apply nth_In, Hi|exact Hnan].
  rewrite SpecialValues.mul_nan_l, MaxFacts.filter_none; [reflexivity|].
  intros ifr. apply SpecialValues.ltb_nan_l. reflexivity.
Qed.

Lemma findDominantFrequencies_nan_amplitude_selects_nothing_witness :
  findDominantFrequencies 1000 [0; 0.25; 0.5; 0.75] [1; nan; 0.5; 10] = Normal [].
Proof.
  apply (findDominantFrequencies_nan_amplitude_selects_nothing 1000
           [0; 0.25; 0.5; 0.75] [1; nan; 0.5; 10] 1%nat).
  - simpl; lia.
  - simpl; lia.
  - reflexivity.
Defined.

(** ** The correlation matrix *)

Import MatrixNotions.

Module MatrixFacts.

Lemma for_each_app {A B} (body : B -> A -> completion B) (l1 l2 : list A) (b : B) :
  for_each body (l1 ++ l2) b = (b' <- for_each body l1 b ;; for_each body l2 b').
Proof.
  revert b; induction l1 as [|a l1 IH]; intros b; simpl; [reflexivity|].
  destruct (body b a); simpl; auto.
Qed.

(** The two nested loops visit [upper_cells n], once each. *)
Lemma for_each_cells {B} (cell : nat -> B -> nat -> completion B) (n : nat)
  (steps : list nat) (b : B) :
  for_each (fun m i => for_each (cell i) (seq i (n - i)) m) steps b
  = for_each (fun m ij => cell (fst ij) m (snd ij))
             (flat_map (fun i => map (pair i) (seq i (n - i))) steps) b.
Proof.
  revert b; induction steps as [|i steps IH]; intros b; [reflexivity|].
  cbn [for_each flat_map]. rewrite for_each_app.
  assert (H : forall js b0,
             for_each (fun m ij => cell (fst ij) m (snd ij)) (map (pair i) js) b0
             = for_each (cell i) js b0).
  { induction js as [|j js IHj]; intros b0; simpl; [reflexivity|].
    destruct (cell i b0 j); simpl; auto. }
  rewrite H. destruct (for_each (cell i) (seq i (n - i)) b); simpl; auto.
Qed.

Lemma in_upper_cells (n a b : nat) :
  In (a, b) (upper_cells n) <-> (a <= b < n)%nat.
Proof.
  unfold upper_cells. rewrite in_flat_map. split.
  - intros (i & Hi & Hin). apply in_map_iff in Hin as (j & Hij & Hj).
    injection Hij as -> ->. apply in_seq in Hi, Hj. lia.
  - intros H. exists a. split; [apply in_seq; lia|].
    apply in_map_iff. exists b. split; [reflexivity|apply in_seq; lia].
Qed.

Lemma NoDup_map_pair (i : nat) (js : list nat) :
  NoDup js -> NoDup (map (pair i) js).
Proof.
  intros H. induction H as [|j js Hj H IH]; simpl; constructor; [|exact IH].
  intros Hin. apply in_map_iff in Hin as (j' & E & Hin).
  injection E as ->. contradiction.
Qed.

Lemma NoDup_cells (g : nat -> list nat) (steps : list nat) :
  NoDup steps -> (forall i, NoDup (g i)) ->
  NoDup (flat_map (fun i => map (pair i) (g i)) steps).
Proof.
  intros Hs Hg. induction Hs as [|i steps Hi Hs IH]; simpl; [constructor|].
  apply NoDup_app.
  - apply NoDup_map_pair, Hg.
  - exact IH.
  - intros [a b] Hin Hin'. apply in_map_iff in Hin as (j & Hij & _).
    injection Hij as <- <-. apply in_flat_map in Hin' as (i' & Hi' & Hin').
    apply in_map_iff in Hin' as (j' & Hij' & _). injection Hij' as -> _.
    contradiction.
Qed.

Lemma NoDup_upper_cells (n : nat) : NoDup (upper_cells n).
Proof.
  apply NoDup_cells; [apply seq_NoDup|intros i; apply seq_NoDup].
Qed.

Lemma zeros_square (n : nat) : square n (zeros n).
Proof.
  unfold square, zeros. split; [now rewrite length_map, length_seq|].
  apply Forall_forall. intros r Hr. apply in_map_iff in Hr as (i & <- & _).
  apply repeat_length.
Qed.

(** [matrix[i][j] = v] inside the matrix keeps its shape, sets one cell and
    leaves the others. *)
Lemma store_square (n : nat) (m : matrix) (i j : nat) (v : number) :
  square n m -> (i < n)%nat -> (j < n)%nat -> square n (store m i j v).
Proof.
  intros [Hl Hr] Hi Hj. unfold square, store. split.
  - rewrite set_length; lia.
  - apply set_Forall; [lia| |exact Hr].
    rewrite set_length; [|unfold row].
    + unfold row. apply (Forall_nth_in _ _ _ _ Hr). lia.
    + rewrite (Forall_nth_in _ _ _ _ Hr); lia.
Qed.

Lemma store_read (n : nat) (m : matrix) (i j a b : nat) (v : number) :
  square n m -> (i < n)%nat -> (j < n)%nat ->
  get (row (store m i j v) a) b
  = if (Nat.eqb a i && Nat.eqb b j)%bool then v else get (row m a) b.
Proof.
  intros [Hl Hr] Hi Hj. unfold store, row, get.
  assert (Hli : length (nth i m []) = n)
    by (apply (Forall_nth_in _ _ _ _ Hr); lia).
  destruct (Nat.eqb a i) eqn:Ea; cbn [andb].
  - apply Nat.eqb_eq in Ea; subst a. rewrite set_nth_same by lia.
    destruct (Nat.eqb b j) eqn:Eb.
    + apply Nat.eqb_eq in Eb; subst b. apply set_nth_same. lia.
    + apply Nat.eqb_neq in Eb. apply set_nth_other; [lia|exact Eb].
  - apply Nat.eqb_neq in Ea. rewrite set_nth_other by (lia || exact Ea).
    reflexivity.
Qed.

Section Cells.

Variable rt : Runtime.t.
Variable variables : list (list number).

(** What the loops have done when they end: every visited cell and its
    mirror image hold the coefficient of their pair of variables, and what
    was not visited is as before. *)
Lemma cells_done (n : nat) (cells : list (nat * nat)) :
  NoDup cells ->
  (forall a b, In (a, b) cells -> (a <= b < n)%nat) ->
  forall m m',
    square n m ->
    for_each (fun m ij => correlation_cell rt variables (fst ij) m (snd ij)) cells m
    = Normal m' ->
    square n m'
    /\ (forall a b, In (a, b) cells ->
          exists res,
            calculatePearsonCorrelation rt (nth a variables []) (nth b variables [])
            = Normal res
            /\ get (row m' a) b = coefficient res
            /\ get (row m' b) a = coefficient res)
    /\ (forall a b, (a <= b)%nat -> ~ In (a, b) cells ->
          get (row m' a) b = get (row m a) b
          /\ get (row m' b) a = get (row m b) a).
Proof.
  intros Hnd. induction Hnd as [|[i j] cells Hnotin Hnd IH];
    intros Hrange m m' Hsq Hrun.
  - injection Hrun as <-. split; [exact Hsq|]. split; [intros a b []|].
    intros a b _ _. split; reflexivity.
  - cbn [for_each fst snd] in Hrun. unfold correlation_cell at 1 in Hrun.
    destruct (calculatePearsonCorrelation rt (nth i variables []) (nth j variables []))
      as [res|e] eqn:Hres; [|discriminate Hrun].
    cbn [Js.bind] in Hrun.
    assert (Hij : (i <= j < n)%nat) by (apply Hrange; left; reflexivity).
    set (c := coefficient res) in *.
    assert (Hsq0 : square n (store m j i c)) by (apply store_square; tauto || lia).
    assert (Hsq1 : square n (store (store m j i c) i j c))
      by (apply store_square; tauto || lia).
    assert (Hread : forall a b,
               get (row (store (store m j i c) i j c) a) b
               = if (Nat.eqb a i && Nat.eqb b j)%bool then c
                 else if (Nat.eqb a j && Nat.eqb b i)%bool then c
                 else get (row m a) b).
    { intros a b. rewrite (store_read n) by (tauto || lia).
      destruct (Nat.eqb a i && Nat.eqb b j)%bool; [reflexivity|].
      apply (store_read n); tauto || lia. }
    destruct (IH (fun a b H => Hrange a b (or_intror H)) _ _ Hsq1 Hrun)
      as (Hsq' & Hdone & Hrest).
    split; [exact Hsq'|]. split.
    + intros a b [Hab|Hin]; [|now apply Hdone].
      injection Hab as <- <-. exists res. split; [exact Hres|].
      destruct (Hrest i j (proj1 Hij) Hnotin) as [-> ->].
      rewrite !Hread, !Nat.eqb_refl. cbn [andb].
      split; [reflexivity|]. destruct (Nat.eqb j i && Nat.eqb i j)%bool; reflexivity.
    + intros a b Hab Hnot.
      assert (Hne : (a, b) <> (i, j)) by (intros E; apply Hnot; left; now symmetry).
      assert (Hnot' : ~ In (a, b) cells) by (intros E; apply Hnot; now right).
      destruct (Hrest a b Hab Hnot') as [-> ->]. rewrite !Hread.
      assert (Hcases : a <> i \/ b <> j).
      { destruct (Nat.eq_dec a i) as [->|]; [|now left].
        destruct (Nat.eq_dec b j) as [->|]; [|now right]. congruence. }
      assert (E1 : (Nat.eqb a i && Nat.eqb b j)%bool = false).
      { apply andb_false_iff. rewrite !Nat.eqb_neq. exact Hcases. }
      assert (E2 : (Nat.eqb a j && Nat.eqb b i)%bool = false).
      { apply andb_false_iff. rewrite !Nat.eqb_neq. lia. }
      assert (E3 : (Nat.eqb b i && Nat.eqb a j)%bool = false).
      { apply andb_false_iff. rewrite !Nat.eqb_neq. lia. }
      assert (E4 : (Nat.eqb b j && Nat.eqb a i)%bool = false).
      { apply andb_false_iff. rewrite !Nat.eqb_neq. lia. }
      rewrite E1, E2, E3, E4. split; reflexivity.
Qed.

Lemma createCorrelationMatrix_cells :
  createCorrelationMatrix rt variables
  = for_each (fun m ij => correlation_cell rt variables (fst ij) m (snd ij))
             (upper_cells (length variables)) (zeros (length variables)).
Proof.
  unfold createCorrelationMatrix. cbv zeta.
  apply (for_each_cells (correlation_cell rt variables)).
Qed.

Lemma createCorrelationMatrix_done (m : matrix) :
  createCorrelationMatrix rt variables = Normal m ->
  square (length variables) m
  /\ forall i j, (i <= j < length variables)%nat ->
       exists res,
         calculatePearsonCorrelation rt (nth i variables []) (nth j variables [])
         = Normal res
         /\ get (row m i) j = coefficient res
         /\ get (row m j) i = coefficient res.
Proof.
  rewrite createCorrelationMatrix_cells. intros Hrun.
  destruct (cells_done (length variables) (upper_cells (length variables))
              (NoDup_upper_cells _)
              (fun a b H => proj1 (in_upper_cells _ a b) H)
              _ _ (zeros_square _) Hrun) as (Hsq & Hdone & _).
  split; [exact Hsq|]. intros i j Hij. apply Hdone, in_upper_cells, Hij.
Qed.

End Cells.

End MatrixFacts.

(** When [createCorrelationMatrix] returns, its result is an n x n matrix
    for the n variables; the cell of row i and column j, i <= j, and its
    mirror image hold the Pearson coefficient of variables i and j (which
    was computed without an exception); so the matrix is symmetric. *)
Theorem createCorrelationMatrix_symmetric_coefficients :
  forall rt (variables : list (list number)) (m : matrix),
    createCorrelationMatrix rt variables = Normal m ->
    square (length variables) m
    /\ (forall i j, (i <= j < length variables)%nat ->
          exists res,
            calculatePearsonCorrelation rt (nth i variables []) (nth j variables [])
            = Normal res
            /\ get (row m i) j = coefficient res
            /\ get (row m j) i = coefficient res)
    /\ (forall i j, (i < length variables)%nat -> (j < length variables)%nat ->
          get (row m i) j = get (row m j) i).
Proof.
  intros rt variables m Hrun.
  destruct (MatrixFacts.createCorrelationMatrix_done rt variables m Hrun)
    as [Hsq Hdone].
  split; [exact Hsq|]. split; [exact Hdone|].
  intros i j Hi Hj. destruct (Nat.le_gt_cases i j) as [Hij|Hij].
  - destruct (Hdone i j (conj Hij Hj)) as (res & _ & -> & ->). reflexivity.
  - destruct (Hdone j i) as (res & _ & -> & ->); [lia|reflexivity].
Qed.

Lemma createCorrelationMatrix_symmetric_coefficients_witness :
  createCorrelationMatrix (reference ConstIsImmutable) [[1; 2; 3; 4]; [2; 4; 6; 8]]
  = Normal [[1; 1]; [1; 1]]
  /\ square 2 [[1; 1]; [1; 1]]
  /\ (forall i j, (i <= j < 2)%nat ->
        exists res,
          calculatePearsonCorrelation (reference ConstIsImmutable)
            (nth i [[1; 2; 3; 4]; [2; 4; 6; 8]] [])
            (nth j [[1; 2; 3; 4]; [2; 4; 6; 8]] [])
          = Normal res
          /\ get (row [[1; 1]; [1; 1]] i) j = coefficient res
          /\ get (row [[1; 1]; [1; 1]] j) i = coefficient res)
  /\ (forall i j, (i < 2)%nat -> (j < 2)%nat ->
        get (row [[1; 1]; [1; 1]] i) j = get (row [[1; 1]; [1; 1]] j) i).
Proof.
  split; [vm_compute; reflexivity|].
  apply (createCorrelationMatrix_symmetric_coefficients (reference ConstIsImmutable)
           [[1; 2; 3; 4]; [2; 4; 6; 8]] [[1; 1]; [1; 1]]).
  vm_compute; reflexivity.
Defined.

(** ** Exceptions of the remaining methods *)

Lemma for_each_only_TypeError {A B} (body : B -> A -> completion B) (l : list A) :
  (forall b a, only_TypeError (body b a)) ->
  forall b, only_TypeError (for_each body l b).
Proof.
  intros H. induction l as [|a l IH]; intros b; simpl; [exact I|].
  apply only_TypeError_bind; [apply H|exact IH].
Qed.

Lemma method_receiver_only_TypeError r : only_TypeError (method_receiver r).
Proof. destruct r; simpl; auto. Qed.

Lemma createCorrelationMatrix_only_TypeError rt variables :
  only_TypeError (createCorrelationMatrix rt variables).
Proof.
  unfold createCorrelationMatrix. apply for_each_only_TypeError.
  intros m i. apply for_each_only_TypeError. intros m' j.
  unfold correlation_cell.
  apply only_TypeError_bind; [apply pearson_only_TypeError|]. intros c; exact I.
Qed.

Lemma partial_only_TypeError rt x y z :
  only_TypeError (calculatePartialCorrelation rt x y z).
Proof.
  unfold calculatePartialCorrelation.
  apply only_TypeError_bind; [apply pearson_only_TypeError|]. intros cxy.
  apply only_TypeError_bind; [apply pearson_only_TypeError|]. intros cxz.
  apply only_TypeError_bind; [apply pearson_only_TypeError|]. intros cyz.
  apply only_TypeError_bind; [apply tDistribution_only_TypeError|].
  intros p; exact I.
Qed.

(** Nothing but the run time's TypeError leaves [calculateSpearmanCorrelation],
    [calculatePartialCorrelation], [createCorrelationMatrix] and
    [calculateMultipleCorrelation]: none of them tests its input, a
    correlation of 1, or the matrix it inverts. *)
Theorem correlation_methods_raise_only_TypeError :
  forall rt,
    (forall x y e, calculateSpearmanCorrelation rt x y = Throw e -> e = TypeError)
    /\ (forall x y z e, calculatePartialCorrelation rt x y z = Throw e -> e = TypeError)
    /\ (forall variables e,
          createCorrelationMatrix rt variables = Throw e -> e = TypeError)
    /\ (forall dependent independents e,
          calculateMultipleCorrelation rt dependent independents = Throw e ->
          e = TypeError).
Proof.
  intros rt. split; [|split; [|split]].
  - intros x y e H.
    pose proof (pearson_only_TypeError rt (calculateRanks rt x) (calculateRanks rt y)) as Ho.
    unfold calculateSpearmanCorrelation in H. rewrite H in Ho. exact Ho.
  - intros x y z e H. pose proof (partial_only_TypeError rt x y z) as Ho.
    rewrite H in Ho. exact Ho.
  - intros variables e H.
    pose proof (createCorrelationMatrix_only_TypeError rt variables) as Ho.
    rewrite H in Ho. exact Ho.
  - intros dependent independents e H.
    assert (Ho : only_TypeError (calculateMultipleCorrelation rt dependent independents)).
    { unfold calculateMultipleCorrelation.
      apply only_TypeError_bind; [apply createCorrelationMatrix_only_TypeError|].
      intros m.
      apply only_TypeError_bind; [apply method_receiver_only_TypeError|].
      intros row0. unfold matrixInverse. cbn [Js.bind].
      apply only_TypeError_bind.
      - apply for_each_only_TypeError. intros acc iv.
        apply only_TypeError_bind; [apply method_receiver_only_TypeError|].
        intros rowi; exact I.
      - intros sum.
        apply only_TypeError_bind; [apply incompleteBeta_only_TypeError|].
        intros p; exact I. }
    rewrite H in Ho. exact Ho.
Qed.

(** One empty variable is enough for the correlation matrix to fail: its
    diagonal cell is the coefficient of the variable with itself, whose
    [reduce] raises.  So [calculateMultipleCorrelation] answers an empty
    dependent sample, or an empty sample among the independents, with
    TypeError. *)
Theorem calculateMultipleCorrelation_empty_variable_TypeError :
  forall rt (dependent : list number) (independents : list (list number)),
    In [] (dependent :: independents) ->
    createCorrelationMatrix rt (dependent :: independents) = Throw TypeError
    /\ calculateMultipleCorrelation rt dependent independents = Throw TypeError.
Proof.
  intros rt dependent independents Hin.
  assert (Hm : createCorrelationMatrix rt (dependent :: independents) = Throw TypeError).
  { destruct (In_nth _ _ [] Hin) as (i & Hi & Hnth).
    pose proof (createCorrelationMatrix_only_TypeError rt (dependent :: independents))
      as Ho.
    destruct (createCorrelationMatrix rt (dependent :: independents)) as [m|e] eqn:E.
    - destruct (MatrixFacts.createCorrelationMatrix_done rt _ m E) as [_ Hdone].
      destruct (Hdone i i) as (res & Hres & _); [lia|].
      rewrite Hnth in Hres. discriminate Hres.
    - simpl in Ho. now subst e. }
  split; [exact Hm|].
  unfold calculateMultipleCorrelation. now rewrite Hm.
Qed.

Lemma calculateMultipleCorrelation_empty_variable_TypeError_witness :
  createCorrelationMatrix (reference ConstIsVar) [[1; 2; 3]; [3; 1; 2]; []]
  = Throw TypeError
  /\ calculateMultipleCorrelation (reference ConstIsVar) [1; 2; 3] [[3; 1; 2]; []]
     = Throw TypeError.
Proof.
  apply (calculateMultipleCorrelation_empty_variable_TypeError (reference ConstIsVar)
           [1; 2; 3] [[3; 1; 2]; []]).
  right; right; left; reflexivity.
Defined.

(** ** The partial correlation of [x] and [y], and of [y] and [x] *)

Lemma pearson_comm rt (x y : list number) :
  length x = length y ->
  calculatePearsonCorrelation rt x y = calculatePearsonCorrelation rt y x.
Proof.
  intros Hl. unfold calculatePearsonCorrelation.
  now rewrite (SymmetryFacts.pearson_r_comm x y Hl), Hl.
Qed.

Lemma partial_coefficient_comm (rxy rxz ryz : number) :
  partial_coefficient rxy rxz ryz = partial_coefficient rxy ryz rxz.
Proof.
  unfold partial_coefficient.
  rewrite (SpecialValues.mul_comm rxz ryz).
  rewrite (SpecialValues.mul_comm (1 - rxz * rxz) (1 - ryz * ryz)).
  reflexivity.
Qed.

(** [calculatePartialCorrelation] treats the two variables it correlates
    alike: for [x] and [y] of one length, and any control [z], exchanging
    them gives the same coefficient, p-value and verdict, or TypeError in
    both orders. *)
Theorem calculatePartialCorrelation_symmetric :
  forall rt (x y z : list number),
    length x = length y ->
    calculatePartialCorrelation rt x y z = calculatePartialCorrelation rt y x z.
Proof.
  intros rt x y z Hl. unfold calculatePartialCorrelation.
  rewrite (pearson_comm rt y x (eq_sym Hl)), <- Hl.
  pose proof (pearson_only_TypeError rt x y) as Hxy.
  pose proof (pearson_only_TypeError rt x z) as Hxz.
  pose proof (pearson_only_TypeError rt y z) as Hyz.
  destruct (calculatePearsonCorrelation rt x y) as [cxy|e1];
    destruct (calculatePearsonCorrelation rt x z) as [cxz|e2];
    destruct (calculatePearsonCorrelation rt y z) as [cyz|e3];
    simpl in *; subst; try reflexivity.
  now rewrite (partial_coefficient_comm (coefficient cxy) (coefficient cxz)
                 (coefficient cyz)).
Qed.

Lemma calculatePartialCorrelation_symmetric_witness :
  calculatePartialCorrelation (reference ConstIsVar) [1; 3; 2; 5; 4] [2; 1; 4; 3; 6]
    [1; 2; 4; 3; 5]
  = calculatePartialCorrelation (reference ConstIsVar) [2; 1; 4; 3; 6] [1; 3; 2; 5; 4]
      [1; 2; 4; 3; 5].
Proof.
  apply (calculatePartialCorrelation_symmetric (reference ConstIsVar)
           [1; 3; 2; 5; 4] [2; 1; 4; 3; 6] [1; 2; 4; 3; 5]).
  reflexivity.
Defined.

(** ** What the correlations return, by the semantics of [const] *)

Lemma tDistribution_immutable rt (t df : number) :
  const_binding rt = ConstIsImmutable ->
  calculateTDistributionPValue rt t df
  = if df / (df + t * t) =? 0 then Normal 1
    else if df / (df + t * t) =? 1 then Normal 0
    else Throw TypeError.
Proof.
  intros Hc. unfold calculateTDistributionPValue, incompleteBeta.
  destruct (_ =? 0); [reflexivity|]. destruct (_ =? 1); [reflexivity|].
  rewrite !(betaCF_immutable rt) by exact Hc.
  destruct (_ <? _); reflexivity.
Qed.

Lemma incompleteBeta_var rt (x a b : number) :
  const_binding rt = ConstIsVar -> exists v, incompleteBeta rt x a b = Normal v.
Proof.
  intros Hc. unfold incompleteBeta.
  destruct (x =? 0); [eexists; reflexivity|].
  destruct (x =? 1); [eexists; reflexivity|].
  destruct (x <? _).
  - destruct (betaCF_var rt x a b Hc) as [v ->]. eexists; reflexivity.
  - destruct (betaCF_var rt (1 - x) b a Hc) as [v ->]. eexists; reflexivity.
Qed.

Lemma tDistribution_var rt (t df : number) :
  const_binding rt = ConstIsVar ->
  exists p, calculateTDistributionPValue rt t df = Normal p.
Proof.
  intros Hc. unfold calculateTDistributionPValue.
  destruct (incompleteBeta_var rt (df / (df + t * t)) (df / 2) 0.5 Hc) as [v ->].
  eexists; reflexivity.
Qed.

(** Where [const] is immutable, a correlation that returns at all reports
    a p-value of exactly 1 (not significant) or exactly 0 (significant):
    every value in between would have needed the continued fraction.  This
    holds for Pearson's, Spearman's and the partial coefficient. *)
Theorem correlations_immutable_p_value_zero_or_one :
  forall rt,
    const_binding rt = ConstIsImmutable ->
    let extreme res :=
      (pValue res = 1 /\ significant res = false)
      \/ (pValue res = 0 /\ significant res = true) in
    (forall x y res, calculatePearsonCorrelation rt x y = Normal res -> extreme res)
    /\ (forall x y res, calculateSpearmanCorrelation rt x y = Normal res -> extreme res)
    /\ (forall x y z res,
          calculatePartialCorrelation rt x y z = Normal res -> extreme res).
Proof.
  intros rt Hc extreme.
  assert (Ht : forall r t df res,
             (pValue <- calculateTDistributionPValue rt t df ;;
              Normal {| coefficient := r; pValue := pValue;
                        significant := pValue <? 0.05 |}) = Normal res ->
             extreme res).
  { intros r t df res. rewrite (tDistribution_immutable rt t df Hc).
    destruct (_ =? 0); [|destruct (_ =? 1)]; cbn [Js.bind]; intros H;
      try discriminate H; injection H as <-; [left|right]; split; reflexivity. }
  assert (Hp : forall x y res,
             calculatePearsonCorrelation rt x y = Normal res -> extreme res).
  { intros x y res. unfold calculatePearsonCorrelation.
    destruct (pearson_r x y) as [r|e]; cbn [Js.bind]; [apply Ht|discriminate]. }
  split; [exact Hp|]. split.
  - intros x y res. apply Hp.
  - intros x y z res. unfold calculatePartialCorrelation.
    destruct (calculatePearsonCorrelation rt x y) as [cxy|e]; [|discriminate].
    destruct (calculatePearsonCorrelation rt x z) as [cxz|e]; [|discriminate].
    destruct (calculatePearsonCorrelation rt y z) as [cyz|e]; [|discriminate].
    cbn [Js.bind]. apply Ht.
Qed.

Lemma correlations_immutable_p_value_zero_or_one_witness :
  calculatePearsonCorrelation (reference ConstIsImmutable) [0.1; 0.1; 0.1] [1; 2; 3]
  = Normal {| coefficient := 0; pValue := 0; significant := true |}
  /\ ((pValue {| coefficient := 0; pValue := 0; significant := true |} = 1
       /\ significant {| coefficient := 0; pValue := 0; significant := true |} = false)
      \/ (pValue {| coefficient := 0; pValue := 0; significant := true |} = 0
          /\ significant {| coefficient := 0; pValue := 0; significant := true |}
             = true)).
Proof.
  split; [vm_compute; reflexivity|].
  apply (proj1 (correlations_immutable_p_value_zero_or_one
                  (reference ConstIsImmutable) eq_refl)
           [0.1; 0.1; 0.1] [1; 2; 3]).
  vm_compute; reflexivity.
Defined.

Lemma for_each_returns {A B} (body : B -> A -> completion B) (l : list A) :
  (forall b a, In a l -> exists b', body b a = Normal b') ->
  forall b, exists b', for_each body l b = Normal b'.
Proof.
  induction l as [|a l IH]; intros H b; simpl; [eexists; reflexivity|].
  destruct (H b a (or_introl eq_refl)) as [b1 ->]. cbn [Js.bind].
  apply IH. intros b0 a0 Hin. apply H. now right.
Qed.

Lemma pearson_var rt (x y : list number) :
  const_binding rt = ConstIsVar -> x <> [] -> y <> [] ->
  exists res, calculatePearsonCorrelation rt x y = Normal res.
Proof.
  intros Hc Hx Hy. unfold calculatePearsonCorrelation.
  destruct (pearson_r_nonempty x y Hx Hy) as [r ->]. cbn [Js.bind].
  destruct (tDistribution_var rt (tStatistic r (of_nat (length x) - 2))
              (of_nat (length x) - 2) Hc) as [p ->].
  eexists; reflexivity.
Qed.

Lemma calculateRanks_nonempty (rt : Runtime.t) (x : list number) :
  x <> [] -> calculateRanks rt x <> [].
Proof.
  destruct x; [congruence|]. discriminate.
Qed.

(** Where the assignment to [aa] is allowed, the four correlations return a
    result for all non-empty samples: whatever their lengths, their
    variances and the matrix to invert, nothing is raised.  With an empty
    sample the failure is the TypeError of the theorems above. *)
Theorem correlations_var_return_on_nonempty_samples :
  forall rt,
    const_binding rt = ConstIsVar ->
    (forall x y, x <> [] -> y <> [] ->
       exists res, calculatePearsonCorrelation rt x y = Normal res)
    /\ (forall x y, x <> [] -> y <> [] ->
          exists res, calculateSpearmanCorrelation rt x y = Normal res)
    /\ (forall x y z, x <> [] -> y <> [] -> z <> [] ->
          exists res, calculatePartialCorrelation rt x y z = Normal res)
    /\ (forall dependent independents,
          Forall (fun v => v <> []) (dependent :: independents) ->
          exists res,
            calculateMultipleCorrelation rt dependent independents = Normal res).
Proof.
  intros rt Hc. split; [|split; [|split]].
  - intros x y. now apply pearson_var.
  - intros x y Hx Hy. unfold calculateSpearmanCorrelation.
    apply pearson_var; [exact Hc| |]; now apply calculateRanks_nonempty.
  - intros x y z Hx Hy Hz. unfold calculatePartialCorrelation.
    destruct (pearson_var rt x y Hc Hx Hy) as [cxy ->].
    destruct (pearson_var rt x z Hc Hx Hz) as [cxz ->].
    destruct (pearson_var rt y z Hc Hy Hz) as [cyz ->]. cbn [Js.bind].
    match goal with
    | |- context [calculateTDistributionPValue rt ?t ?df] =>
        destruct (tDistribution_var rt t df Hc) as [p ->]
    end.
    eexists; reflexivity.
  - intros dependent independents Hall. unfold calculateMultipleCorrelation.
    set (variables := dependent :: independents) in *.
    assert (Hm : exists m, createCorrelationMatrix rt variables = Normal m).
    { unfold createCorrelationMatrix. apply for_each_returns.
      intros m i Hi. apply for_each_returns. intros m' j Hj.
      apply in_seq in Hi, Hj. unfold correlation_cell.
      destruct (pearson_var rt (nth i variables []) (nth j variables []) Hc)
        as [res ->].
      - apply (Forall_nth_in _ _ _ _ Hall). lia.
      - apply (Forall_nth_in _ _ _ _ Hall). lia.
      - eexists; reflexivity. }
    destruct Hm as [m Hm]. rewrite Hm. cbn [Js.bind].
    destruct (MatrixFacts.createCorrelationMatrix_done rt variables m Hm)
      as [[Hl Hr] _].
    cbn [length] in Hl, Hr.
    destruct m as [|row0 m]; [discriminate Hl|]. cbn [nth_error method_receiver Js.bind].
    injection Hl as Hl. inversion Hr as [|? ? Hr0 Hrm]; subst.
    set (p := length independents) in *.
    assert (Hv : length variables = S p) by reflexivity.
    rewrite Hv in Hr0, Hrm.
    assert (Hlen : length (skipn 1 row0) = p) by (rewrite length_skipn; lia).
    destruct (matrixInverse_square (map (skipn 1) (skipn 1 (row0 :: m))) p)
      as (inv & Hinv & Hil & _).
    { change (skipn 1 (row0 :: m)) with m. rewrite length_map. exact Hl. }
    { change (skipn 1 (row0 :: m)) with m. apply Forall_forall. intros r Hin.
      apply in_map_iff in Hin as (r0 & <- & Hin). rewrite Forall_forall in Hrm.
      rewrite length_skipn, (Hrm _ Hin). lia. }
    rewrite Hinv. cbn [Js.bind].
    match goal with
    | |- context [reduce_indexed_raising ?f ?l ?i] =>
        assert (Hs : exists sum, reduce_indexed_raising f l i = Normal sum)
    end.
    { unfold reduce_indexed_raising. apply for_each_returns.
      intros acc [i ryx] Hin. apply in_combine_l, in_seq in Hin. cbn [fst snd].
      destruct (nth_error inv i) as [rowi|] eqn:E.
      - eexists; reflexivity.
      - apply nth_error_None in E. lia. }
    destruct Hs as [sum ->]. cbn [Js.bind].
    match goal with
    | |- context [calculateFDistributionPValue rt ?F ?d1 ?d2] =>
        destruct (incompleteBeta_var rt (d2 / (d2 + d1 * F)) (d2 / 2) (d1 / 2) Hc)
          as [pv Hp]
    end.
    unfold calculateFDistributionPValue. rewrite Hp. eexists; reflexivity.
Qed.

Lemma correlations_var_return_on_nonempty_samples_witness :
  exists res,
    calculateMultipleCorrelation (reference ConstIsVar) [1; 2; 3; 4; 6]
      [[2; 1; 4; 3; 5]; [1; 3; 2; 5; 4]] = Normal res.
Proof.
  apply (proj2 (proj2 (proj2 (correlations_var_return_on_nonempty_samples
                                (reference ConstIsVar) eq_refl)))
           [1; 2; 3; 4; 6] [[2; 1; 4; 3; 5]; [1; 3; 2; 5; 4]]).
  repeat constructor; discriminate.
Defined.

(** ** Multiple correlation without an independent variable *)

(** With no independent variable there is nothing to sum: whenever
    [calculateMultipleCorrelation] returns, the coefficient is
    [Math.sqrt(0)] = 0, whatever the dependent sample is. *)
Theorem calculateMultipleCorrelation_no_independent_is_zero :
  forall rt (dependent : list number) res,
    calculateMultipleCorrelation rt dependent [] = Normal res ->
    coefficient res = 0.
Proof.
  intros rt dependent res. unfold calculateMultipleCorrelation.
  destruct (createCorrelationMatrix rt [dependent]) as [m|e] eqn:E; [|discriminate].
  destruct (MatrixFacts.createCorrelationMatrix_done rt _ m E) as [[Hl Hr] _].
  cbn [length] in Hl, Hr.
  destruct m as [|r [|r' m]]; try discriminate Hl.
  inversion Hr as [|? ? Hr0 _]; subst.
  destruct r as [|c [|c' r]]; try discriminate Hr0.
  unfold matrixInverse. cbn [Js.bind nth_error method_receiver skipn].
  unfold reduce_indexed_raising. cbn [length seq combine for_each Js.bind].
  destruct (calculateFDistributionPValue rt _ _ _) as [p|e]; [|discriminate].
  cbn [Js.bind]. intros H. injection H as <-. reflexivity.
Qed.

Lemma calculateMultipleCorrelation_no_independent_is_zero_witness :
  calculateMultipleCorrelation (reference ConstIsVar) [1; 2; 3] []
  = Normal {| coefficient := 0; pValue := nan; significant := false |}
  /\ coefficient {| coefficient := 0; pValue := nan; significant := false |} = 0.
Proof.
  split; [vm_compute; reflexivity|].
  apply (calculateMultipleCorrelation_no_independent_is_zero (reference ConstIsVar)
           [1; 2; 3]).
  vm_compute; reflexivity.
Defined.

(** ** Kendall's tau of a negated sample *)

Import NumberNotions.

Module NegationFacts.

Lemma binary_round_aux_opp s m e l :
  binary_round_aux prec emax (negb s) m e l = SFopp (binary_round_aux prec emax s m e l).
Proof.
  unfold binary_round_aux.
  destruct (shr_fexp prec emax m e l) as [mrs' e'].
  destruct (shr_fexp prec emax _ e' loc_Exact) as [mrs'' e''].
  destruct (shr_m mrs''); try reflexivity.
  destruct (e'' <=? emax - prec)%Z; reflexivity.
Qed.

Lemma binary_round_opp s m e :
  binary_round prec emax (negb s) m e = SFopp (binary_round prec emax s m e).
Proof.
  unfold binary_round. destruct (shl_align m e _) as [mz ez].
  apply binary_round_aux_opp.
Qed.

Lemma binary_normalize_opp m e :
  same_number (binary_normalize prec emax (- m) e false)
              (SFopp (binary_normalize prec emax m e false)).
Proof.
  unfold binary_normalize. destruct m as [|p|p]; simpl.
  - right. eexists _, _; split; reflexivity.
  - left. apply (binary_round_opp false).
  - left. rewrite <- (binary_round_opp true). reflexivity.
Qed.

Lemma cond_Zopp_negb s v : cond_Zopp (negb s) v = (- cond_Zopp s v)%Z.
Proof. destruct s; simpl; lia. Qed.

Lemma SFsub_opp A B :
  same_number (SF64sub (SFopp B) (SFopp A)) (SFopp (SF64sub B A)).
Proof.
  unfold SF64sub, SFsub.
  destruct A as [sa|sa| |sa ma ea], B as [sb|sb| |sb mb eb]; simpl;
    try (left; reflexivity);
    try (destruct sa, sb; simpl; solve [left; reflexivity
                                       | right; eexists _, _; split; reflexivity]).
  rewrite !cond_Zopp_negb.
  match goal with
  | |- same_number (binary_normalize _ _ (- ?u - - ?v) ?e false) _ =>
      replace (- u - - v)%Z with (- (u - v))%Z by lia
  end.
  apply binary_normalize_opp.
Qed.

Lemma SFmul_opp_r X D : SF64mul X (SFopp D) = SFopp (SF64mul X D).
Proof.
  unfold SF64mul, SFmul.
  destruct X as [sx|sx| |sx mx ex], D as [sd|sd| |sd md ed]; simpl;
    try reflexivity; try (destruct sx, sd; reflexivity).
  replace (xorb sx (negb sd)) with (negb (xorb sx sd))
    by (destruct sx, sd; reflexivity).
  apply binary_round_aux_opp.
Qed.

Lemma SFmul_same_number X D D' :
  same_number D' D -> same_number (SF64mul X D') (SF64mul X D).
Proof.
  intros [->|(s & s' & -> & ->)]; [left; reflexivity|].
  unfold SF64mul, SFmul. destruct X as [sx|sx| |sx mx ex];
    solve [left; reflexivity | right; eexists _, _; split; reflexivity].
Qed.

Lemma same_number_opp X Y : same_number X Y -> same_number (SFopp X) (SFopp Y).
Proof.
  intros [->|(s & s' & -> & ->)]; [left; reflexivity|].
  right; eexists _, _; split; reflexivity.
Qed.

Lemma ltb_opp_swap P' P :
  same_number P' (SFopp P) ->
  SFltb (S754_zero false) P' = SFltb P (S754_zero false)
  /\ SFltb P' (S754_zero false) = SFltb (S754_zero false) P.
Proof.
  intros [->|(s & s' & -> & E)].
  - destruct P as [s|s| |s m e]; try destruct s; split; reflexivity.
  - destruct P as [s0|s0| |s0 m e]; try discriminate E. split; reflexivity.
Qed.

Lemma get_map_opp (y : list number) (j : nat) : get (map opp y) j = - get y j.
Proof.
  unfold get. change nan with (- nan) at 1. apply map_nth.
Qed.

Lemma pair_product_opp (x y : list number) (ij : nat * nat) :
  same_number (Prim2SF (pair_product x (map opp y) ij))
              (SFopp (Prim2SF (pair_product x y ij))).
Proof.
  unfold pair_product. rewrite !get_map_opp, !mul_spec, !sub_spec, !opp_spec.
  rewrite <- SFmul_opp_r. apply SFmul_same_number, SFsub_opp.
Qed.

Lemma concordant_opp (x y : list number) (ij : nat * nat) :
  concordant x (map opp y) ij = discordant x y ij
  /\ discordant x (map opp y) ij = concordant x y ij.
Proof.
  unfold concordant, discordant. rewrite !ltb_spec.
  change (Prim2SF 0) with (S754_zero false).
  apply ltb_opp_swap, pair_product_opp.
Qed.

Lemma kendall_counts_opp (x y : list number) :
  kendall_counts x (map opp y)
  = (snd (kendall_counts x y), fst (kendall_counts x y)).
Proof.
  rewrite !KendallFacts.kendall_counts_spec. cbn [fst snd]. unfold count.
  f_equal; do 2 f_equal; apply filter_ext; intros ij; apply concordant_opp.
Qed.

Lemma tau_exact_opp (x y : list number) :
  Qeq (tau_exact x (map opp y)) (- tau_exact x y).
Proof.
  unfold tau_exact. rewrite kendall_counts_opp.
  destruct (kendall_counts x y) as [c d]. cbn [fst snd].
  setoid_replace (inject_Z (d - c)) with (- inject_Z (c - d))%Q
    by (unfold Qeq; simpl; lia).
  unfold Qdiv. ring.
Qed.

End NegationFacts.

(** Negating every value of [y] turns each concordant pair into a
    discordant one and back, ties staying ties: the two counters are
    exchanged and the exact quotient changes its sign.  (Rounding is
    symmetric in the sign, so this holds for all numbers, NaN and the
    infinities included.) *)
Theorem kendall_negated_sample_exchanges_counts :
  forall (x y : list number),
    kendall_counts x (map opp y)
    = (snd (kendall_counts x y), fst (kendall_counts x y))
    /\ Qeq (tau_exact x (map opp y)) (- tau_exact x y).
Proof.
  intros x y. split.
  - apply NegationFacts.kendall_counts_opp.
  - apply NegationFacts.tau_exact_opp.
Qed.
